(** * fairness11ax: uplink fairness harness (PoissonUdpApp, counters, reducer)

    A shallow embedding of [src/ns3/fairness11ax.cc]:
    - [Double]: IEEE-754 binary64 values, as the C++ [double] of the source;
    - [LambdaAssignment]: the "Lambda assignment" block of [main];
    - [ParseCsvDoubles]: the CSV rate-list parser (over a model of [std::stod]);
    - [StaStats] and the trace callbacks [OnMacTxDataFailed], ...;
    - the results loop of [main];
    - [PoissonUdpApp] running on a model of the event queue of the simulator. *)

From Stdlib Require Import ZArith Lia SpecFloat Ascii String.
From stdpp Require Import base option list strings.

Local Open Scope Z_scope.

(** ** Machine integers *)

Definition wrap32 (z : Z) : Z := z mod 2 ^ 32.
Definition wrap64 (z : Z) : Z := z mod 2 ^ 64.

Definition is_u32 (z : Z) : Prop := 0 <= z < 2 ^ 32.
Definition is_u64 (z : Z) : Prop := 0 <= z < 2 ^ 64.

(** ** C++ [double]: IEEE-754 binary64, round to nearest even *)

Module Double.

Definition prec : Z := 53.
Definition emax : Z := 1024.

Definition double : Type := spec_float.

Definition zero : double := S754_zero false.
Definition nan : double := S754_nan.
Definition infinity (neg : bool) : double := S754_infinity neg.

(** Conversion of an integer (as in [static_cast<double>(n)] or the
    usual arithmetic conversions). *)
Definition of_Z (z : Z) : double := binary_normalize prec emax z 0 false.

Definition mul : double -> double -> double := SFmul prec emax.
Definition div : double -> double -> double := SFdiv prec emax.
Definition add : double -> double -> double := SFadd prec emax.
Definition leb : double -> double -> bool := SFleb.
Definition ltb : double -> double -> bool := SFltb.
Definition opp : double -> double := SFopp.

(** [m * 2^e], correctly rounded. *)
Definition of_binary (m e : Z) : double := binary_normalize prec emax m e false.

(** [m * 10^e], correctly rounded: the value of a decimal literal. *)
Definition of_decimal (m e : Z) : double :=
  match m with
  | Z0 => zero
  | Zpos p =>
      if 0 <=? e then of_Z (m * 10 ^ e)
      else SFdiv prec emax (S754_finite false p 0)
                           (S754_finite false (Z.to_pos (10 ^ (- e))) 0)
  | Zneg p =>
      if 0 <=? e then of_Z (m * 10 ^ e)
      else SFdiv prec emax (S754_finite true p 0)
                           (S754_finite false (Z.to_pos (10 ^ (- e))) 0)
  end.

Definition is_zero (x : double) : bool :=
  match x with S754_zero _ => true | _ => false end.

Definition is_infinite (x : double) : bool :=
  match x with S754_infinity _ => true | _ => false end.

Definition is_finite_pos (x : double) : bool :=
  match x with S754_finite false _ _ => true | _ => false end.

End Double.

Abbreviation double := Double.double.

(** ** [std::vector] accesses and counted loops *)

(** [v[i]]: outside the vector the C++ behaviour is undefined, which the
    model reports as [None]. *)
Definition vec_get {A} (v : list A) (i : nat) : option A := v !! i.

Definition vec_set {A} (v : list A) (i : nat) (x : A) : option (list A) :=
  if decide (i < length v)%nat then Some (<[i := x]> v) else None.

(** [v.back()]. *)
Definition vec_back {A} (v : list A) : option A := last v.

(** [for (uint32_t i = lo; i < lo + n; ++i) body(i)], threading the state
    and stopping at the first undefined access. *)
Fixpoint for_range {S} (lo n : nat) (body : nat -> S -> option S) (s : S)
  : option S :=
  match n with
  | O => Some s
  | Datatypes.S n' =>
      match body lo s with
      | Some s' => for_range (Datatypes.S lo) n' body s'
      | None => None
      end
  end.

(** ** Lambda assignment ([main], "Lambda assignment") *)

Section ArrivalRateAssigner.

Variables (nLegacy mHe : Z).
Variable parsed : list double.
Variables (lambdaLegacy lambdaHe : double).

Definition nTotal : Z := wrap32 (nLegacy + mHe).

Definition LambdaAssignment : option (list double) :=
  let lambdas := replicate (Z.to_nat nTotal) Double.zero in
  if negb (bool_decide (parsed = [])) then
    for_range 0 (Z.to_nat nTotal)
      (fun i lambdas =>
         x ← (if decide (i < length parsed)%nat
              then vec_get parsed i else vec_back parsed);
         vec_set lambdas i x)
      lambdas
  else
    lambdas ← for_range 0 (Z.to_nat nLegacy)
                (fun i lambdas => vec_set lambdas i lambdaLegacy) lambdas;
    for_range 0 (Z.to_nat mHe)
      (fun j lambdas =>
         vec_set lambdas (Z.to_nat (wrap32 (nLegacy + Z.of_nat j))) lambdaHe)
      lambdas.

End ArrivalRateAssigner.

(** The rate an explicit list gives station [i]: its [i]-th element, or its
    last one past the end. *)
Definition list_rate (parsed : list double) (i : nat) : option double :=
  if decide (i < length parsed)%nat then parsed !! i else last parsed.

(** ** [std::stod] and [ParseCsvDoubles] *)

(** The source calls [std::stod(item)] of the C++ standard library, which
    behaves as [strtod]: leading white space is skipped, the longest prefix
    that is a floating-point literal is converted, the rest of the string is
    ignored; when no prefix can be converted [std::invalid_argument] is
    thrown, when the value is out of range [std::out_of_range]. *)
Module Stod.

Inductive error := invalid_argument | out_of_range.

Definition code (c : ascii) : Z := Z.of_N (N_of_ascii c).

Definition isspace (c : ascii) : bool :=
  (code c =? 32) || ((9 <=? code c) && (code c <=? 13)).

Definition tolower (c : ascii) : ascii :=
  if (65 <=? code c) && (code c <=? 90)
  then ascii_of_N (Z.to_N (code c + 32)) else c.

Definition digit10 (c : ascii) : option Z :=
  if (48 <=? code c) && (code c <=? 57) then Some (code c - 48) else None.

Definition digit16 (c : ascii) : option Z :=
  match digit10 c with
  | Some d => Some d
  | None =>
      let l := code (tolower c) in
      if (97 <=? l) && (l <=? 102) then Some (l - 87) else None
  end.

Fixpoint skip_space (s : string) : string :=
  match s with
  | String c r => if isspace c then skip_space r else s
  | EmptyString => s
  end.

(** Reads digits in base [b]: the accumulated value, the number of digits
    read and the rest of the input. *)
Fixpoint digits (digit : ascii -> option Z) (b : Z) (s : string)
         (acc n : Z) : Z * Z * string :=
  match s with
  | String c r =>
      match digit c with
      | Some d => digits digit b r (acc * b + d) (n + 1)
      | None => (acc, n, s)
      end
  | EmptyString => (acc, n, s)
  end.

(** Drops [p] from the front of [s], ignoring case ([p] is lower case). *)
Fixpoint strip_prefix_ci (p s : string) : option string :=
  match p, s with
  | EmptyString, _ => Some s
  | String a p', String c s' =>
      if Ascii.eqb a (tolower c) then strip_prefix_ci p' s' else None
  | String _ _, EmptyString => None
  end.

(** Optional exponent part: a marker, an optional sign and at least one
    decimal digit; otherwise nothing is consumed. *)
Definition exponent (marker : ascii) (s : string) : Z * string :=
  match s with
  | String c r =>
      if Ascii.eqb (tolower c) marker then
        let '(neg, r1) :=
          match r with
          | String "+" r' => (false, r')
          | String "-" r' => (true, r')
          | _ => (false, r)
          end in
        let '(v, n, r2) := digits digit10 10 r1 0 0 in
        if n =? 0 then (0, s) else (if neg then - v else v, r2)
      else (0, s)
  | EmptyString => (0, s)
  end.

(** Mantissa with an optional radix point: the integer made of all the
    digits, the number of digits after the point, the rest; [None] when
    there is no digit at all. *)
Definition mantissa (digit : ascii -> option Z) (b : Z) (s : string)
  : option (Z * Z * string) :=
  let '(ip, ni, r1) := digits digit b s 0 0 in
  let '(m, nf, r2) :=
    match r1 with
    | String "." r => digits digit b r ip 0
    | _ => (ip, 0, r1)
    end in
  if ni + nf =? 0 then None else Some (m, nf, r2).

Definition decimal (s : string) : option (Z * Z * string) :=
  match mantissa digit10 10 s with
  | Some (m, nf, r) => let '(e, r') := exponent "e" r in Some (m, e - nf, r')
  | None => None
  end.

Definition hexadecimal (s : string) : option (Z * Z * string) :=
  match strip_prefix_ci "0x" s with
  | Some r0 =>
      match mantissa digit16 16 r0 with
      | Some (m, nf, r) =>
          let '(e, r') := exponent "p" r in Some (m, e - 4 * nf, r')
      | None => None
      end
  | None => None
  end.

Definition is_nchar (c : ascii) : bool :=
  match digit10 c with
  | Some _ => true
  | None =>
      let l := code (tolower c) in
      ((97 <=? l) && (l <=? 122)) || (code c =? 95)
  end.

Fixpoint skip_nchars (s : string) : string :=
  match s with
  | String c r => if is_nchar c then skip_nchars r else s
  | EmptyString => s
  end.

(** The exact value [m * b^e] of a literal, [b] being 2 or 10, as a
    fraction. *)
Definition fraction (m b e : Z) : Z * Z :=
  if 0 <=? e then (m * b ^ e, 1) else (m, b ^ (- e)).

(** A value is tiny when, rounded to 53 bits with an unbounded exponent,
    it is below the smallest normal number [2^-1022]: when it is below
    [2^-1022 - 2^-1076]. *)
Definition tiny (q : Z * Z) : bool :=
  let '(num, den) := q in num * 2 ^ 1076 <? (2 ^ 54 - 1) * den.

(** Whether [v] is the value, with no rounding error. *)
Definition exact (q : Z * Z) (v : double) : bool :=
  let '(num, den) := q in
  match v with
  | S754_zero _ => num =? 0
  | S754_finite _ mv ev =>
      if 0 <=? ev then num =? Zpos mv * 2 ^ ev * den
      else num * 2 ^ (- ev) =? Zpos mv * den
  | _ => false
  end.

(** [ERANGE] is raised on overflow and on underflow. For underflow the C
    standard leaves it to the implementation; the model follows glibc on
    x86-64, which raises it when the value is tiny and the result is not
    exact (a subnormal result or zero, as for [1e-310]). *)
Definition erange (m b e : Z) (v : double) : bool :=
  negb (m =? 0)
  && (Double.is_infinite v
      || (tiny (fraction m b e) && negb (exact (fraction m b e) v))).

(** The unsigned part of the subject sequence: value, whether [ERANGE] is
    raised, rest of the input. *)
Definition magnitude (s : string) : option (double * bool * string) :=
  match strip_prefix_ci "inf" s with
  | Some r =>
      match strip_prefix_ci "inity" r with
      | Some r' => Some (Double.infinity false, false, r')
      | None => Some (Double.infinity false, false, r)
      end
  | None =>
  match strip_prefix_ci "nan" s with
  | Some r =>
      match r with
      | String "(" r1 =>
          match skip_nchars r1 with
          | String ")" r2 => Some (Double.nan, false, r2)
          | _ => Some (Double.nan, false, r)
          end
      | _ => Some (Double.nan, false, r)
      end
  | None =>
  match hexadecimal s with
  | Some (m, e, r) =>
      let v := Double.of_binary m e in
      Some (v, erange m 2 e v, r)
  | None =>
  match decimal s with
  | Some (m, e, r) =>
      let v := Double.of_decimal m e in
      Some (v, erange m 10 e v, r)
  | None => None
  end end end end.

(** [strtod]: the converted value, the [ERANGE] flag and the unconverted
    rest ([endptr]); [None] when no conversion can be performed. *)
Definition strtod (s : string) : option (double * bool * string) :=
  let s0 := skip_space s in
  let '(neg, s1) :=
    match s0 with
    | String "+" r => (false, r)
    | String "-" r => (true, r)
    | _ => (false, s0)
    end in
  match magnitude s1 with
  | Some (v, erange, r) => Some (if neg then Double.opp v else v, erange, r)
  | None => None
  end.

(** [std::stod(str)] with the default [idx = nullptr]. *)
Definition stod (s : string) : error + double :=
  match strtod s with
  | None => inl invalid_argument
  | Some (v, true, _) => inl out_of_range
  | Some (v, false, _) => inr v
  end.

End Stod.

(** The successive results of [std::getline(ss, item, ',')]: [item] holds
    the characters read so far; at the end of the input an item is produced
    only when characters were extracted. *)
Fixpoint getline_items (s item : string) : list string :=
  match s with
  | EmptyString => match item with EmptyString => [] | _ => [item] end
  | String c r =>
      if Ascii.eqb c ","
      then item :: getline_items r EmptyString
      else getline_items r (item +:+ String c EmptyString)
  end.

(** Body of the [while] loop: empty items are skipped, the first failing
    [std::stod] propagates. *)
Fixpoint parse_items (items : list string) (out : list double)
  : Stod.error + list double :=
  match items with
  | [] => inr out
  | item :: rest =>
      match item with
      | EmptyString => parse_items rest out
      | _ =>
          match Stod.stod item with
          | inl e => inl e
          | inr x => parse_items rest (out ++ [x])
          end
      end
  end.

Definition ParseCsvDoubles (s : string) : Stod.error + list double :=
  match s with
  | EmptyString => inr []
  | _ => parse_items (getline_items s EmptyString) []
  end.

(** The entries of a rate list: the items between the commas. *)
Definition entries (s : string) : list string := getline_items s EmptyString.

(** An entry is numeric when the whole of it is a floating-point literal,
    in the most generous reading: any literal [strtod] knows, with nothing
    left after it. *)
Definition numeric_entry (item : string) : bool :=
  match Stod.strtod item with
  | Some (_, _, EmptyString) => true
  | _ => false
  end.

(** An entry has a numeric prefix when [strtod] can convert a front part of
    it. *)
Definition has_numeric_prefix (item : string) : bool :=
  match Stod.strtod item with Some _ => true | None => false end.

(** ** Per-station counters ([StaStats]) and the trace callbacks *)

Record StaStats := mkStaStats {
  collisionsLike : Z;
  finalFailures : Z;
  phyTxDrops : Z;
  qBytesSum : Z;
  qSamples : Z;
  heSuTxMpdu : Z;
  heTbTxMpdu : Z;
  heSuTxBytes : Z;
  heTbTxBytes : Z
}.

(** The default member initialisers: every counter starts at 0. *)
Definition StaStats_default : StaStats := mkStaStats 0 0 0 0 0 0 0 0 0.

Definition set_collisionsLike (x : Z) (s : StaStats) : StaStats :=
  mkStaStats x (finalFailures s) (phyTxDrops s) (qBytesSum s) (qSamples s)
             (heSuTxMpdu s) (heTbTxMpdu s) (heSuTxBytes s) (heTbTxBytes s).
Definition set_finalFailures (x : Z) (s : StaStats) : StaStats :=
  mkStaStats (collisionsLike s) x (phyTxDrops s) (qBytesSum s) (qSamples s)
             (heSuTxMpdu s) (heTbTxMpdu s) (heSuTxBytes s) (heTbTxBytes s).
Definition set_phyTxDrops (x : Z) (s : StaStats) : StaStats :=
  mkStaStats (collisionsLike s) (finalFailures s) x (qBytesSum s) (qSamples s)
             (heSuTxMpdu s) (heTbTxMpdu s) (heSuTxBytes s) (heTbTxBytes s).
Definition set_qBytesSum (x : Z) (s : StaStats) : StaStats :=
  mkStaStats (collisionsLike s) (finalFailures s) (phyTxDrops s) x (qSamples s)
             (heSuTxMpdu s) (heTbTxMpdu s) (heSuTxBytes s) (heTbTxBytes s).
Definition set_qSamples (x : Z) (s : StaStats) : StaStats :=
  mkStaStats (collisionsLike s) (finalFailures s) (phyTxDrops s) (qBytesSum s) x
             (heSuTxMpdu s) (heTbTxMpdu s) (heSuTxBytes s) (heTbTxBytes s).
Definition set_heSuTxMpdu (x : Z) (s : StaStats) : StaStats :=
  mkStaStats (collisionsLike s) (finalFailures s) (phyTxDrops s) (qBytesSum s)
             (qSamples s) x (heTbTxMpdu s) (heSuTxBytes s) (heTbTxBytes s).
Definition set_heTbTxMpdu (x : Z) (s : StaStats) : StaStats :=
  mkStaStats (collisionsLike s) (finalFailures s) (phyTxDrops s) (qBytesSum s)
             (qSamples s) (heSuTxMpdu s) x (heSuTxBytes s) (heTbTxBytes s).
Definition set_heSuTxBytes (x : Z) (s : StaStats) : StaStats :=
  mkStaStats (collisionsLike s) (finalFailures s) (phyTxDrops s) (qBytesSum s)
             (qSamples s) (heSuTxMpdu s) (heTbTxMpdu s) x (heTbTxBytes s).
Definition set_heTbTxBytes (x : Z) (s : StaStats) : StaStats :=
  mkStaStats (collisionsLike s) (finalFailures s) (phyTxDrops s) (qBytesSum s)
             (qSamples s) (heSuTxMpdu s) (heTbTxMpdu s) (heSuTxBytes s) x.

(** [stats[staIndex].field op= ...] through the pointer: one read-modify-write of an element
    of the vector. *)
Definition update_sta (stats : list StaStats) (staIndex : nat)
           (f : StaStats -> StaStats) : option (list StaStats) :=
  st ← vec_get stats staIndex; vec_set stats staIndex (f st).

(** The preamble types of the Wi-Fi module ([WifiPreamble]). *)
Inductive WifiPreamble :=
| WIFI_PREAMBLE_LONG
| WIFI_PREAMBLE_SHORT
| WIFI_PREAMBLE_HT_MF
| WIFI_PREAMBLE_VHT_SU
| WIFI_PREAMBLE_VHT_MU
| WIFI_PREAMBLE_HE_SU
| WIFI_PREAMBLE_HE_ER_SU
| WIFI_PREAMBLE_HE_MU
| WIFI_PREAMBLE_HE_TB
| WIFI_PREAMBLE_EHT_MU
| WIFI_PREAMBLE_EHT_TB.

(** A [Ptr<const Packet>]: [None] is the null pointer, [Some n] a packet
    whose [GetSize()] is [n]. *)
Definition PacketPtr : Type := option Z.

(** [p ? p->GetSize() : 0]. *)
Definition packet_bytes (p : PacketPtr) : Z :=
  match p with Some size => size | None => 0 end.

Definition OnMacTxDataFailed (staIndex : nat) (stats : list StaStats)
  : option (list StaStats) :=
  update_sta stats staIndex
    (fun st => set_collisionsLike (wrap64 (collisionsLike st + 1)) st).

Definition OnMacTxFinalDataFailed (staIndex : nat) (stats : list StaStats)
  : option (list StaStats) :=
  update_sta stats staIndex
    (fun st => set_finalFailures (wrap64 (finalFailures st + 1)) st).

Definition OnPhyTxDrop (staIndex : nat) (stats : list StaStats)
  : option (list StaStats) :=
  update_sta stats staIndex
    (fun st => set_phyTxDrops (wrap64 (phyTxDrops st + 1)) st).

Definition OnHePhyTxMonitor (staIndex : nat) (stats : list StaStats)
           (p : PacketPtr) (pre : WifiPreamble) : option (list StaStats) :=
  let bytes := packet_bytes p in
  match pre with
  | WIFI_PREAMBLE_HE_TB =>
      stats ← update_sta stats staIndex
                (fun st => set_heTbTxMpdu (wrap64 (heTbTxMpdu st + 1)) st);
      update_sta stats staIndex
        (fun st => set_heTbTxBytes (wrap64 (heTbTxBytes st + bytes)) st)
  | WIFI_PREAMBLE_HE_SU =>
      stats ← update_sta stats staIndex
                (fun st => set_heSuTxMpdu (wrap64 (heSuTxMpdu st + 1)) st);
      update_sta stats staIndex
        (fun st => set_heSuTxBytes (wrap64 (heSuTxBytes st + bytes)) st)
  | _ => Some stats
  end.

(** The counter part of [SampleQueue]; [txopQueue] is what the device
    reports: [None] when there is no [Txop] or no queue, otherwise
    [GetNBytes()]. *)
Definition SampleQueue_stats (staIndex : nat) (stats : list StaStats)
           (txopQueue : option Z) : option (list StaStats) :=
  let qBytes := match txopQueue with Some n => n | None => 0 end in
  stats ← update_sta stats staIndex
            (fun st => set_qBytesSum (wrap64 (qBytesSum st + qBytes)) st);
  update_sta stats staIndex
    (fun st => set_qSamples (wrap64 (qSamples st + 1)) st).

(** The counters of a record, by name: used to say which of them an
    operation leaves alone. *)
Inductive Field :=
| FcollisionsLike | FfinalFailures | FphyTxDrops | FqBytesSum | FqSamples
| FheSuTxMpdu | FheTbTxMpdu | FheSuTxBytes | FheTbTxBytes.

Definition get_field (f : Field) (s : StaStats) : Z :=
  match f with
  | FcollisionsLike => collisionsLike s
  | FfinalFailures => finalFailures s
  | FphyTxDrops => phyTxDrops s
  | FqBytesSum => qBytesSum s
  | FqSamples => qSamples s
  | FheSuTxMpdu => heSuTxMpdu s
  | FheTbTxMpdu => heTbTxMpdu s
  | FheSuTxBytes => heSuTxBytes s
  | FheTbTxBytes => heTbTxBytes s
  end.

#[global] Instance Field_eq_dec : EqDecision Field.
Proof. solve_decision. Defined.

Fixpoint field_delta (ds : list (Field * Z)) (g : Field) : option Z :=
  match ds with
  | [] => None
  | (f, d) :: ds' => if decide (f = g) then Some d else field_delta ds' g
  end.

(** [stats'] is [stats] where, in the record of station [i], every counter
    listed in [ds] had its amount added (in 64-bit unsigned arithmetic) and
    every other counter kept its value; the other records and the size of
    the table are the same. *)
Definition counters_added (ds : list (Field * Z)) (i : nat)
           (stats stats' : list StaStats) : Prop :=
  length stats' = length stats
  /\ (forall j, j <> i -> stats' !! j = stats !! j)
  /\ exists st st',
      stats !! i = Some st /\ stats' !! i = Some st'
      /\ forall g, match field_delta ds g with
                   | Some d => get_field g st' = wrap64 (get_field g st + d)
                   | None => get_field g st' = get_field g st
                   end.

(** ** The results loop of [main] *)

Definition thrMbps (rxBytes : Z) (measuredInterval : double) : double :=
  Double.div (Double.mul (Double.of_Z rxBytes) (Double.of_Z 8))
             (Double.mul measuredInterval (Double.of_Z 1000000)).

Definition avgQ (st : StaStats) : double :=
  if 0 <? qSamples st
  then Double.div (Double.of_Z (qBytesSum st)) (Double.of_Z (qSamples st))
  else Double.zero.

(** One printed line. *)
Record ResultLine := mkResultLine {
  rl_index : nat;
  rl_isLegacy : bool;
  rl_lambda : double;
  rl_thrMbps : double;
  rl_avgQ : double;
  rl_stats : StaStats
}.

(** [for (uint32_t i = 0; i < nTotal; ++i)] of the report; [sinksRx] holds
    [sinks[i]->GetTotalRx()]. *)
Definition results_loop (nLegacy nTotal : Z) (measuredInterval : double)
           (sinksRx : list Z) (lambdas : list double) (stats : list StaStats)
  : option (list ResultLine) :=
  for_range 0 (Z.to_nat nTotal)
    (fun i out =>
       rxBytes ← vec_get sinksRx i;
       st ← vec_get stats i;
       lam ← vec_get lambdas i;
       Some (out ++ [mkResultLine i (bool_decide (Z.of_nat i < nLegacy)) lam
                                  (thrMbps rxBytes measuredInterval)
                                  (avgQ st) st]))
    [].

(** ** The event queue of the simulator *)

(** Virtual time, in the resolution unit of the simulator (nanoseconds). *)
Definition Time : Type := N.

Definition MilliSeconds (n : N) : Time := (n * 1000000)%N.

(** The devices of the stations: [legacyDevs.Get(i)] and [heDevs.Get(j)]. *)
Inductive Device := LegacyDev (i : nat) | HeDev (j : nat).

#[global] Instance Device_eq_dec : EqDecision Device.
Proof. solve_decision. Defined.

(** What a scheduled event will call: a member function of the application
    of station [i], the queue probe of a station, or the end of the run. *)
Inductive Action :=
| ActStart (i : nat)
| ActStop (i : nat)
| ActSendOnce (i : nat)
| ActSampleQueue (dev : Device) (staIndex : nat)
| ActSimStop.

#[global] Instance Action_eq_dec : EqDecision Action.
Proof. solve_decision. Defined.

Record Event := mkEvent {
  ev_ts : Time;
  ev_uid : nat;
  ev_act : Action;
  ev_cancelled : bool
}.

(** An [EventId]; the default-constructed one refers to no event. *)
Definition EventId : Type := option nat.

(** Modelled from the spec: the event queue of the external simulator
    (its sources are not part of the repository). The spec asks of it a
    monotonic virtual clock with schedule and cancel of delayed callbacks,
    delivery in nondecreasing virtual-time order and, among events of the
    same virtual time, in scheduling order. [sim_events] is kept in delivery
    order. *)
Record Simulator := mkSimulator {
  sim_now : Time;
  sim_uid : nat;
  sim_events : list Event;
  sim_stopped : bool
}.

Definition Simulator_init : Simulator := mkSimulator 0%N 0%nat [] false.

Fixpoint insert_event (e : Event) (q : list Event) : list Event :=
  match q with
  | [] => [e]
  | x :: q' =>
      if (ev_ts x <=? ev_ts e)%N then x :: insert_event e q' else e :: x :: q'
  end.

(** [Simulator::Schedule(delay, action)]. *)
Definition Simulator_Schedule (delay : Time) (a : Action) (sim : Simulator)
  : EventId * Simulator :=
  let e := mkEvent (sim_now sim + delay)%N (sim_uid sim) a false in
  (Some (sim_uid sim),
   mkSimulator (sim_now sim) (S (sim_uid sim))
               (insert_event e (sim_events sim)) (sim_stopped sim)).

Definition cancel_event (uid : nat) (e : Event) : Event :=
  if bool_decide (ev_uid e = uid)
  then mkEvent (ev_ts e) (ev_uid e) (ev_act e) true else e.

(** [Simulator::Cancel(id)]. *)
Definition Simulator_Cancel (id : EventId) (sim : Simulator) : Simulator :=
  match id with
  | Some uid =>
      mkSimulator (sim_now sim) (sim_uid sim)
                  (cancel_event uid <$> sim_events sim) (sim_stopped sim)
  | None => sim
  end.

(** [id.IsPending()]: the event is still queued and was not cancelled. *)
Definition EventId_IsPending (id : EventId) (sim : Simulator) : bool :=
  match id with
  | Some uid =>
      existsb (fun e => bool_decide (ev_uid e = uid) && negb (ev_cancelled e))
              (sim_events sim)
  | None => false
  end.

(** [Simulator::Stop(delay)]. *)
Definition Simulator_Stop (delay : Time) (sim : Simulator) : Simulator :=
  snd (Simulator_Schedule delay ActSimStop sim).

(** ** Sockets and random variables (external objects, as far as the
       application uses them) *)

Definition Address : Type := Z.

Record Socket := mkSocket {
  sk_bound : bool;
  sk_peer : option Address;
  sk_closed : bool;
  sk_sent : list Z          (* sizes of the packets passed to [Send] *)
}.

Definition Socket_new : Socket := mkSocket false None false [].
Definition Socket_Bind (s : Socket) : Socket :=
  mkSocket true (sk_peer s) (sk_closed s) (sk_sent s).
Definition Socket_Connect (peer : Address) (s : Socket) : Socket :=
  mkSocket (sk_bound s) (Some peer) (sk_closed s) (sk_sent s).
Definition Socket_Send (size : Z) (s : Socket) : Socket :=
  mkSocket (sk_bound s) (sk_peer s) (sk_closed s) (sk_sent s ++ [size]).
Definition Socket_Close (s : Socket) : Socket :=
  mkSocket (sk_bound s) (sk_peer s) true (sk_sent s).

(** An [ExponentialRandomVariable]: its [Mean] attribute, its stream and
    the number of values drawn so far. *)
Record ExponentialRandomVariable := mkRng {
  rv_mean : double;
  rv_stream : nat;
  rv_drawn : nat
}.

(** [CreateObject<ExponentialRandomVariable>()] on stream [stream]; the
    default [Mean] is 1. *)
Definition Rng_new (stream : nat) : ExponentialRandomVariable :=
  mkRng (Double.of_Z 1) stream 0.

(** ** [PoissonUdpApp] *)

Record PoissonUdpApp := mkApp {
  m_socket : option Socket;     (* [Ptr<Socket>], [None] is null *)
  m_peer : Address;
  m_pktSize : Z;
  m_lambda : double;
  m_maxPackets : Z;
  m_sent : Z;
  m_running : bool;
  m_sendEvent : EventId;
  m_rng : option ExponentialRandomVariable
}.

(** The default member initialisers. *)
Definition PoissonUdpApp_new : PoissonUdpApp :=
  mkApp None 0 1200 (Double.of_Z 100) 0 0 false None None.

Definition set_running (b : bool) (a : PoissonUdpApp) : PoissonUdpApp :=
  mkApp (m_socket a) (m_peer a) (m_pktSize a) (m_lambda a) (m_maxPackets a)
        (m_sent a) b (m_sendEvent a) (m_rng a).
Definition set_socket (s : option Socket) (a : PoissonUdpApp) : PoissonUdpApp :=
  mkApp s (m_peer a) (m_pktSize a) (m_lambda a) (m_maxPackets a)
        (m_sent a) (m_running a) (m_sendEvent a) (m_rng a).
Definition set_sent (n : Z) (a : PoissonUdpApp) : PoissonUdpApp :=
  mkApp (m_socket a) (m_peer a) (m_pktSize a) (m_lambda a) (m_maxPackets a)
        n (m_running a) (m_sendEvent a) (m_rng a).
Definition set_sendEvent (id : EventId) (rng : ExponentialRandomVariable)
           (a : PoissonUdpApp) : PoissonUdpApp :=
  mkApp (m_socket a) (m_peer a) (m_pktSize a) (m_lambda a) (m_maxPackets a)
        (m_sent a) (m_running a) id (Some rng).

(** [Setup]; [rng] is the object [CreateObject] returns. Every member is
    assigned but [m_sendEvent], which keeps the value it has. *)
Definition Setup (socket : option Socket) (peer : Address) (pktSize : Z)
           (lambdaPktsPerSec : double) (maxPackets : Z)
           (rng : ExponentialRandomVariable) (a : PoissonUdpApp)
  : PoissonUdpApp :=
  mkApp socket peer pktSize lambdaPktsPerSec maxPackets 0 false
        (m_sendEvent a)
        (Some (if Double.ltb Double.zero lambdaPktsPerSec
               then mkRng (Double.div (Double.of_Z 1) lambdaPktsPerSec)
                          (rv_stream rng) (rv_drawn rng)
               else rng)).

Section Run.

(** [draw stream k]: the [k]-th value of random stream [stream], already
    converted to a [Time] by [Seconds]. Every result holds for every such
    function, so nothing depends on the distribution. *)
Variable draw : nat -> nat -> Time.

(** [probe dev now]: what the BE queue of the device reports at time
    [now] ([None]: no [Txop] or no queue). *)
Variable probe : Device -> Time -> option Z.

Definition Rng_GetValue (rng : ExponentialRandomVariable)
  : Time * ExponentialRandomVariable :=
  (draw (rv_stream rng) (rv_drawn rng),
   mkRng (rv_mean rng) (rv_stream rng) (S (rv_drawn rng))).

(** The member functions take [this], the station of the application,
    to build the callback of the events they schedule. A null pointer
    dereference is [None]. *)
Definition ScheduleNext (this : nat) (app : PoissonUdpApp) (sim : Simulator)
  : option (PoissonUdpApp * Simulator) :=
  if negb (m_running app) then Some (app, sim)
  else if Double.leb (m_lambda app) Double.zero then Some (app, sim)
  else
    rng ← m_rng app;
    let '(dt, rng') := Rng_GetValue rng in
    let '(id, sim') := Simulator_Schedule dt (ActSendOnce this) sim in
    Some (set_sendEvent id rng' app, sim').

Definition StartApplication (this : nat) (app : PoissonUdpApp)
           (sim : Simulator) : option (PoissonUdpApp * Simulator) :=
  let app := set_running true app in
  sock ← m_socket app;
  let app := set_socket (Some (Socket_Connect (m_peer app) (Socket_Bind sock)))
                        app in
  ScheduleNext this app sim.

Definition StopApplication (app : PoissonUdpApp) (sim : Simulator)
  : PoissonUdpApp * Simulator :=
  let app := set_running false app in
  let sim := if EventId_IsPending (m_sendEvent app) sim
             then Simulator_Cancel (m_sendEvent app) sim else sim in
  let app := match m_socket app with
             | Some sock => set_socket (Some (Socket_Close sock)) app
             | None => app
             end in
  (app, sim).

Definition SendOnce (this : nat) (app : PoissonUdpApp) (sim : Simulator)
  : option (PoissonUdpApp * Simulator) :=
  if negb (m_running app) then Some (app, sim)
  else if negb (m_maxPackets app =? 0) && (m_maxPackets app <=? m_sent app)
  then Some (app, sim)
  else
    sock ← m_socket app;
    let app := set_socket (Some (Socket_Send (m_pktSize app) sock)) app in
    let app := set_sent (wrap64 (m_sent app + 1)) app in
    ScheduleNext this app sim.

(** [SampleQueue]: one sample, then the next probe in 1 ms. *)
Definition SampleQueue (dev : Device) (staIndex : nat)
           (stats : list StaStats) (sim : Simulator)
  : option (list StaStats * Simulator) :=
  stats ← SampleQueue_stats staIndex stats (probe dev (sim_now sim));
  Some (stats,
        snd (Simulator_Schedule (MilliSeconds 1)
                                (ActSampleQueue dev staIndex) sim)).

(** *** Trace wiring *)

(** A bound callback: the handler and the station index it closes over. *)
Inductive Callback :=
| CbMacTxDataFailed (staIndex : nat)
| CbMacTxFinalDataFailed (staIndex : nat)
| CbPhyTxDrop (staIndex : nat)
| CbHePhyTxMonitor (staIndex : nat).

(** The trace sources main connects to, with the arguments the handlers
    read. *)
Inductive Notification :=
| MacTxDataFailed
| MacTxFinalDataFailed
| PhyTxDrop
| MonitorSnifferTx (p : PacketPtr) (pre : WifiPreamble).

(** [TraceConnectWithoutContext] on a device: the trace source is the one
    of the handler's signature. *)
Record Connection := mkConnection { cn_dev : Device; cn_cb : Callback }.

Definition device_eqb (a b : Device) : bool :=
  match a, b with
  | LegacyDev i, LegacyDev j => bool_decide (i = j)
  | HeDev i, HeDev j => bool_decide (i = j)
  | _, _ => false
  end.

(** Calls the callback when the notification is of its trace source. *)
Definition invoke (cb : Callback) (n : Notification) (stats : list StaStats)
  : option (list StaStats) :=
  match cb, n with
  | CbMacTxDataFailed i, MacTxDataFailed => OnMacTxDataFailed i stats
  | CbMacTxFinalDataFailed i, MacTxFinalDataFailed =>
      OnMacTxFinalDataFailed i stats
  | CbPhyTxDrop i, PhyTxDrop => OnPhyTxDrop i stats
  | CbHePhyTxMonitor i, MonitorSnifferTx p pre => OnHePhyTxMonitor i stats p pre
  | _, _ => Some stats
  end.

(** The device [dev] fires a trace source: every callback connected to it
    runs, in connection order. *)
Fixpoint fire (conns : list Connection) (dev : Device) (n : Notification)
         (stats : list StaStats) : option (list StaStats) :=
  match conns with
  | [] => Some stats
  | c :: conns' =>
      if device_eqb (cn_dev c) dev
      then stats ← invoke (cn_cb c) n stats; fire conns' dev n stats
      else fire conns' dev n stats
  end.

(** The loop "Hook per-device traces for each STA" of [main]. *)
Definition wire_station (nLegacy : Z) (i : nat)
           (s : list Connection * Simulator)
  : option (list Connection * Simulator) :=
  let '(conns, sim) := s in
  let dev := if bool_decide (Z.of_nat i < nLegacy)
             then LegacyDev i
             else HeDev (Z.to_nat (wrap32 (Z.of_nat i - nLegacy))) in
  let conns := conns ++ [mkConnection dev (CbMacTxDataFailed i);
                         mkConnection dev (CbMacTxFinalDataFailed i);
                         mkConnection dev (CbPhyTxDrop i)] in
  let conns := if bool_decide (nLegacy <= Z.of_nat i)
               then conns ++ [mkConnection dev (CbHePhyTxMonitor i)]
               else conns in
  Some (conns,
        snd (Simulator_Schedule (MilliSeconds 1) (ActSampleQueue dev i) sim)).

Definition wire (nLegacy nTotal : Z) (sim : Simulator)
  : option (list Connection * Simulator) :=
  for_range 0 (Z.to_nat nTotal) (wire_station nLegacy) ([], sim).

(** *** The running system *)

Record World := mkWorld {
  w_sim : Simulator;
  w_apps : list PoissonUdpApp;
  w_stats : list StaStats;
  w_conns : list Connection
}.

Definition exec (a : Action) (w : World) : option World :=
  match a with
  | ActStart i =>
      app ← w_apps w !! i;
      '(app', sim') ← StartApplication i app (w_sim w);
      Some (mkWorld sim' (<[i := app']> (w_apps w)) (w_stats w) (w_conns w))
  | ActStop i =>
      app ← w_apps w !! i;
      let '(app', sim') := StopApplication app (w_sim w) in
      Some (mkWorld sim' (<[i := app']> (w_apps w)) (w_stats w) (w_conns w))
  | ActSendOnce i =>
      app ← w_apps w !! i;
      '(app', sim') ← SendOnce i app (w_sim w);
      Some (mkWorld sim' (<[i := app']> (w_apps w)) (w_stats w) (w_conns w))
  | ActSampleQueue dev i =>
      '(stats', sim') ← SampleQueue dev i (w_stats w) (w_sim w);
      Some (mkWorld sim' (w_apps w) stats' (w_conns w))
  | ActSimStop =>
      Some (mkWorld (mkSimulator (sim_now (w_sim w)) (sim_uid (w_sim w))
                                 (sim_events (w_sim w)) true)
                    (w_apps w) (w_stats w) (w_conns w))
  end.

(** The action the simulator invokes next, if any: the head of the queue,
    unless it was cancelled or the run has been stopped. *)
Definition next_action (w : World) : option Action :=
  if sim_stopped (w_sim w) then None
  else match sim_events (w_sim w) with
       | e :: _ => if ev_cancelled e then None else Some (ev_act e)
       | [] => None
       end.

(** The world with the head event [e] removed and the clock at its
    time. *)
Definition popped (w : World) (e : Event) (q : list Event) : World :=
  mkWorld (mkSimulator (ev_ts e) (sim_uid (w_sim w)) q false)
          (w_apps w) (w_stats w) (w_conns w).

(** One iteration of [Simulator::Run]: the clock moves to the head event,
    which is removed and, unless cancelled, invoked. *)
Definition dispatch (w : World) : option World :=
  if sim_stopped (w_sim w) then None
  else match sim_events (w_sim w) with
       | [] => None
       | e :: q =>
           if ev_cancelled e then Some (popped w e q)
           else exec (ev_act e) (popped w e q)
       end.

(** What happens during a run: the simulator delivers its next event, or
    a device fires one of its trace sources. *)
Inductive Label :=
| LDispatch
| LFire (dev : Device) (n : Notification).

Definition step (l : Label) (w : World) : option World :=
  match l with
  | LDispatch => dispatch w
  | LFire dev n =>
      stats' ← fire (w_conns w) dev n (w_stats w);
      Some (mkWorld (w_sim w) (w_apps w) stats' (w_conns w))
  end.

Fixpoint run (ls : list Label) (w : World) : option World :=
  match ls with
  | [] => Some w
  | l :: ls' => match step l w with Some w' => run ls' w' | None => None end
  end.

(** *** Installing the applications and starting the run *)

(** The arguments of [Setup] and the start and stop times of one
    application. *)
Record AppConfig := mkAppConfig {
  ac_socket : option Socket;
  ac_peer : Address;
  ac_pktSize : Z;
  ac_lambda : double;
  ac_maxPackets : Z;
  ac_start : Time;
  ac_stop : Time
}.

Definition install_app (i : nat) (c : AppConfig) : PoissonUdpApp :=
  Setup (ac_socket c) (ac_peer c) (ac_pktSize c) (ac_lambda c)
        (ac_maxPackets c) (Rng_new i) PoissonUdpApp_new.

(** [Application::DoInitialize] of the base class: the start event, and
    the stop event unless the stop time is zero. *)
Fixpoint schedule_apps (i : nat) (cs : list AppConfig) (sim : Simulator)
  : Simulator :=
  match cs with
  | [] => sim
  | c :: cs' =>
      let sim := snd (Simulator_Schedule (ac_start c) (ActStart i) sim) in
      let sim := if (ac_stop c =? 0)%N then sim
                 else snd (Simulator_Schedule (ac_stop c) (ActStop i) sim) in
      schedule_apps (S i) cs' sim
  end.

(** The system when [Simulator::Run] is entered: one application and one
    counter record per station, the traces connected, the probes and the
    end of the run scheduled. *)
Definition boot (nLegacy : Z) (cs : list AppConfig) (simStop : Time)
  : option World :=
  '(conns, sim) ← wire nLegacy (Z.of_nat (length cs)) Simulator_init;
  let sim := Simulator_Stop simStop sim in
  let sim := schedule_apps 0 cs sim in
  Some (mkWorld sim (imap install_app cs)
                (replicate (length cs) StaStats_default) conns).

(** *** [main] up to [Simulator::Run] *)

(** [Seconds(x)]: the conversion of a [double] number of seconds to a
    [Time] of the simulator. *)
Variable Seconds : double -> Time.

(** The command-line values [main] reads. *)
Record Config := mkConfig {
  cfg_nLegacy : Z;
  cfg_mHe : Z;
  cfg_simTime : double;
  cfg_payloadSize : Z;
  cfg_lambdaList : string;
  cfg_lambdaLegacy : double;
  cfg_lambdaHe : double
}.

(** How [main] reaches [Simulator::Run]: an uncaught exception of the
    parser ends the process, an access outside a vector is undefined. *)
Inductive Startup :=
| Terminated (e : Stod.error)
| Undefined
| Running (w : World).

Definition basePort : Z := 40000.

Definition main_apps (cfg : Config) (lambdas : list double)
  : list AppConfig :=
  let appStart := Seconds (Double.of_Z 1) in
  let appStop := Seconds (Double.add (Double.of_Z 1) (cfg_simTime cfg)) in
  imap (fun i lam =>
          mkAppConfig (Some Socket_new) ((basePort + Z.of_nat i) mod 2 ^ 16)
                      (cfg_payloadSize cfg) lam 0 appStart appStop)
       lambdas.

Definition main_boot (cfg : Config) : Startup :=
  match ParseCsvDoubles (cfg_lambdaList cfg) with
  | inl e => Terminated e
  | inr parsed =>
      match LambdaAssignment (cfg_nLegacy cfg) (cfg_mHe cfg) parsed
                             (cfg_lambdaLegacy cfg) (cfg_lambdaHe cfg) with
      | None => Undefined
      | Some lambdas =>
          let appStop :=
            Seconds (Double.add (Double.of_Z 1) (cfg_simTime cfg)) in
          match boot (cfg_nLegacy cfg) (main_apps cfg lambdas)
                     (appStop + Seconds (Double.of_decimal 2 (-1)))%N with
          | Some w => Running w
          | None => Undefined
          end
      end
  end.

End Run.


(** ** Invariants of a run *)

(** Event identifiers are unique and below the next one to be issued. *)
Definition sim_wf (sim : Simulator) : Prop :=
  NoDup (ev_uid <$> sim_events sim)
  /\ forall e, e ∈ sim_events sim -> (ev_uid e < sim_uid sim)%nat.

(** A [SendOnce] of station [i] is queued and not cancelled. *)
Definition send_pending (i : nat) (q : list Event) : bool :=
  existsb (fun e => bool_decide (ev_act e = ActSendOnce i)
                    && negb (ev_cancelled e)) q.

(** The start of the application of station [i] is still queued. *)
Definition start_queued (i : nat) (q : list Event) : bool :=
  existsb (fun e => bool_decide (ev_act e = ActStart i)) q.

(** What ties an application to the events queued for it: a pending send is
    the one [m_sendEvent] refers to, and then the application is running
    with a positive rate and a socket; before its start the application is
    not running; it is started once; an application whose rate is not
    positive has sent nothing. *)
Record app_inv (q : list Event) (i : nat) (app : PoissonUdpApp) : Prop :=
  mk_app_inv {
    ai_send : forall e,
      e ∈ q -> ev_act e = ActSendOnce i -> ev_cancelled e = false ->
      m_sendEvent app = Some (ev_uid e)
      /\ m_running app = true
      /\ Double.leb (m_lambda app) Double.zero = false
      /\ is_Some (m_socket app);
    ai_start : forall e,
      e ∈ q -> ev_act e = ActStart i -> m_running app = false;
    ai_start_once : forall e1 e2,
      e1 ∈ q -> e2 ∈ q -> ev_act e1 = ActStart i -> ev_act e2 = ActStart i ->
      ev_uid e1 = ev_uid e2;
    ai_idle : Double.leb (m_lambda app) Double.zero = true -> m_sent app = 0;
    ai_rng : is_Some (m_rng app)
  }.

Definition world_inv (w : World) : Prop :=
  sim_wf (w_sim w)
  /\ forall i app, w_apps w !! i = Some app ->
                   app_inv (sim_events (w_sim w)) i app.

(** The queue while the run is being set up, when the applications of the
    stations below [n] have been scheduled: no send is queued yet, starts
    are queued for stations below [n] only, and at most one per station. *)
Definition startup_queue (n : nat) (sim : Simulator) : Prop :=
  sim_wf sim
  /\ (forall e k, e ∈ sim_events sim -> ev_act e <> ActSendOnce k)
  /\ (forall e k, e ∈ sim_events sim -> ev_act e = ActStart k -> (k < n)%nat)
  /\ (forall e1 e2 k, e1 ∈ sim_events sim -> e2 ∈ sim_events sim ->
                      ev_act e1 = ActStart k -> ev_act e2 = ActStart k ->
                      ev_uid e1 = ev_uid e2).

(** The fields no member function but [Setup] writes. *)
Definition same_setup (a b : PoissonUdpApp) : Prop :=
  m_lambda b = m_lambda a /\ m_pktSize b = m_pktSize a
  /\ m_maxPackets b = m_maxPackets a /\ m_peer b = m_peer a.

(** The send cap of [SendOnce]: set and reached. *)
Definition cap_reached (app : PoissonUdpApp) : bool :=
  negb (m_maxPackets app =? 0) && (m_maxPackets app <=? m_sent app).

(** The counters of the frame classification are all zero. *)
Definition he_counters_zero (st : StaStats) : Prop :=
  heSuTxMpdu st = 0 /\ heTbTxMpdu st = 0
  /\ heSuTxBytes st = 0 /\ heTbTxBytes st = 0.

(** The classification handler is connected for Scheduled-class stations
    only. *)
Definition monitor_only_he (nLegacy : Z) (conns : list Connection) : Prop :=
  forall c i, c ∈ conns -> cn_cb c = CbHePhyTxMonitor i -> nLegacy <= Z.of_nat i.


(** No Legacy-class station has a classified frame recorded. *)
Definition legacy_unclassified (nLegacy : Z) (stats : list StaStats) : Prop :=
  forall i st, Z.of_nat i < nLegacy -> stats !! i = Some st ->
               he_counters_zero st.

(** ** A small scenario *)

(** A station whose application starts at time 1 and stops at time 5,
    every inter-arrival delay being 2, for runs that end at time 7; and
    one that stops only at time 9. *)
Definition demo_draw (stream k : nat) : Time := 2%N.
Definition demo_probe (dev : Device) (now : Time) : option Z := Some 0.
Definition demo_station (lambda : double) (maxPackets : Z) : AppConfig :=
  mkAppConfig (Some Socket_new) 40000 1200 lambda maxPackets 1%N 5%N.
Definition demo_station_late (lambda : double) (maxPackets : Z) : AppConfig :=
  mkAppConfig (Some Socket_new) 40000 1200 lambda maxPackets 1%N 9%N.

(** A station whose stop time, 1, comes before its start time, 5. *)
Definition demo_station_early_stop (lambda : double) (maxPackets : Z)
  : AppConfig :=
  mkAppConfig (Some Socket_new) 40000 1200 lambda maxPackets 5%N 1%N.

(** ** Vocabulary of the further properties *)

(** The entries [ParseCsvDoubles] converts: the non-empty ones. *)
Definition nonempty_entries (s : string) : list string :=
  filter (fun item => item <> EmptyString) (entries s).

Fixpoint has_comma (s : string) : bool :=
  match s with
  | EmptyString => false
  | String c r => Ascii.eqb c "," || has_comma r
  end.

Fixpoint ends_with_comma (s : string) : bool :=
  match s with
  | EmptyString => false
  | String c EmptyString => Ascii.eqb c ","
  | String _ r => ends_with_comma r
  end.

(** The items written back with a comma between two of them. *)
Fixpoint join_comma (items : list string) : string :=
  match items with
  | [] => EmptyString
  | [item] => item
  | item :: rest => item +:+ String "," (join_comma rest)
  end.

(** What a callback does to the table on a notification: nothing, or one
    change of the record of its station. *)
Definition effect (cb : Callback) (n : Notification)
  : option (nat * (StaStats -> StaStats)) :=
  match cb, n with
  | CbMacTxDataFailed i, MacTxDataFailed =>
      Some (i, fun st => set_collisionsLike (wrap64 (collisionsLike st + 1)) st)
  | CbMacTxFinalDataFailed i, MacTxFinalDataFailed =>
      Some (i, fun st => set_finalFailures (wrap64 (finalFailures st + 1)) st)
  | CbPhyTxDrop i, PhyTxDrop =>
      Some (i, fun st => set_phyTxDrops (wrap64 (phyTxDrops st + 1)) st)
  | CbHePhyTxMonitor i, MonitorSnifferTx p WIFI_PREAMBLE_HE_TB =>
      Some (i, fun st =>
                 set_heTbTxBytes (wrap64 (heTbTxBytes st + packet_bytes p))
                   (set_heTbTxMpdu (wrap64 (heTbTxMpdu st + 1)) st))
  | CbHePhyTxMonitor i, MonitorSnifferTx p WIFI_PREAMBLE_HE_SU =>
      Some (i, fun st =>
                 set_heSuTxBytes (wrap64 (heSuTxBytes st + packet_bytes p))
                   (set_heSuTxMpdu (wrap64 (heSuTxMpdu st + 1)) st))
  | _, _ => None
  end.

Definition apply_effect (e : option (nat * (StaStats -> StaStats)))
           (stats : list StaStats) : option (list StaStats) :=
  match e with
  | None => Some stats
  | Some (i, f) =>
      if decide (i < length stats)%nat then Some (alter f i stats) else None
  end.

(** What the socket of an application has been handed: only packets of the
    configured size, as many as the sent-count says. *)
Definition socket_log_ok (app : PoissonUdpApp) : Prop :=
  exists sock,
    m_socket app = Some sock
    /\ Forall (fun size => size = m_pktSize app) (sk_sent sock)
    /\ m_sent app = wrap64 (Z.of_nat (length (sk_sent sock))).

(** [m_sendEvent] refers to an event the simulator has issued, and if that
    event is still queued it is a [SendOnce] of the application. *)
Definition tracked_ok (sim : Simulator) (i : nat) (app : PoissonUdpApp)
  : Prop :=
  forall u, m_sendEvent app = Some u ->
            (u < sim_uid sim)%nat
            /\ forall e, e ∈ sim_events sim -> ev_uid e = u ->
                         ev_act e = ActSendOnce i.

Definition track_inv (w : World) : Prop :=
  forall i app, w_apps w !! i = Some app -> tracked_ok (w_sim w) i app.

(** The device of station [i], as the wiring loop of [main] picks it. *)
Definition station_device (nLegacy : Z) (i : nat) : Device :=
  if bool_decide (Z.of_nat i < nLegacy)
  then LegacyDev i
  else HeDev (Z.to_nat (wrap32 (Z.of_nat i - nLegacy))).

(** The queue probe of each of the first [n] stations is queued. *)
Definition probes_queued (nLegacy : Z) (n : nat) (q : list Event) : Prop :=
  forall i, (i < n)%nat ->
            exists e, e ∈ q
                      /\ ev_act e = ActSampleQueue (station_device nLegacy i) i
                      /\ ev_cancelled e = false.

(** The connections the wiring loop makes for station [i]. *)
Definition station_conns (nLegacy : Z) (i : nat) : list Connection :=
  [mkConnection (station_device nLegacy i) (CbMacTxDataFailed i);
   mkConnection (station_device nLegacy i) (CbMacTxFinalDataFailed i);
   mkConnection (station_device nLegacy i) (CbPhyTxDrop i)]
  ++ (if bool_decide (nLegacy <= Z.of_nat i)
      then [mkConnection (station_device nLegacy i) (CbHePhyTxMonitor i)]
      else []).

(** The handler call a notification of station [i] amounts to. *)
Definition station_handler (nLegacy : Z) (i : nat) (n : Notification)
           (stats : list StaStats) : option (list StaStats) :=
  match n with
  | MacTxDataFailed => OnMacTxDataFailed i stats
  | MacTxFinalDataFailed => OnMacTxFinalDataFailed i stats
  | PhyTxDrop => OnPhyTxDrop i stats
  | MonitorSnifferTx p pre =>
      if bool_decide (nLegacy <= Z.of_nat i)
      then OnHePhyTxMonitor i stats p pre
      else Some stats
  end.

(** What the report can print for a number: whether it is a NaN, and its
    sign bit. *)
Definition is_nan (x : double) : bool :=
  match x with S754_nan => true | _ => false end.

Definition sign_bit (x : double) : bool :=
  match x with
  | S754_zero s | S754_infinity s | S754_finite s _ _ => s
  | S754_nan => false
  end.

(** * Properties *)

(** ** Machine integers and loops *)

Lemma wrap64_small z : is_u64 z -> wrap64 z = z.
Proof. unfold is_u64, wrap64. intros H. apply Z.mod_small. lia. Qed.

Lemma wrap32_small z : is_u32 z -> wrap32 z = z.
Proof. unfold is_u32, wrap32. intros H. apply Z.mod_small. lia. Qed.

Lemma wrap64_range z : is_u64 (wrap64 z).
Proof. unfold is_u64, wrap64. apply Z.mod_pos_bound. lia. Qed.

(** Loop rule: an invariant indexed by the loop counter. *)
Lemma for_range_inv {S} (P : nat -> S -> Prop) (body : nat -> S -> option S) :
  forall n lo s,
    P lo s ->
    (forall k t, (lo <= k < lo + n)%nat -> P k t ->
                 exists t', body k t = Some t' /\ P (Datatypes.S k) t') ->
    exists s', for_range lo n body s = Some s' /\ P (lo + n)%nat s'.
Proof.
  induction n as [|n IH]; intros lo s HP Hbody; simpl.
  - exists s. split; [reflexivity|]. by replace (lo + 0)%nat with lo by lia.
  - destruct (Hbody lo s) as (t' & Ht' & HP'); [lia|assumption|].
    rewrite Ht'.
    destruct (IH (Datatypes.S lo) t' HP') as (s' & Hs' & HPs').
    + intros k t Hk HPk. apply Hbody; [lia|assumption].
    + exists s'. split; [assumption|].
      by replace (lo + Datatypes.S n)%nat with (Datatypes.S lo + n)%nat by lia.
Qed.

Lemma vec_set_Some {A} (v : list A) i x :
  (i < length v)%nat -> vec_set v i x = Some (<[i := x]> v).
Proof. intros H. unfold vec_set. by rewrite decide_True. Qed.

(** ** Lambda assignment *)

Section ArrivalRateAssignerFacts.

Variables (nLegacy mHe : Z).
Variables (lambdaLegacy lambdaHe : double).

#[local] Abbreviation N := (Z.to_nat (nTotal nLegacy mHe)).

Lemma list_rate_is_Some parsed i : parsed <> [] -> is_Some (list_rate parsed i).
Proof.
  intros Hne. unfold list_rate. case_decide.
  - by apply lookup_lt_is_Some.
  - destruct parsed as [|x l]; [done|]. rewrite last_lookup.
    apply lookup_lt_is_Some. simpl. lia.
Qed.

Lemma LambdaAssignment_list parsed :
  parsed <> [] ->
  exists lambdas,
    LambdaAssignment nLegacy mHe parsed lambdaLegacy lambdaHe = Some lambdas
    /\ length lambdas = N
    /\ forall i, (i < N)%nat -> lambdas !! i = list_rate parsed i.
Proof.
  intros Hne. unfold LambdaAssignment.
  rewrite bool_decide_false by done. simpl.
  edestruct (for_range_inv
    (fun k (l : list double) =>
       length l = N /\ forall i, (i < k)%nat -> l !! i = list_rate parsed i))
    as (l & Hl & Hlen & Hval); [| |exists l; split; [exact Hl|]].
  - split; [apply length_replicate|]. intros i Hi. lia.
  - intros k t Hk [Hlen Hval].
    destruct (list_rate_is_Some parsed k Hne) as [x Hx].
    unfold list_rate, vec_get, vec_back in *. rewrite Hx. simpl.
    rewrite vec_set_Some by lia. eexists. split; [reflexivity|].
    split; [by rewrite length_insert|].
    intros i Hi. destruct (decide (i = k)) as [->|Hik].
    + rewrite list_lookup_insert_eq by lia. by rewrite Hx.
    + rewrite list_lookup_insert_ne by done. apply Hval. lia.
  - split; [done|]. intros i Hi. apply Hval. lia.
Qed.

Lemma LambdaAssignment_defaults :
  is_u32 nLegacy -> is_u32 mHe -> nLegacy + mHe < 2 ^ 32 ->
  exists lambdas,
    LambdaAssignment nLegacy mHe [] lambdaLegacy lambdaHe = Some lambdas
    /\ length lambdas = Z.to_nat (nLegacy + mHe)
    /\ (forall i, (Z.of_nat i < nLegacy) -> lambdas !! i = Some lambdaLegacy)
    /\ (forall i, nLegacy <= Z.of_nat i < nLegacy + mHe ->
                  lambdas !! i = Some lambdaHe).
Proof.
  intros HL HH Hsum. unfold is_u32 in *.
  assert (HN : nTotal nLegacy mHe = nLegacy + mHe).
  { unfold nTotal. apply wrap32_small. unfold is_u32. lia. }
  unfold LambdaAssignment. rewrite bool_decide_true by done. simpl.
  rewrite HN.
  edestruct (for_range_inv
    (fun k (l : list double) =>
       length l = Z.to_nat (nLegacy + mHe)
       /\ forall i, (i < k)%nat -> l !! i = Some lambdaLegacy)
    (fun i lambdas => vec_set lambdas i lambdaLegacy)
    (Z.to_nat nLegacy) 0%nat
    (replicate (Z.to_nat (nLegacy + mHe)) Double.zero))
    as (l1 & Hl1 & Hlen1 & Hval1).
  { split; [apply length_replicate|]. intros i Hi. lia. }
  { intros k t Hk [Hlen Hval]. rewrite vec_set_Some by lia.
    eexists. split; [reflexivity|]. split; [by rewrite length_insert|].
    intros i Hi. destruct (decide (i = k)) as [->|Hik].
    - by rewrite list_lookup_insert_eq by lia.
    - rewrite list_lookup_insert_ne by done. apply Hval. lia. }
  rewrite Hl1. simpl.
  edestruct (for_range_inv
    (fun k (l : list double) =>
       length l = Z.to_nat (nLegacy + mHe)
       /\ (forall i, (i < Z.to_nat nLegacy)%nat -> l !! i = Some lambdaLegacy)
       /\ forall i, (Z.to_nat nLegacy <= i < Z.to_nat nLegacy + k)%nat ->
                    l !! i = Some lambdaHe)
    (fun j lambdas =>
       vec_set lambdas (Z.to_nat (wrap32 (nLegacy + Z.of_nat j))) lambdaHe)
    (Z.to_nat mHe) 0%nat l1)
    as (l2 & Hl2 & Hlen2 & Hleg2 & Hhe2).
  { split; [done|]. split; [exact Hval1|]. intros i Hi. lia. }
  { intros k t Hk (Hlen & Hleg & Hhe).
    rewrite wrap32_small by (unfold is_u32; lia).
    replace (Z.to_nat (nLegacy + Z.of_nat k))
      with (Z.to_nat nLegacy + k)%nat by lia.
    rewrite vec_set_Some by lia.
    eexists. split; [reflexivity|]. split; [by rewrite length_insert|]. split.
    - intros i Hi. rewrite list_lookup_insert_ne by lia. by apply Hleg.
    - intros i Hi. destruct (decide (i = Z.to_nat nLegacy + k)%nat) as [->|Hik].
      + by rewrite list_lookup_insert_eq by lia.
      + rewrite list_lookup_insert_ne by done. apply Hhe. lia. }
  exists l2. split; [exact Hl2|]. split; [done|]. split.
  - intros i Hi. apply Hleg2. lia.
  - intros i Hi. apply Hhe2. lia.
Qed.

End ArrivalRateAssignerFacts.

(** C4. With an explicit, non-empty rate list, station [i] of the [N]
    stations gets the [i]-th element of the list when there is one and the
    last element otherwise; the list [50, 80] with [nLegacy = 1] and
    [mHe = 3] gives [50, 80, 80, 80]. *)
Theorem explicit_list_last_value_extension
        (nLegacy mHe : Z) (parsed : list double)
        (lambdaLegacy lambdaHe : double) :
  parsed <> [] ->
  (exists lambdas,
      LambdaAssignment nLegacy mHe parsed lambdaLegacy lambdaHe = Some lambdas
      /\ length lambdas = Z.to_nat (nTotal nLegacy mHe)
      /\ forall i, (i < Z.to_nat (nTotal nLegacy mHe))%nat ->
                   lambdas !! i =
                   (if decide (i < length parsed)%nat
                    then parsed !! i else last parsed)
                   /\ is_Some (lambdas !! i))
  /\ LambdaAssignment 1 3 [Double.of_Z 50; Double.of_Z 80]
                      lambdaLegacy lambdaHe
     = Some [Double.of_Z 50; Double.of_Z 80; Double.of_Z 80; Double.of_Z 80].
Proof.
  intros Hne. split; [|reflexivity].
  destruct (LambdaAssignment_list nLegacy mHe lambdaLegacy lambdaHe parsed Hne)
    as (l & Hl & Hlen & Hval).
  exists l. split; [exact Hl|]. split; [exact Hlen|].
  intros i Hi. split; [by apply Hval|].
  apply lookup_lt_is_Some. lia.
Qed.

Lemma explicit_list_last_value_extension_witness :
  [Double.of_Z 50; Double.of_Z 80] <> []
  /\ exists lambdas,
      LambdaAssignment 1 3 [Double.of_Z 50; Double.of_Z 80]
                       Double.zero Double.zero = Some lambdas
      /\ lambdas !! 3%nat = Some (Double.of_Z 80).
Proof.
  split; [discriminate|].
  destruct (explicit_list_last_value_extension
              1 3 [Double.of_Z 50; Double.of_Z 80] Double.zero Double.zero)
    as [(l & Hl & _ & Hval) _]; [discriminate|].
  exists l. split; [exact Hl|].
  destruct (Hval 3%nat) as [H3 _]; [vm_compute; lia|]. exact H3.
Defined.

(** The same vector from the command-line text ["50,80"]. *)
Example explicit_list_from_text :
  ParseCsvDoubles "50,80" = inr [Double.of_Z 50; Double.of_Z 80].
Proof. reflexivity. Qed.

(** C5. Without a rate list, the stations [0 .. nLegacy-1] get the Legacy
    default and the stations [nLegacy .. N-1] the Scheduled default, where
    [N = nLegacy + mHe] is a 32-bit station count; [nLegacy = 2],
    [mHe = 1] and the defaults [100] and [200] give [100, 100, 200]. *)
Theorem default_rates_by_class
        (nLegacy mHe : Z) (lambdaLegacy lambdaHe : double) :
  is_u32 nLegacy -> is_u32 mHe -> nLegacy + mHe < 2 ^ 32 ->
  (exists lambdas,
      LambdaAssignment nLegacy mHe [] lambdaLegacy lambdaHe = Some lambdas
      /\ length lambdas = Z.to_nat (nLegacy + mHe)
      /\ (forall i, Z.of_nat i < nLegacy -> lambdas !! i = Some lambdaLegacy)
      /\ (forall i, nLegacy <= Z.of_nat i < nLegacy + mHe ->
                    lambdas !! i = Some lambdaHe))
  /\ LambdaAssignment 2 1 [] (Double.of_Z 100) (Double.of_Z 200)
     = Some [Double.of_Z 100; Double.of_Z 100; Double.of_Z 200].
Proof.
  intros HL HH Hsum. split; [|reflexivity].
  by apply LambdaAssignment_defaults.
Qed.

Lemma default_rates_by_class_witness :
  exists lambdas,
    LambdaAssignment 2 1 [] (Double.of_Z 100) (Double.of_Z 200) = Some lambdas
    /\ lambdas !! 1%nat = Some (Double.of_Z 100)
    /\ lambdas !! 2%nat = Some (Double.of_Z 200).
Proof.
  destruct (default_rates_by_class 2 1 (Double.of_Z 100) (Double.of_Z 200))
    as [(l & Hl & _ & Hleg & Hhe) _]; [unfold is_u32; lia ..|].
  exists l. split; [exact Hl|]. split; [apply Hleg|apply Hhe]; simpl; lia.
Defined.

(** ** Counter table *)

Lemma update_sta_Some stats i st f :
  stats !! i = Some st -> update_sta stats i f = Some (<[i := f st]> stats).
Proof.
  intros H. unfold update_sta, vec_get. rewrite H. simpl.
  apply vec_set_Some. by eapply lookup_lt_Some.
Qed.

Lemma update_sta_is_Some stats i f :
  (i < length stats)%nat ->
  exists st, stats !! i = Some st
             /\ update_sta stats i f = Some (<[i := f st]> stats).
Proof.
  intros H. destruct (lookup_lt_is_Some_2 stats i H) as [st Hst].
  exists st. split; [done|]. by apply update_sta_Some.
Qed.

(** Solves the "which counters moved" part of a handler's frame. *)
Ltac frame_fields :=
  let g := fresh "g" in
  intros g; destruct g; simpl; try reflexivity.

Lemma counters_added_one stats i st (f : Field) (d : Z) (upd : StaStats -> StaStats) :
  stats !! i = Some st ->
  get_field f (upd st) = wrap64 (get_field f st + d) ->
  (forall g, g <> f -> get_field g (upd st) = get_field g st) ->
  counters_added [(f, d)] i stats (<[i := upd st]> stats).
Proof.
  intros Hst Hf Hg. unfold counters_added.
  split; [by rewrite length_insert|].
  split; [intros j Hj; by rewrite list_lookup_insert_ne|].
  exists st, (upd st). split; [done|].
  split; [apply list_lookup_insert_eq; by eapply lookup_lt_Some|].
  intros g. simpl. case_decide; [by subst|]. apply Hg. congruence.
Qed.

(** C9. Each of the three failure handlers, called for a station of the
    table, adds 1 to its own counter of that station (contention failures,
    final failures, physical drops; a 64-bit unsigned increment), keeps the
    other counters of the record, keeps the other records, succeeds, and
    keeps the size of the table. *)
Theorem failure_handlers_frame (stats : list StaStats) (i : nat) :
  (i < length stats)%nat ->
  (exists stats', OnMacTxDataFailed i stats = Some stats'
                  /\ counters_added [(FcollisionsLike, 1)] i stats stats')
  /\ (exists stats', OnMacTxFinalDataFailed i stats = Some stats'
                     /\ counters_added [(FfinalFailures, 1)] i stats stats')
  /\ (exists stats', OnPhyTxDrop i stats = Some stats'
                     /\ counters_added [(FphyTxDrops, 1)] i stats stats').
Proof.
  intros Hi. destruct (lookup_lt_is_Some_2 stats i Hi) as [st Hst].
  unfold OnMacTxDataFailed, OnMacTxFinalDataFailed, OnPhyTxDrop.
  repeat split; (eexists; split; [by apply update_sta_Some|]);
    (apply counters_added_one; [done|reflexivity|]);
    intros g Hg; by destruct g.
Qed.

Lemma failure_handlers_frame_witness :
  exists stats',
    OnPhyTxDrop 1 [StaStats_default; StaStats_default] = Some stats'
    /\ counters_added [(FphyTxDrops, 1)] 1
                      [StaStats_default; StaStats_default] stats'.
Proof.
  destruct (failure_handlers_frame [StaStats_default; StaStats_default] 1)
    as (_ & _ & H); [simpl; lia|exact H].
Defined.

(** When the sum is representable, the 64-bit addition is the addition. *)
Lemma counters_added_exact ds i stats stats' st g d :
  counters_added ds i stats stats' ->
  stats !! i = Some st -> field_delta ds g = Some d ->
  is_u64 (get_field g st + d) ->
  exists st', stats' !! i = Some st' /\ get_field g st' = get_field g st + d.
Proof.
  intros (_ & _ & st0 & st' & Hst0 & Hst' & Hall) Hst Hd Hu.
  exists st'. split; [done|]. specialize (Hall g). rewrite Hd in Hall.
  assert (st0 = st) by congruence. subst st0.
  by rewrite Hall, wrap64_small.
Qed.

(** C7. [OnHePhyTxMonitor] for a station of the table: with the trigger-based
    (scheduled, multi-user uplink) preamble it adds 1 to the scheduled-frame
    count and the size of the frame to the scheduled-frame bytes; with the
    single-user preamble it does the same to the single-user count and
    bytes; with any other preamble the table is unchanged. In the first two
    cases nothing else changes. *)
Theorem frame_classification (stats : list StaStats) (i : nat)
        (p : PacketPtr) (pre : WifiPreamble) :
  (i < length stats)%nat ->
  exists stats',
    OnHePhyTxMonitor i stats p pre = Some stats'
    /\ match pre with
       | WIFI_PREAMBLE_HE_TB =>
           counters_added [(FheTbTxMpdu, 1); (FheTbTxBytes, packet_bytes p)]
                          i stats stats'
       | WIFI_PREAMBLE_HE_SU =>
           counters_added [(FheSuTxMpdu, 1); (FheSuTxBytes, packet_bytes p)]
                          i stats stats'
       | _ => stats' = stats
       end.
Proof.
  intros Hi. destruct (lookup_lt_is_Some_2 stats i Hi) as [st Hst].
  unfold OnHePhyTxMonitor.
  destruct pre; try (eexists; split; reflexivity).
  - rewrite (update_sta_Some _ _ _ _ Hst). simpl.
    erewrite update_sta_Some
      by (apply list_lookup_insert_eq; by eapply lookup_lt_Some).
    eexists. split; [reflexivity|]. rewrite list_insert_insert_eq.
    unfold counters_added. split; [by rewrite length_insert|].
    split; [intros j Hj; by rewrite list_lookup_insert_ne|].
    eexists _, _. split; [done|].
    split; [apply list_lookup_insert_eq; by eapply lookup_lt_Some|].
    frame_fields.
  - rewrite (update_sta_Some _ _ _ _ Hst). simpl.
    erewrite update_sta_Some
      by (apply list_lookup_insert_eq; by eapply lookup_lt_Some).
    eexists. split; [reflexivity|]. rewrite list_insert_insert_eq.
    unfold counters_added. split; [by rewrite length_insert|].
    split; [intros j Hj; by rewrite list_lookup_insert_ne|].
    eexists _, _. split; [done|].
    split; [apply list_lookup_insert_eq; by eapply lookup_lt_Some|].
    frame_fields.
Qed.

Lemma frame_classification_witness :
  exists stats',
    OnHePhyTxMonitor 0 [StaStats_default] (Some 1200) WIFI_PREAMBLE_HE_TB
    = Some stats'
    /\ counters_added [(FheTbTxMpdu, 1); (FheTbTxBytes, 1200)]
                      0 [StaStats_default] stats'.
Proof.
  destruct (frame_classification [StaStats_default] 0 (Some 1200)
                                 WIFI_PREAMBLE_HE_TB) as (s' & Hs' & H);
    [simpl; lia|].
  exists s'. split; [exact Hs'|exact H].
Defined.

Example frame_classification_values :
  OnHePhyTxMonitor 0 [StaStats_default] (Some 1200) WIFI_PREAMBLE_HE_TB
  = Some [mkStaStats 0 0 0 0 0 0 1 0 1200]
  /\ OnHePhyTxMonitor 0 [StaStats_default] (Some 1200) WIFI_PREAMBLE_HE_SU
     = Some [mkStaStats 0 0 0 0 0 1 0 1200 0]
  /\ OnHePhyTxMonitor 0 [StaStats_default] (Some 1200) WIFI_PREAMBLE_HE_MU
     = Some [StaStats_default].
Proof. repeat split. Qed.

(** ** Parsing the rate list *)

Lemma stod_no_prefix item :
  has_numeric_prefix item = false -> Stod.stod item = inl Stod.invalid_argument.
Proof.
  unfold has_numeric_prefix, Stod.stod.
  destruct (Stod.strtod item) as [[[v e] r]|]; [discriminate|reflexivity].
Qed.

Lemma parse_items_fails items :
  forall out item,
    item ∈ items -> item <> EmptyString -> has_numeric_prefix item = false ->
    exists e, parse_items items out = inl e.
Proof.
  induction items as [|x items IH]; intros out item Hin Hne Hnum.
  - by apply elem_of_nil in Hin.
  - apply elem_of_cons in Hin as [<-|Hin].
    + simpl. destruct item as [|c r]; [done|].
      rewrite (stod_no_prefix _ Hnum). by eexists.
    + simpl. destruct x as [|c r]; [by eapply IH|].
      destruct (Stod.stod (String c r)) as [e|v]; [by eexists|by eapply IH].
Qed.

Lemma entries_nonempty s item : item ∈ entries s -> s <> EmptyString.
Proof. intros Hin ->. by apply elem_of_nil in Hin. Qed.

(** The entry ["80x"] is not a number, but [std::stod] converts its prefix
    ["80"] and ignores the rest. *)
Example trailing_text_ignored :
  ("80x" ∈ entries "50,80x" /\ numeric_entry "80x" = false)
  /\ ParseCsvDoubles "50,80x" = inr [Double.of_Z 50; Double.of_Z 80].
Proof.
  split; [split|]; [|reflexivity|reflexivity].
  unfold entries. simpl. apply list_elem_of_In. simpl. auto.
Qed.

(** Not every entry that starts with a number is converted: the prefix
    can be out of range, as a value too large for a [double] or a value
    whose result is subnormal and not exact. *)
Example numeric_prefix_out_of_range :
  ParseCsvDoubles "50,1e999x" = inl Stod.out_of_range
  /\ ParseCsvDoubles "1e-310" = inl Stod.out_of_range
  /\ ParseCsvDoubles "0x1p-1074" = inr [S754_finite false 1 (-1074)].
Proof. by vm_compute. Qed.

(** C6, as stated, fails: not every rate list with a non-numeric entry is
    rejected; ["50,80x"] is parsed to [50, 80]. *)
Lemma non_numeric_entry_accepted :
  ~ (forall s : string,
        (exists item, item ∈ entries s /\ numeric_entry item = false) ->
        exists e, ParseCsvDoubles s = inl e).
Proof.
  intros H. destruct (H "50,80x") as [e He].
  - exists "80x". apply trailing_text_ignored.
  - discriminate He.
Qed.

(** C6, amended. When some non-empty entry of the rate list has no numeric
    prefix, [ParseCsvDoubles] throws, and [main] ends with that exception
    before any rate vector is built. *)
Theorem entry_without_number_aborts
        (Seconds : double -> Time) (cfg : Config) (item : string) :
  item ∈ entries (cfg_lambdaList cfg) ->
  item <> EmptyString ->
  has_numeric_prefix item = false ->
  exists e, ParseCsvDoubles (cfg_lambdaList cfg) = inl e
            /\ main_boot Seconds cfg = Terminated e.
Proof.
  intros Hin Hne Hnum.
  assert (Hs := entries_nonempty _ _ Hin).
  destruct (parse_items_fails _ [] _ Hin Hne Hnum) as [e He].
  exists e. unfold main_boot, ParseCsvDoubles.
  destruct (cfg_lambdaList cfg) as [|c r]; [done|].
  unfold entries in He. by rewrite He.
Qed.

Lemma entry_without_number_aborts_witness :
  exists e,
    ParseCsvDoubles "50,abc" = inl e
    /\ main_boot (fun _ => 0%N)
                 (mkConfig 1 1 (Double.of_Z 10) 1200 "50,abc"
                           (Double.of_Z 100) (Double.of_Z 100))
       = Terminated e.
Proof.
  apply (entry_without_number_aborts (fun _ => 0%N)
           (mkConfig 1 1 (Double.of_Z 10) 1200 "50,abc"
                     (Double.of_Z 100) (Double.of_Z 100)) "abc").
  - unfold entries. simpl. apply list_elem_of_In. simpl. auto.
  - discriminate.
  - reflexivity.
Defined.

(** ** The event queue *)

Lemma insert_event_perm e q : insert_event e q ≡ₚ e :: q.
Proof.
  induction q as [|x q IH]; simpl; [done|].
  destruct (ev_ts x <=? ev_ts e)%N; [|done].
  rewrite IH. apply Permutation_swap.
Qed.

Lemma elem_of_insert_event e' e q :
  e' ∈ insert_event e q <-> e' = e \/ e' ∈ q.
Proof. by rewrite insert_event_perm, elem_of_cons. Qed.

Lemma cancel_event_uid u e : ev_uid (cancel_event u e) = ev_uid e.
Proof. unfold cancel_event. by case_bool_decide. Qed.

Lemma cancel_event_act u e : ev_act (cancel_event u e) = ev_act e.
Proof. unfold cancel_event. by case_bool_decide. Qed.

Lemma cancel_event_live u e :
  ev_cancelled (cancel_event u e) = false ->
  ev_cancelled e = false /\ ev_uid e <> u.
Proof. unfold cancel_event. case_bool_decide; simpl; [discriminate|done]. Qed.

Lemma sim_wf_schedule d a sim :
  sim_wf sim -> sim_wf (Simulator_Schedule d a sim).2.
Proof.
  intros [Hnd Hlt]. split; simpl.
  - rewrite insert_event_perm. simpl. apply NoDup_cons. split; [|done].
    intros (e & Hu & He)%list_elem_of_fmap. apply Hlt in He. simpl in *. lia.
  - intros e [->|He]%elem_of_insert_event; simpl; [lia|].
    apply Hlt in He. lia.
Qed.

Lemma sim_wf_cancel id sim : sim_wf sim -> sim_wf (Simulator_Cancel id sim).
Proof.
  intros [Hnd Hlt]. destruct id as [u|]; [|done]. split; simpl.
  - rewrite <- list_fmap_compose.
    erewrite list_fmap_ext; [exact Hnd|]. intros ? e _. simpl.
    apply cancel_event_uid.
  - intros e' (e & -> & He)%list_elem_of_fmap. rewrite cancel_event_uid.
    by apply Hlt.
Qed.

Lemma sim_wf_pop now now' uid e q st st' :
  sim_wf (mkSimulator now uid (e :: q) st) ->
  sim_wf (mkSimulator now' uid q st')
  /\ forall e', e' ∈ q -> ev_uid e' <> ev_uid e.
Proof.
  intros [Hnd Hlt]. simpl in *. apply NoDup_cons in Hnd as [Hnin Hnd].
  split; [split; simpl; [done|]|].
  - intros e' He'. apply Hlt. by right.
  - intros e' He' Heq. apply Hnin. rewrite <- Heq.
    apply list_elem_of_fmap. by exists e'.
Qed.

Lemma send_pending_false i q :
  send_pending i q = false <->
  forall e, e ∈ q -> ev_act e = ActSendOnce i -> ev_cancelled e = true.
Proof.
  unfold send_pending. split.
  - intros H e He Hact. destruct (ev_cancelled e) eqn:Hc; [done|].
    assert (existsb (fun e => bool_decide (ev_act e = ActSendOnce i)
                              && negb (ev_cancelled e)) q = true) as Ht.
    { apply existsb_exists. exists e. split; [by apply list_elem_of_In|].
      rewrite Hc. by rewrite bool_decide_true. }
    congruence.
  - intros H. apply not_true_is_false. intros (e & He & Hp)%existsb_exists.
    apply list_elem_of_In in He. apply andb_prop in Hp as [Ha Hc].
    apply bool_decide_eq_true in Ha. rewrite (H e He Ha) in Hc. done.
Qed.

Lemma start_queued_false i q :
  start_queued i q = false <-> forall e, e ∈ q -> ev_act e <> ActStart i.
Proof.
  unfold start_queued. split.
  - intros H e He Hact.
    assert (existsb (fun e => bool_decide (ev_act e = ActStart i)) q = true)
      as Ht.
    { apply existsb_exists. exists e. split; [by apply list_elem_of_In|].
      by rewrite bool_decide_true. }
    congruence.
  - intros H. apply not_true_is_false. intros (e & He & Hp)%existsb_exists.
    apply list_elem_of_In in He. apply bool_decide_eq_true in Hp.
    by eapply H.
Qed.

Lemma IsPending_false u sim e :
  EventId_IsPending (Some u) sim = false ->
  e ∈ sim_events sim -> ev_uid e = u -> ev_cancelled e = true.
Proof.
  simpl. intros H He Hu. destruct (ev_cancelled e) eqn:Hc; [done|].
  assert (existsb (fun e => bool_decide (ev_uid e = u) && negb (ev_cancelled e))
                  (sim_events sim) = true) as Ht.
  { apply existsb_exists. exists e. split; [by apply list_elem_of_In|].
    rewrite Hc. by rewrite bool_decide_true. }
  congruence.
Qed.

(** ** How [app_inv] follows the queue *)

Lemma app_inv_subset q q' j app :
  (forall e, e ∈ q' -> e ∈ q) -> app_inv q j app -> app_inv q' j app.
Proof.
  intros Hsub [Hs Hst Ho Hi Hr]. constructor; eauto.
Qed.

Lemma app_inv_insert e q j app :
  ev_act e <> ActSendOnce j -> ev_act e <> ActStart j ->
  app_inv q j app -> app_inv (insert_event e q) j app.
Proof.
  intros Hns Hnt [Hs Hst Ho Hi Hr]. constructor; [| | |done|done].
  - intros e' [->|He']%elem_of_insert_event; [done|eauto].
  - intros e' [->|He']%elem_of_insert_event; [done|eauto].
  - intros e1 e2 [->|H1]%elem_of_insert_event [->|H2]%elem_of_insert_event;
      try done. eauto.
Qed.

Lemma app_inv_cancel u q j app :
  app_inv q j app -> app_inv (cancel_event u <$> q) j app.
Proof.
  intros [Hs Hst Ho Hi Hr]. constructor; [| | |done|done].
  - intros e' (e & -> & He)%list_elem_of_fmap Ha Hc.
    rewrite cancel_event_act in Ha. apply cancel_event_live in Hc as [Hc _].
    rewrite cancel_event_uid. eauto.
  - intros e' (e & -> & He)%list_elem_of_fmap Ha.
    rewrite cancel_event_act in Ha. eauto.
  - intros e1' e2' (e1 & -> & H1)%list_elem_of_fmap
           (e2 & -> & H2)%list_elem_of_fmap Ha1 Ha2.
    rewrite cancel_event_act in Ha1, Ha2. rewrite !cancel_event_uid. eauto.
Qed.

(** An application with nothing pending and no start queued satisfies the
    invariant whatever its running flag. *)
Lemma app_inv_quiet q i app :
  send_pending i q = false -> start_queued i q = false ->
  (Double.leb (m_lambda app) Double.zero = true -> m_sent app = 0) ->
  is_Some (m_rng app) ->
  app_inv q i app.
Proof.
  intros Hp Hs Hi Hr.
  pose proof (proj1 (send_pending_false i q) Hp) as Hp'.
  pose proof (proj1 (start_queued_false i q) Hs) as Hs'.
  clear Hp Hs. rename Hp' into Hp, Hs' into Hs.
  constructor; [| | |done|done].
  - intros e He Ha Hc. rewrite (Hp e He Ha) in Hc. done.
  - intros e He Ha. by destruct (Hs e He).
  - intros e1 e2 He1 _ Ha1. by destruct (Hs e1 He1).
Qed.

(** ** The member functions of [PoissonUdpApp] *)

Section RunFacts.

Variable draw : nat -> nat -> Time.
Variable probe : Device -> Time -> option Z.

Lemma ScheduleNext_idle this app sim :
  m_running app = false \/ Double.leb (m_lambda app) Double.zero = true ->
  ScheduleNext draw this app sim = Some (app, sim).
Proof.
  unfold ScheduleNext. intros [H|H]; rewrite H; simpl; [done|].
  by destruct (m_running app).
Qed.

Lemma ScheduleNext_active this app sim rng :
  m_running app = true ->
  Double.leb (m_lambda app) Double.zero = false ->
  m_rng app = Some rng ->
  ScheduleNext draw this app sim
  = Some (set_sendEvent (Some (sim_uid sim))
                        (mkRng (rv_mean rng) (rv_stream rng)
                               (S (rv_drawn rng))) app,
          (Simulator_Schedule (draw (rv_stream rng) (rv_drawn rng))
                              (ActSendOnce this) sim).2).
Proof.
  intros Hr Hl Hg. unfold ScheduleNext. rewrite Hr, Hl, Hg. reflexivity.
Qed.

(** [ScheduleNext] on an application that has nothing queued. *)
Lemma ScheduleNext_inv this app sim app' sim' :
  ScheduleNext draw this app sim = Some (app', sim') ->
  sim_wf sim ->
  send_pending this (sim_events sim) = false ->
  start_queued this (sim_events sim) = false ->
  (Double.leb (m_lambda app) Double.zero = true -> m_sent app = 0) ->
  is_Some (m_rng app) ->
  (m_running app = true -> is_Some (m_socket app)) ->
  sim_wf sim'
  /\ app_inv (sim_events sim') this app'
  /\ (forall j appj, j <> this -> app_inv (sim_events sim) j appj ->
                     app_inv (sim_events sim') j appj)
  /\ m_sent app' = m_sent app /\ m_running app' = m_running app
  /\ m_lambda app' = m_lambda app /\ m_socket app' = m_socket app
  /\ m_pktSize app' = m_pktSize app /\ m_maxPackets app' = m_maxPackets app
  /\ (forall e, e ∈ sim_events sim' -> ev_act e = ActStart this -> False).
Proof.
  intros HS Hwf Hp Hq Hi [rng Hrng] Hsock.
  pose proof (proj1 (send_pending_false _ _) Hp) as Hp'.
  pose proof (proj1 (start_queued_false _ _) Hq) as Hq'.
  assert (Hquiet : app_inv (sim_events sim) this app)
    by (apply app_inv_quiet; eauto).
  destruct (decide (m_running app = true
                    /\ Double.leb (m_lambda app) Double.zero = false))
    as [[Hr Hl]|Hidle].
  - rewrite (ScheduleNext_active _ _ _ rng) in HS by done.
    injection HS as <- <-. split; [by apply sim_wf_schedule|].
    split; [|split; [|split_and!; try done]].
    + constructor; simpl; [| | |by rewrite Hl|done].
      * intros e [->|He]%elem_of_insert_event Ha Hc; simpl.
        -- split_and!; try done. by apply Hsock.
        -- rewrite (Hp' e He Ha) in Hc. done.
      * intros e [->|He]%elem_of_insert_event Ha; [done|].
        by destruct (Hq' e He).
      * intros e1 e2 [->|H1]%elem_of_insert_event _ Ha1; [done|].
        by destruct (Hq' e1 H1).
    + intros j appj Hj Hinv. simpl. apply app_inv_insert; simpl;
        [congruence|congruence|done].
    + simpl. intros e [->|He]%elem_of_insert_event Ha; [done|].
      by destruct (Hq' e He).
  - rewrite ScheduleNext_idle in HS.
    + injection HS as <- <-. split_and!; try done.
      all: intros e He Ha; by destruct (Hq' e He).
    + destruct (m_running app); [|by left].
      destruct (Double.leb (m_lambda app) Double.zero); [by right|].
      destruct Hidle. done.
Qed.

(** [StopApplication] leaves no send pending. *)
Lemma StopApplication_inv i app sim app' sim' :
  StopApplication app sim = (app', sim') ->
  sim_wf sim -> app_inv (sim_events sim) i app ->
  sim_wf sim'
  /\ app_inv (sim_events sim') i app'
  /\ send_pending i (sim_events sim') = false
  /\ (forall j appj, app_inv (sim_events sim) j appj ->
                     app_inv (sim_events sim') j appj)
  /\ m_sent app' = m_sent app /\ m_running app' = false
  /\ m_lambda app' = m_lambda app
  /\ m_pktSize app' = m_pktSize app /\ m_maxPackets app' = m_maxPackets app
  /\ (forall e', e' ∈ sim_events sim' ->
                 exists e, e ∈ sim_events sim /\ ev_act e = ev_act e').
Proof.
  unfold StopApplication. intros HS Hwf Hinv.
  injection HS as <- <-. simpl.
  set (sim1 := if EventId_IsPending (m_sendEvent app) sim
               then Simulator_Cancel (m_sendEvent app) sim else sim).
  assert (Hwf1 : sim_wf sim1).
  { unfold sim1. destruct (EventId_IsPending _ _); [|done].
    by apply sim_wf_cancel. }
  assert (Hmono : forall j appj, app_inv (sim_events sim) j appj ->
                                 app_inv (sim_events sim1) j appj).
  { intros j appj Hj. unfold sim1.
    destruct (EventId_IsPending _ _); [|done].
    destruct (m_sendEvent app) as [u|]; [|done]. by apply app_inv_cancel. }
  assert (Hquiet : send_pending i (sim_events sim1) = false).
  { apply send_pending_false. intros e' He' Ha.
    destruct (ev_cancelled e') eqn:Hc; [done|]. exfalso. unfold sim1 in He'.
    destruct (EventId_IsPending (m_sendEvent app) sim) eqn:Hpend.
    - destruct (m_sendEvent app) as [u|] eqn:Hu; [|done]. simpl in He'.
      apply list_elem_of_fmap in He' as (e & -> & He).
      rewrite cancel_event_act in Ha.
      apply cancel_event_live in Hc as [Hc Hne].
      destruct (ai_send _ _ _ Hinv e He Ha Hc) as (Ht & _). congruence.
    - destruct (ai_send _ _ _ Hinv e' He' Ha Hc) as (Ht & _).
      rewrite Ht in Hpend.
      pose proof (IsPending_false _ _ _ Hpend He' eq_refl). congruence. }
  assert (Hacts : forall e', e' ∈ sim_events sim1 ->
                    exists e, e ∈ sim_events sim /\ ev_act e = ev_act e').
  { intros e' He'. unfold sim1 in He'.
    destruct (EventId_IsPending _ _); [|by exists e'].
    destruct (m_sendEvent app) as [u|]; [|by exists e']. simpl in He'.
    apply list_elem_of_fmap in He' as (e & -> & He).
    exists e. by rewrite cancel_event_act. }
  pose proof (Hmono i app Hinv) as [Hs Hst Ho Hi Hr].
  pose proof (proj1 (send_pending_false _ _) Hquiet) as Hq'.
  split; [done|]. split.
  { constructor.
    - intros e He Ha Hc. rewrite (Hq' e He Ha) in Hc. done.
    - intros e He Ha. by destruct (m_socket app).
    - done.
    - by destruct (m_socket app).
    - by destruct (m_socket app). }
  split_and!; try done; by destruct (m_socket app).
Qed.

End RunFacts.

(** ** One event *)

(** [simpl] that keeps the calls of the member functions folded. *)
Ltac simpl_calls_in H :=
  with_strategy opaque [StartApplication StopApplication SendOnce SampleQueue]
                (simpl in H).

Section WorldFacts.

Variable draw : nat -> nat -> Time.
Variable probe : Device -> Time -> option Z.

Lemma world_inv_update sim apps stats conns i app' :
  sim_wf sim -> (i < length apps)%nat ->
  app_inv (sim_events sim) i app' ->
  (forall j appj, j <> i -> apps !! j = Some appj ->
                  app_inv (sim_events sim) j appj) ->
  world_inv (mkWorld sim (<[i := app']> apps) stats conns).
Proof.
  intros Hwf Hi Hnew Hold. split; [done|]. simpl. intros j appj Hj.
  destruct (decide (j = i)) as [->|Hne].
  - rewrite list_lookup_insert_eq in Hj by done. by injection Hj as <-.
  - rewrite list_lookup_insert_ne in Hj by done. by apply Hold.
Qed.

Lemma exec_inv w e q w' :
  world_inv w -> sim_events (w_sim w) = e :: q -> ev_cancelled e = false ->
  exec draw probe (ev_act e) (popped w e q) = Some w' ->
  world_inv w'.
Proof.
  destruct w as [[now uid evs st] apps stats conns]. simpl.
  intros [Hwf Happs] -> Hlive Hexec. simpl in *.
  destruct (sim_wf_pop now (ev_ts e) uid e q st false Hwf) as [Hwf' Hfresh].
  assert (Hsub : forall j appj, apps !! j = Some appj -> app_inv q j appj).
  { intros j appj Hj. eapply app_inv_subset; [|by apply Happs].
    intros e' He'. by right. }
  assert (Hhead : e ∈ e :: q) by left.
  unfold popped in Hexec. simpl in Hexec.
  destruct (ev_act e) as [i|i|i|dev i|] eqn:Hact; simpl_calls_in Hexec.
  - (* StartApplication *)
    destruct (apps !! i) as [app|] eqn:Happ; simpl_calls_in Hexec; [|done].
    destruct (StartApplication draw i app _) as [[app' sim']|] eqn:HS;
      simpl_calls_in Hexec; [|done].
    injection Hexec as <-.
    pose proof (Happs i app Happ) as Hinv.
    unfold StartApplication in HS. simpl in HS.
    destruct (m_socket app) as [sock|] eqn:Hsock; simpl in HS; [|done].
    apply ScheduleNext_inv in HS; simpl.
    + destruct HS as (Hwfs & Hnew & Hothers & _).
      apply world_inv_update; eauto using lookup_lt_Some.
    + done.
    + apply send_pending_false. intros e2 He2 Ha2.
      destruct (ev_cancelled e2) eqn:Hc; [done|]. exfalso.
      pose proof (ai_start _ _ _ Hinv e Hhead Hact) as Hoff.
      destruct (ai_send _ _ _ Hinv e2 (list_elem_of_further _ _ _ He2) Ha2 Hc)
        as (_ & Hon & _). congruence.
    + apply start_queued_false. intros e2 He2 Ha2.
      apply (Hfresh e2 He2). symmetry.
      apply (ai_start_once _ _ _ Hinv e e2); try done. by right.
    + apply (ai_idle _ _ _ Hinv).
    + apply (ai_rng _ _ _ Hinv).
    + intros _. by eexists.
  - (* StopApplication *)
    destruct (apps !! i) as [app|] eqn:Happ; simpl_calls_in Hexec; [|done].
    destruct (StopApplication app _) as [app' sim'] eqn:HS.
    injection Hexec as <-.
    eapply (StopApplication_inv i) in HS; [|done|by apply Hsub].
    destruct HS as (Hwfs & Hnew & _ & Hothers & _).
    apply world_inv_update; eauto using lookup_lt_Some.
  - (* SendOnce *)
    destruct (apps !! i) as [app|] eqn:Happ; simpl_calls_in Hexec; [|done].
    destruct (SendOnce draw i app _) as [[app' sim']|] eqn:HS;
      simpl_calls_in Hexec; [|done].
    injection Hexec as <-.
    pose proof (Happs i app Happ) as Hinv.
    destruct (ai_send _ _ _ Hinv e Hhead Hact Hlive)
      as (Htrack & Hon & Hrate & [sock Hsock]).
    unfold SendOnce in HS. rewrite Hon in HS. simpl in HS.
    destruct (negb (m_maxPackets app =? 0) && (m_maxPackets app <=? m_sent app)).
    + injection HS as <- <-.
      apply world_inv_update; eauto using lookup_lt_Some.
    + rewrite Hsock in HS. simpl in HS.
      apply ScheduleNext_inv in HS; simpl.
      * destruct HS as (Hwfs & Hnew & Hothers & _).
        apply world_inv_update; eauto using lookup_lt_Some.
      * done.
      * apply send_pending_false. intros e2 He2 Ha2.
        destruct (ev_cancelled e2) eqn:Hc; [done|]. exfalso.
        destruct (ai_send _ _ _ Hinv e2 (list_elem_of_further _ _ _ He2) Ha2 Hc)
          as (Htrack2 & _).
        apply (Hfresh e2 He2). congruence.
      * apply start_queued_false. intros e2 He2 Ha2.
        pose proof (ai_start _ _ _ Hinv e2 (list_elem_of_further _ _ _ He2) Ha2).
        congruence.
      * rewrite Hrate. done.
      * apply (ai_rng _ _ _ Hinv).
      * intros _. by eexists.
  - (* SampleQueue *)
    destruct (SampleQueue probe dev i stats _) as [[stats' sim']|] eqn:HS;
      simpl_calls_in Hexec; [|done].
    injection Hexec as <-. unfold SampleQueue in HS.
    destruct (SampleQueue_stats i stats _) as [stats1|]; simpl in HS; [|done].
    injection HS as <- <-.
    split;
      [apply (sim_wf_schedule (MilliSeconds 1) (ActSampleQueue dev i) _ Hwf')|].
    simpl.
    intros j appj Hj. apply app_inv_insert; simpl; [done|done|by apply Hsub].
  - (* Simulator::Stop *)
    injection Hexec as <-. split; [done|]. simpl. apply Hsub.
Qed.

Lemma step_inv l w w' :
  world_inv w -> step draw probe l w = Some w' -> world_inv w'.
Proof.
  intros Hinv Hstep. destruct l as [|dev n]; simpl in Hstep.
  - unfold dispatch in Hstep.
    destruct (sim_stopped (w_sim w)); [done|].
    destruct (sim_events (w_sim w)) as [|e q] eqn:Hq; [done|].
    destruct (ev_cancelled e) eqn:Hc.
    + injection Hstep as <-. destruct Hinv as [Hwf Happs].
      destruct w as [[now uid evs st] apps stats conns]. simpl in *. subst evs.
      destruct (sim_wf_pop now (ev_ts e) uid e q st false Hwf) as [Hwf' _].
      split; [done|]. simpl. intros j appj Hj.
      eapply app_inv_subset; [|by apply Happs]. intros e' He'. by right.
    + by eapply exec_inv.
  - destruct (fire _ _ _ _) as [stats'|]; simpl in Hstep; [|done].
    injection Hstep as <-. exact Hinv.
Qed.

Lemma run_inv ls w w' :
  world_inv w -> run draw probe ls w = Some w' -> world_inv w'.
Proof.
  revert w. induction ls as [|l ls IH]; intros w Hinv Hrun; simpl in Hrun.
  - by injection Hrun as <-.
  - destruct (step draw probe l w) as [w1|] eqn:Hstep; [|done].
    eapply IH; [|done]. by eapply step_inv.
Qed.

Lemma run_app ls1 ls2 w :
  run draw probe (ls1 ++ ls2) w
  = match run draw probe ls1 w with
    | Some w1 => run draw probe ls2 w1
    | None => None
    end.
Proof.
  revert w. induction ls1 as [|l ls1 IH]; intros w; simpl; [done|].
  destruct (step draw probe l w); [apply IH|done].
Qed.

End WorldFacts.

(** ** Entering the run *)

Lemma startup_queue_schedule n d a sim :
  startup_queue n sim ->
  (forall k, a <> ActSendOnce k) -> (forall k, a <> ActStart k) ->
  startup_queue n (Simulator_Schedule d a sim).2.
Proof.
  intros (Hwf & Hns & Hlt & Honce) Hs Ht.
  split; [by apply sim_wf_schedule|]. simpl. split_and!.
  - intros e k [->|He]%elem_of_insert_event; simpl; [apply Hs|by apply Hns].
  - intros e k [->|He]%elem_of_insert_event; simpl; [by intros ?%Ht|by apply Hlt].
  - intros e1 e2 k [->|H1]%elem_of_insert_event [->|H2]%elem_of_insert_event;
      simpl; try (by intros ?%Ht); try (by intros _ ?%Ht). by apply Honce.
Qed.

Lemma startup_queue_start n d sim :
  startup_queue n sim ->
  startup_queue (S n) (Simulator_Schedule d (ActStart n) sim).2.
Proof.
  intros (Hwf & Hns & Hlt & Honce).
  split; [by apply sim_wf_schedule|]. simpl. split_and!.
  - intros e k [->|He]%elem_of_insert_event; simpl; [done|by apply Hns].
  - intros e k [->|He]%elem_of_insert_event; simpl.
    + intros [= <-]. lia.
    + intros Ha. specialize (Hlt e k He Ha). lia.
  - intros e1 e2 k [->|H1]%elem_of_insert_event [->|H2]%elem_of_insert_event;
      simpl; try done.
    + intros [= <-] Ha. specialize (Hlt e2 n H2 Ha). lia.
    + intros Ha [= <-]. specialize (Hlt e1 n H1 Ha). lia.
    + by apply Honce.
Qed.

Lemma startup_queue_apps cs :
  forall n sim,
    startup_queue n sim ->
    startup_queue (n + length cs) (schedule_apps n cs sim).
Proof.
  induction cs as [|c cs IH]; intros n sim H; cbn [schedule_apps length].
  - by replace (n + 0)%nat with n by lia.
  - replace (n + S (length cs))%nat with (S n + length cs)%nat by lia.
    apply IH. destruct (ac_stop c =? 0)%N.
    + by apply startup_queue_start.
    + apply startup_queue_schedule; [by apply startup_queue_start|done|done].
Qed.

Lemma wire_startup nLegacy n sim conns sim' :
  startup_queue 0 sim ->
  wire nLegacy n sim = Some (conns, sim') ->
  startup_queue 0 sim' /\ monitor_only_he nLegacy conns.
Proof.
  intros Hsim Hwire. unfold wire in Hwire.
  destruct (for_range_inv
    (fun (k : nat) (s : list Connection * Simulator) =>
       startup_queue 0 s.2 /\ monitor_only_he nLegacy s.1)
    (wire_station nLegacy) (Z.to_nat n) 0%nat ([], sim))
    as (s' & Hs' & HP).
  - split; [done|]. intros c i Hc. by apply elem_of_nil in Hc.
  - intros k [cn sm] _ [Hq Hm]. unfold wire_station. cbn [fst snd] in *.
    eexists. split; [reflexivity|]. cbn [fst snd]. split.
    + by apply startup_queue_schedule.
    + intros c i Hc Hcb. case_bool_decide as Hk.
      * apply elem_of_app in Hc as [Hc|Hc].
        -- apply elem_of_app in Hc as [Hc|Hc]; [by eapply Hm|].
           repeat (apply elem_of_cons in Hc as [->|Hc]; [done|]).
           by apply elem_of_nil in Hc.
        -- apply elem_of_cons in Hc as [->|Hc];
             [|by apply elem_of_nil in Hc].
           simpl in Hcb. by injection Hcb as <-.
      * apply elem_of_app in Hc as [Hc|Hc]; [by eapply Hm|].
        repeat (apply elem_of_cons in Hc as [->|Hc]; [done|]).
        by apply elem_of_nil in Hc.
  - rewrite Hwire in Hs'. injection Hs' as <-. exact HP.
Qed.

Lemma startup_queue_init : startup_queue 0 Simulator_init.
Proof.
  split; [split; simpl; [constructor|]|split_and!]; simpl;
    intros; by match goal with H : _ ∈ [] |- _ => apply elem_of_nil in H end.
Qed.

Lemma install_app_fresh i c :
  m_running (install_app i c) = false
  /\ m_sent (install_app i c) = 0
  /\ m_sendEvent (install_app i c) = None
  /\ is_Some (m_rng (install_app i c))
  /\ m_lambda (install_app i c) = ac_lambda c
  /\ m_pktSize (install_app i c) = ac_pktSize c
  /\ m_maxPackets (install_app i c) = ac_maxPackets c
  /\ m_socket (install_app i c) = ac_socket c.
Proof. unfold install_app, Setup. simpl. split_and!; by eauto. Qed.

Lemma boot_inv nLegacy cs simStop w0 :
  boot nLegacy cs simStop = Some w0 ->
  world_inv w0
  /\ w_apps w0 = imap install_app cs
  /\ w_stats w0 = replicate (length cs) StaStats_default
  /\ monitor_only_he nLegacy (w_conns w0).
Proof.
  unfold boot. intros Hboot.
  destruct (wire nLegacy _ Simulator_init) as [[conns sim]|] eqn:Hwire;
    simpl in Hboot; [|done].
  injection Hboot as <-. simpl.
  destruct (wire_startup _ _ _ _ _ startup_queue_init Hwire) as [Hq Hm].
  split_and!; try done.
  assert (Hstop : startup_queue 0 (Simulator_Stop simStop sim))
    by (by apply startup_queue_schedule).
  destruct (startup_queue_apps cs 0 _ Hstop) as (Hwf & Hns & _ & Honce).
  split; [done|]. simpl. intros i app Happ.
  rewrite list_lookup_imap in Happ.
  destruct (cs !! i) as [c|]; simpl in Happ; [|done]. injection Happ as <-.
  destruct (install_app_fresh i c) as (Hr & Hsent & _ & Hrng & _).
  constructor; try done.
  - intros e He Ha. by destruct (Hns e i He).
  - intros e1 e2 H1 H2 Ha1 Ha2. by eapply Honce.
Qed.

(** ** What an event can change in an application *)

Section AppFacts.

Variable draw : nat -> nat -> Time.
Variable probe : Device -> Time -> option Z.

Lemma ScheduleNext_fields this app sim app' sim' :
  ScheduleNext draw this app sim = Some (app', sim') ->
  same_setup app app' /\ m_sent app' = m_sent app
  /\ m_running app' = m_running app /\ m_socket app' = m_socket app
  /\ forall e, e ∈ sim_events sim' ->
               e ∈ sim_events sim \/ ev_act e = ActSendOnce this.
Proof.
  unfold ScheduleNext, same_setup. intros H.
  destruct (m_running app) eqn:Hr; simpl in H;
    [destruct (Double.leb (m_lambda app) Double.zero);
     [|destruct (m_rng app) as [rng|]; simpl in H; [|done]]|];
    injection H as <- <-; simpl; split_and!; auto.
  intros e [->|He]%elem_of_insert_event; auto.
Qed.

Lemma StartApplication_fields this app sim app' sim' :
  StartApplication draw this app sim = Some (app', sim') ->
  same_setup app app' /\ m_sent app' = m_sent app
  /\ forall e, e ∈ sim_events sim' ->
               e ∈ sim_events sim \/ ev_act e = ActSendOnce this.
Proof.
  unfold StartApplication. simpl. intros H.
  destruct (m_socket app) as [sock|]; simpl in H; [|done].
  apply ScheduleNext_fields in H as ((Hl & Hp & Hm & Hpeer) & Hs & _ & _ & He).
  unfold same_setup. simpl in *. split_and!; auto.
Qed.

Lemma StopApplication_fields app sim app' sim' :
  StopApplication app sim = (app', sim') ->
  same_setup app app' /\ m_sent app' = m_sent app /\ m_running app' = false
  /\ forall e', e' ∈ sim_events sim' ->
                exists e, e ∈ sim_events sim /\ ev_act e = ev_act e'.
Proof.
  unfold StopApplication, same_setup. intros H. injection H as <- <-.
  split_and!; try (by destruct (m_socket app)).
  intros e' He'. simpl in He'.
  destruct (EventId_IsPending _ _); [|by exists e'].
  destruct (m_sendEvent app) as [u|]; [|by exists e']. simpl in He'.
  apply list_elem_of_fmap in He' as (e & -> & He).
  exists e. by rewrite cancel_event_act.
Qed.

Lemma SendOnce_fields this app sim app' sim' :
  SendOnce draw this app sim = Some (app', sim') ->
  same_setup app app'
  /\ (m_sent app' = m_sent app \/ m_sent app' = wrap64 (m_sent app + 1))
  /\ (m_running app = false -> app' = app /\ sim' = sim)
  /\ forall e, e ∈ sim_events sim' ->
               e ∈ sim_events sim \/ ev_act e = ActSendOnce this.
Proof.
  unfold SendOnce. intros H.
  destruct (m_running app) eqn:Hr; simpl in H.
  - destruct (negb (m_maxPackets app =? 0) && (m_maxPackets app <=? m_sent app)).
    + injection H as <- <-. unfold same_setup. split_and!; by auto.
    + destruct (m_socket app) as [sock|]; simpl in H; [|done].
      apply ScheduleNext_fields in H
        as ((Hl & Hp & Hm & Hpeer) & Hs & _ & _ & He).
      unfold same_setup. simpl in *. split_and!; by auto.
  - injection H as <- <-. unfold same_setup. split_and!; auto.
Qed.

Lemma exec_keeps a w w' j appj :
  exec draw probe a w = Some w' ->
  w_apps w !! j = Some appj ->
  exists appj',
    w_apps w' !! j = Some appj'
    /\ same_setup appj appj'
    /\ (m_sent appj' = m_sent appj
        \/ m_sent appj' = wrap64 (m_sent appj + 1))
    /\ (a <> ActStart j -> m_running appj = false ->
        m_running appj' = false /\ m_sent appj' = m_sent appj).
Proof.
  intros Hexec Hj.
  assert (Hsame : exists appj', w_apps w !! j = Some appj'
    /\ same_setup appj appj'
    /\ (m_sent appj' = m_sent appj
        \/ m_sent appj' = wrap64 (m_sent appj + 1))
    /\ (a <> ActStart j -> m_running appj = false ->
        m_running appj' = false /\ m_sent appj' = m_sent appj)).
  { exists appj. unfold same_setup. split_and!; auto. }
  assert (Hlen : (j < length (w_apps w))%nat) by by eapply lookup_lt_Some.
  destruct a as [i|i|i|dev i|]; simpl_calls_in Hexec.
  - destruct (w_apps w !! i) as [app|] eqn:Happ; simpl_calls_in Hexec; [|done].
    destruct (StartApplication draw i app _) as [[app' sim']|] eqn:HS;
      simpl_calls_in Hexec; [|done].
    injection Hexec as <-. simpl.
    destruct (decide (j = i)) as [->|Hne];
      [|by rewrite list_lookup_insert_ne].
    rewrite list_lookup_insert_eq by done.
    assert (app = appj) as -> by congruence.
    apply StartApplication_fields in HS as (Hset & Hs & _).
    exists app'. split_and!; by auto.
  - destruct (w_apps w !! i) as [app|] eqn:Happ; simpl_calls_in Hexec; [|done].
    destruct (StopApplication app _) as [app' sim'] eqn:HS.
    injection Hexec as <-. simpl.
    destruct (decide (j = i)) as [->|Hne];
      [|by rewrite list_lookup_insert_ne].
    rewrite list_lookup_insert_eq by done.
    assert (app = appj) as -> by congruence.
    apply StopApplication_fields in HS as (Hset & Hs & Hr & _).
    exists app'. split_and!; auto.
  - destruct (w_apps w !! i) as [app|] eqn:Happ; simpl_calls_in Hexec; [|done].
    destruct (SendOnce draw i app _) as [[app' sim']|] eqn:HS;
      simpl_calls_in Hexec; [|done].
    injection Hexec as <-. simpl.
    destruct (decide (j = i)) as [->|Hne];
      [|by rewrite list_lookup_insert_ne].
    rewrite list_lookup_insert_eq by done.
    assert (app = appj) as -> by congruence.
    apply SendOnce_fields in HS as (Hset & Hs & Hoff & _).
    exists app'. split_and!; auto.
    intros _ Hr. destruct (Hoff Hr) as [-> _]. done.
  - destruct (SampleQueue probe dev i _ _) as [[stats' sim']|];
      simpl_calls_in Hexec; [|done].
    by injection Hexec as <-.
  - by injection Hexec as <-.
Qed.

(** No event handler queues a start. *)
Lemma exec_no_new_start a w w' j :
  exec draw probe a w = Some w' ->
  start_queued j (sim_events (w_sim w)) = false ->
  start_queued j (sim_events (w_sim w')) = false.
Proof.
  intros Hexec Hq. pose proof (proj1 (start_queued_false _ _) Hq) as Hq'.
  apply start_queued_false.
  destruct a as [i|i|i|dev i|]; simpl_calls_in Hexec.
  - destruct (w_apps w !! i) as [app|] eqn:Happ; simpl_calls_in Hexec; [|done].
    destruct (StartApplication draw i app _) as [[app' sim']|] eqn:HS;
      simpl_calls_in Hexec; [|done].
    injection Hexec as <-. simpl.
    apply StartApplication_fields in HS as (_ & _ & He).
    intros e [Hin| ->]%He; [by apply Hq'|done].
  - destruct (w_apps w !! i) as [app|] eqn:Happ; simpl_calls_in Hexec; [|done].
    destruct (StopApplication app _) as [app' sim'] eqn:HS.
    injection Hexec as <-. simpl.
    apply StopApplication_fields in HS as (_ & _ & _ & He).
    intros e' (e & Hin & <-)%He. by apply Hq'.
  - destruct (w_apps w !! i) as [app|] eqn:Happ; simpl_calls_in Hexec; [|done].
    destruct (SendOnce draw i app _) as [[app' sim']|] eqn:HS;
      simpl_calls_in Hexec; [|done].
    injection Hexec as <-. simpl.
    apply SendOnce_fields in HS as (_ & _ & _ & He).
    intros e [Hin| ->]%He; [by apply Hq'|done].
  - destruct (SampleQueue probe dev i _ _) as [[stats' sim']|] eqn:HS;
      simpl_calls_in Hexec; [|done].
    injection Hexec as <-. simpl. unfold SampleQueue in HS.
    destruct (SampleQueue_stats i _ _); simpl in HS; [|done].
    injection HS as <- <-. simpl.
    intros e [->|Hin]%elem_of_insert_event; [done|by apply Hq'].
  - injection Hexec as <-. simpl. apply Hq'.
Qed.

End AppFacts.

(** ** Runs *)

Section RunInvariants.

Variable draw : nat -> nat -> Time.
Variable probe : Device -> Time -> option Z.

Lemma start_queued_tail j e q :
  start_queued j (e :: q) = false ->
  ev_act e <> ActStart j /\ start_queued j q = false.
Proof.
  intros H. pose proof (proj1 (start_queued_false _ _) H) as H'. split.
  - apply H'. left.
  - apply start_queued_false. intros e' He'. apply H'. by right.
Qed.

Lemma step_keeps l w w' j appj :
  step draw probe l w = Some w' ->
  w_apps w !! j = Some appj ->
  exists appj',
    w_apps w' !! j = Some appj'
    /\ same_setup appj appj'
    /\ (m_sent appj' = m_sent appj
        \/ m_sent appj' = wrap64 (m_sent appj + 1))
    /\ (start_queued j (sim_events (w_sim w)) = false ->
        m_running appj = false ->
        m_running appj' = false /\ m_sent appj' = m_sent appj
        /\ start_queued j (sim_events (w_sim w')) = false).
Proof.
  intros Hstep Hj.
  assert (Hrefl : same_setup appj appj) by (unfold same_setup; auto).
  destruct l as [|dev n]; simpl in Hstep.
  - unfold dispatch in Hstep.
    destruct (sim_stopped (w_sim w)); [done|].
    destruct (sim_events (w_sim w)) as [|e q] eqn:Hq; [done|].
    destruct (ev_cancelled e).
    + injection Hstep as <-. exists appj. simpl. split_and!; auto.
      intros [_ Ht]%start_queued_tail Hr. auto.
    + destruct (exec_keeps draw probe _ _ _ j appj Hstep Hj)
        as (appj' & Hj' & Hset & Hsent & Hoff).
      exists appj'. split_and!; auto.
      intros [Hne Ht]%start_queued_tail Hr.
      destruct (Hoff Hne Hr) as [Hr' Hs']. split_and!; auto.
      by eapply exec_no_new_start.
  - destruct (fire _ _ _ _) as [stats'|]; simpl in Hstep; [|done].
    injection Hstep as <-. exists appj. simpl. split_and!; auto.
Qed.

Lemma run_keeps ls :
  forall w w' j appj,
    run draw probe ls w = Some w' ->
    w_apps w !! j = Some appj ->
    exists appj',
      w_apps w' !! j = Some appj'
      /\ same_setup appj appj'
      /\ (is_u64 (m_sent appj) -> is_u64 (m_sent appj'))
      /\ (start_queued j (sim_events (w_sim w)) = false ->
          m_running appj = false ->
          m_running appj' = false /\ m_sent appj' = m_sent appj
          /\ start_queued j (sim_events (w_sim w')) = false).
Proof.
  induction ls as [|l ls IH]; intros w w' j appj Hrun Hj; simpl in Hrun.
  - injection Hrun as <-. exists appj. unfold same_setup. split_and!; auto.
  - destruct (step draw probe l w) as [w1|] eqn:Hstep; [|done].
    destruct (step_keeps _ _ _ _ _ Hstep Hj)
      as (app1 & Hj1 & (Hl1 & Hp1 & Hm1 & Hpeer1) & Hsent1 & Hoff1).
    destruct (IH _ _ _ _ Hrun Hj1)
      as (app2 & Hj2 & (Hl2 & Hp2 & Hm2 & Hpeer2) & Hu2 & Hoff2).
    exists app2. unfold same_setup. split_and!; try congruence.
    + intros Hu. apply Hu2. destruct Hsent1 as [->| ->]; [done|].
      apply wrap64_range.
    + intros Hq Hr. destruct (Hoff1 Hq Hr) as (Hr1 & Hs1 & Hq1).
      destruct (Hoff2 Hq1 Hr1) as (Hr2 & Hs2 & Hq2).
      split_and!; auto. congruence.
Qed.

(** Every state of a run, from its start on, satisfies the invariant. *)
Lemma reachable_inv nLegacy cs simStop w0 ls w :
  boot nLegacy cs simStop = Some w0 ->
  run draw probe ls w0 = Some w ->
  world_inv w
  /\ forall i c, cs !! i = Some c ->
                 exists app, w_apps w !! i = Some app
                             /\ m_lambda app = ac_lambda c
                             /\ m_pktSize app = ac_pktSize c
                             /\ m_maxPackets app = ac_maxPackets c
                             /\ is_u64 (m_sent app).
Proof.
  intros Hboot Hrun.
  destruct (boot_inv _ _ _ _ Hboot) as (Hinv & Happs & _ & _).
  split; [by eapply run_inv|].
  intros i c Hc.
  assert (H0 : w_apps w0 !! i = Some (install_app i c)).
  { rewrite Happs, list_lookup_imap, Hc. done. }
  destruct (run_keeps _ _ _ _ _ Hrun H0)
    as (app & Hi & (Hl & Hp & Hm & _) & Hu & _).
  destruct (install_app_fresh i c) as (_ & Hs & _ & _ & Hl0 & Hp0 & Hm0 & _).
  exists app. split_and!; try congruence.
  apply Hu. rewrite Hs. unfold is_u64. lia.
Qed.

Lemma next_action_head w a :
  next_action w = Some a ->
  sim_stopped (w_sim w) = false
  /\ exists e q, sim_events (w_sim w) = e :: q
                 /\ ev_cancelled e = false /\ ev_act e = a.
Proof.
  unfold next_action. destruct (sim_stopped (w_sim w)); [done|].
  destruct (sim_events (w_sim w)) as [|e q]; [done|].
  destruct (ev_cancelled e) eqn:Hc; [done|].
  intros [= <-]. split; [done|]. by exists e, q.
Qed.

(** Under the invariant, a send is pending only for a running
    application. *)
Lemma not_running_no_send w i app :
  world_inv w -> w_apps w !! i = Some app -> m_running app = false ->
  send_pending i (sim_events (w_sim w)) = false
  /\ next_action w <> Some (ActSendOnce i).
Proof.
  intros [_ Happs] Hi Hr. pose proof (Happs i app Hi) as Hinv.
  assert (Hnone : forall e, e ∈ sim_events (w_sim w) ->
                            ev_act e = ActSendOnce i ->
                            ev_cancelled e = true).
  { intros e He Ha. destruct (ev_cancelled e) eqn:Hc; [done|].
    destruct (ai_send _ _ _ Hinv e He Ha Hc) as (_ & Hon & _). congruence. }
  split; [by apply send_pending_false|].
  intros (_ & e & q & Hq & Hc & Ha)%next_action_head.
  rewrite (Hnone e) in Hc; [done| |done]. rewrite Hq. left.
Qed.

End RunInvariants.

(** ** The traffic source *)

(** A source whose stop time comes before its start time: the simulator
    delivers the stop first, then the start, which sets the source running
    and schedules a send; the send is delivered and the sent-count goes
    from 0 to 1. *)
Example start_after_stop_sends :
  exists w1 w2 w3 app1 app3,
    boot 1 [demo_station_early_stop (Double.of_Z 100) 0] 12%N = Some w1
    /\ next_action w1 = Some (ActStop 0)
    /\ step demo_draw demo_probe LDispatch w1 = Some w2
    /\ run demo_draw demo_probe [LDispatch; LDispatch] w2 = Some w3
    /\ w_apps w1 !! 0%nat = Some app1 /\ w_apps w3 !! 0%nat = Some app3
    /\ m_sent app1 = 0
    /\ m_running app3 = true /\ m_sent app3 = 1
    /\ send_pending 0 (sim_events (w_sim w3)) = true.
Proof.
  eexists _, _, _, _, _.
  split; [vm_compute; reflexivity|]. split; [vm_compute; reflexivity|].
  split; [vm_compute; reflexivity|]. split; [vm_compute; reflexivity|].
  split; [vm_compute; reflexivity|]. split; [vm_compute; reflexivity|].
  by vm_compute.
Qed.

(** C1, as stated, fails: the stop of a source does not end its sends
    when its start is still to come. With the stop time before the start
    time, [StopApplication] runs first; [StartApplication] runs later, and
    the source sends. *)
Lemma stop_before_start_sends :
  ~ (forall (draw : nat -> nat -> Time) (probe : Device -> Time -> option Z)
            (nLegacy : Z) (cs : list AppConfig) (simStop : Time)
            (ls1 ls2 : list Label) (w0 w1 w2 w3 : World) (i : nat),
        boot nLegacy cs simStop = Some w0 ->
        run draw probe ls1 w0 = Some w1 ->
        next_action w1 = Some (ActStop i) ->
        step draw probe LDispatch w1 = Some w2 ->
        run draw probe ls2 w2 = Some w3 ->
        exists app1 app3,
          w_apps w1 !! i = Some app1 /\ w_apps w3 !! i = Some app3
          /\ m_running app3 = false
          /\ m_sent app3 = m_sent app1
          /\ send_pending i (sim_events (w_sim w3)) = false
          /\ next_action w3 <> Some (ActSendOnce i)).
Proof.
  intros H.
  destruct start_after_stop_sends
    as (w1 & w2 & w3 & a1 & a3 & Hb & Hn & Hs & Hr & H1 & H3 & _ & Hon & _).
  destruct (H demo_draw demo_probe 1 _ _ [] [LDispatch; LDispatch]
              w1 w1 w2 w3 0%nat Hb eq_refl Hn Hs Hr)
    as (app1 & app3 & _ & H3' & Hoff & _).
  congruence.
Qed.

(** C1, amended. Once [StopApplication] has run for a source, with no start
    of that source left in the queue, the source is not running and has no
    send pending (a send scheduled before is cancelled), and this stays so
    for the rest of the run: the simulator never invokes [SendOnce] for it
    again and its sent-count keeps the value it had at the stop. *)
Theorem stop_ends_sends
        (draw : nat -> nat -> Time) (probe : Device -> Time -> option Z)
        (nLegacy : Z) (cs : list AppConfig) (simStop : Time)
        (ls1 ls2 : list Label) (w0 w1 w2 w3 : World) (i : nat) :
  boot nLegacy cs simStop = Some w0 ->
  run draw probe ls1 w0 = Some w1 ->
  next_action w1 = Some (ActStop i) ->
  step draw probe LDispatch w1 = Some w2 ->
  start_queued i (sim_events (w_sim w2)) = false ->
  run draw probe ls2 w2 = Some w3 ->
  exists app1 app3,
    w_apps w1 !! i = Some app1 /\ w_apps w3 !! i = Some app3
    /\ m_running app3 = false
    /\ m_sent app3 = m_sent app1
    /\ send_pending i (sim_events (w_sim w3)) = false
    /\ next_action w3 <> Some (ActSendOnce i).
Proof.
  intros Hboot Hrun1 Hnext Hstep Hq Hrun2.
  destruct (reachable_inv draw probe _ _ _ _ _ _ Hboot Hrun1) as [Hinv1 _].
  assert (Hinv2 : world_inv w2) by (by eapply step_inv).
  assert (Hinv3 : world_inv w3) by (by eapply run_inv).
  apply next_action_head in Hnext as (Hst & e & q & Hevs & Hc & Ha).
  simpl in Hstep. unfold dispatch in Hstep. rewrite Hst, Hevs, Hc, Ha in Hstep.
  simpl_calls_in Hstep.
  destruct (w_apps w1 !! i) as [app1|] eqn:H1; simpl_calls_in Hstep; [|done].
  destruct (StopApplication app1 _) as [app2 sim2] eqn:HS.
  injection Hstep as <-. simpl in *.
  apply StopApplication_fields in HS as (_ & Hs2 & Hr2 & _).
  assert (H2 : <[i := app2]> (w_apps w1) !! i = Some app2).
  { apply list_lookup_insert_eq. by eapply lookup_lt_Some. }
  destruct (run_keeps draw probe _ _ _ _ _ Hrun2 H2)
    as (app3 & H3 & _ & _ & Hoff).
  destruct (Hoff Hq Hr2) as (Hr3 & Hs3 & _).
  exists app1, app3. split_and!; try done; [congruence| |].
  - by eapply not_running_no_send.
  - by eapply not_running_no_send.
Qed.

Lemma stop_ends_sends_witness :
  exists w1 w3 app1 app3,
    (boot 1 [demo_station (Double.of_Z 100) 0] 7%N
     ≫= run demo_draw demo_probe [LDispatch; LDispatch]) = Some w1
    /\ send_pending 0 (sim_events (w_sim w1)) = true
    /\ run demo_draw demo_probe [LDispatch; LDispatch] w1 = Some w3
    /\ w_apps w1 !! 0%nat = Some app1 /\ w_apps w3 !! 0%nat = Some app3
    /\ m_running app3 = false
    /\ m_sent app3 = m_sent app1
    /\ send_pending 0 (sim_events (w_sim w3)) = false
    /\ next_action w3 <> Some (ActSendOnce 0).
Proof.
  edestruct (stop_ends_sends demo_draw demo_probe 1
               [demo_station (Double.of_Z 100) 0] 7%N
               [LDispatch; LDispatch] [LDispatch])
    as (app1 & app3 & H1 & H3 & Hr & Hs & Hp & Hn);
    [vm_compute; reflexivity ..|].
  eexists _, _, app1, app3.
  split; [vm_compute; reflexivity|].
  split; [vm_compute; reflexivity|].
  split; [vm_compute; reflexivity|].
  split; [exact H1|]. split; [exact H3|].
  split_and!; assumption.
Defined.

(** ** The counter table during a run *)

Lemma update_sta_inv stats j f stats' :
  update_sta stats j f = Some stats' ->
  exists st, stats !! j = Some st /\ stats' = <[j := f st]> stats.
Proof.
  unfold update_sta, vec_get, vec_set.
  destruct (stats !! j) as [st|] eqn:Hst; simpl; [|done].
  case_decide; [|done]. intros [= <-]. eauto.
Qed.

Lemma update_sta_legacy nLegacy stats j f stats' :
  update_sta stats j f = Some stats' ->
  nLegacy <= Z.of_nat j
  \/ (forall st, he_counters_zero st -> he_counters_zero (f st)) ->
  legacy_unclassified nLegacy stats ->
  legacy_unclassified nLegacy stats' /\ length stats' = length stats.
Proof.
  intros (st & Hst & ->)%update_sta_inv Hf Hleg.
  split; [|by rewrite length_insert].
  intros i sti Hi Hsti. destruct (decide (i = j)) as [->|Hne].
  - rewrite list_lookup_insert_eq in Hsti by (by eapply lookup_lt_Some).
    injection Hsti as <-. destruct Hf as [Hj|Hf]; [lia|].
    apply Hf. by eapply Hleg.
  - rewrite list_lookup_insert_ne in Hsti by done. by eapply Hleg.
Qed.

(** Solves "this update does not touch the classification counters". *)
Ltac he_untouched := right; intros ? (? & ? & ? & ?); by repeat split.

Lemma invoke_legacy nLegacy cb n stats stats' :
  invoke cb n stats = Some stats' ->
  (forall i, cb = CbHePhyTxMonitor i -> nLegacy <= Z.of_nat i) ->
  legacy_unclassified nLegacy stats ->
  legacy_unclassified nLegacy stats' /\ length stats' = length stats.
Proof.
  intros Hinv Hcb Hleg.
  destruct cb as [i|i|i|i], n as [| | |p pre]; simpl in Hinv;
    try (injection Hinv as <-; by split).
  - eapply update_sta_legacy; [exact Hinv| |done]. he_untouched.
  - eapply update_sta_legacy; [exact Hinv| |done]. he_untouched.
  - eapply update_sta_legacy; [exact Hinv| |done]. he_untouched.
  - specialize (Hcb i eq_refl). unfold OnHePhyTxMonitor in Hinv.
    destruct pre; try (injection Hinv as <-; by split).
    + destruct (update_sta stats i _) as [stats1|] eqn:H1; simpl in Hinv;
        [|done].
      destruct (update_sta_legacy nLegacy _ _ _ _ H1 (or_introl Hcb) Hleg)
        as [Hleg1 Hlen1].
      destruct (update_sta_legacy nLegacy _ _ _ _ Hinv (or_introl Hcb) Hleg1)
        as [Hleg2 Hlen2].
      split; [done|congruence].
    + destruct (update_sta stats i _) as [stats1|] eqn:H1; simpl in Hinv;
        [|done].
      destruct (update_sta_legacy nLegacy _ _ _ _ H1 (or_introl Hcb) Hleg)
        as [Hleg1 Hlen1].
      destruct (update_sta_legacy nLegacy _ _ _ _ Hinv (or_introl Hcb) Hleg1)
        as [Hleg2 Hlen2].
      split; [done|congruence].
Qed.

Lemma fire_legacy nLegacy conns dev n :
  forall stats stats',
    fire conns dev n stats = Some stats' ->
    monitor_only_he nLegacy conns ->
    legacy_unclassified nLegacy stats ->
    legacy_unclassified nLegacy stats' /\ length stats' = length stats.
Proof.
  induction conns as [|c conns IH]; intros stats stats' Hfire Hm Hleg;
    simpl in Hfire.
  - injection Hfire as <-. by split.
  - assert (Hm' : monitor_only_he nLegacy conns).
    { intros c' i Hc'. apply Hm. by right. }
    destruct (device_eqb (cn_dev c) dev); [|by eapply IH].
    destruct (invoke (cn_cb c) n stats) as [stats1|] eqn:H1; simpl in Hfire;
      [|done].
    destruct (invoke_legacy nLegacy _ _ _ _ H1) as [Hleg1 Hlen1]; [|done|].
    { intros i Hi. eapply Hm; [left|done]. }
    destruct (IH _ _ Hfire Hm' Hleg1) as [Hleg2 Hlen2].
    split; [done|congruence].
Qed.

Lemma SampleQueue_stats_legacy nLegacy i stats txopQueue stats' :
  SampleQueue_stats i stats txopQueue = Some stats' ->
  legacy_unclassified nLegacy stats ->
  legacy_unclassified nLegacy stats' /\ length stats' = length stats.
Proof.
  unfold SampleQueue_stats. intros H Hleg.
  destruct (update_sta stats i _) as [stats1|] eqn:H1; simpl in H; [|done].
  destruct (update_sta_legacy nLegacy _ _ _ _ H1) as [Hleg1 Hlen1];
    [he_untouched|done|].
  destruct (update_sta_legacy nLegacy _ _ _ _ H) as [Hleg2 Hlen2];
    [he_untouched|done|].
  split; [done|congruence].
Qed.

Section TableFacts.

Variable draw : nat -> nat -> Time.
Variable probe : Device -> Time -> option Z.

Lemma step_table nLegacy l w w' :
  step draw probe l w = Some w' ->
  monitor_only_he nLegacy (w_conns w) ->
  legacy_unclassified nLegacy (w_stats w) ->
  w_conns w' = w_conns w
  /\ legacy_unclassified nLegacy (w_stats w')
  /\ length (w_stats w') = length (w_stats w)
  /\ length (w_apps w') = length (w_apps w).
Proof.
  intros Hstep Hm Hleg. destruct l as [|dev n]; simpl in Hstep.
  - unfold dispatch in Hstep.
    destruct (sim_stopped (w_sim w)); [done|].
    destruct (sim_events (w_sim w)) as [|e q]; [done|].
    destruct (ev_cancelled e); [by injection Hstep as <-|].
    destruct (ev_act e) as [i|i|i|dev i|]; simpl_calls_in Hstep.
    + destruct (w_apps w !! i) as [app|]; simpl_calls_in Hstep; [|done].
      destruct (StartApplication draw i app _) as [[app' sim']|];
        simpl_calls_in Hstep; [|done].
      injection Hstep as <-. simpl. by rewrite length_insert.
    + destruct (w_apps w !! i) as [app|]; simpl_calls_in Hstep; [|done].
      destruct (StopApplication app _) as [app' sim'].
      injection Hstep as <-. simpl. by rewrite length_insert.
    + destruct (w_apps w !! i) as [app|]; simpl_calls_in Hstep; [|done].
      destruct (SendOnce draw i app _) as [[app' sim']|];
        simpl_calls_in Hstep; [|done].
      injection Hstep as <-. simpl. by rewrite length_insert.
    + destruct (SampleQueue probe dev i _ _) as [[stats' sim']|] eqn:HS;
        simpl_calls_in Hstep; [|done].
      injection Hstep as <-. simpl. unfold SampleQueue in HS. simpl in HS.
      destruct (SampleQueue_stats i (w_stats w) _) as [stats1|] eqn:H1;
        simpl in HS; [|done].
      injection HS as <- <-.
      destruct (SampleQueue_stats_legacy nLegacy _ _ _ _ H1 Hleg).
      by split_and!.
    + by injection Hstep as <-.
  - destruct (fire _ _ _ _) as [stats'|] eqn:Hf; simpl in Hstep; [|done].
    injection Hstep as <-. simpl.
    destruct (fire_legacy nLegacy _ _ _ _ _ Hf Hm Hleg). by split_and!.
Qed.

Lemma run_table nLegacy ls :
  forall w w',
    run draw probe ls w = Some w' ->
    monitor_only_he nLegacy (w_conns w) ->
    legacy_unclassified nLegacy (w_stats w) ->
    legacy_unclassified nLegacy (w_stats w')
    /\ length (w_stats w') = length (w_stats w)
    /\ length (w_apps w') = length (w_apps w).
Proof.
  induction ls as [|l ls IH]; intros w w' Hrun Hm Hleg; simpl in Hrun.
  - by injection Hrun as <-.
  - destruct (step draw probe l w) as [w1|] eqn:Hstep; [|done].
    destruct (step_table nLegacy _ _ _ Hstep Hm Hleg)
      as (Hc1 & Hleg1 & Hlen1 & Hlena1).
    rewrite <- Hc1 in Hm.
    destruct (IH _ _ Hrun Hm Hleg1) as (Hleg2 & Hlen2 & Hlena2).
    split_and!; [done|congruence|congruence].
Qed.

Lemma boot_table nLegacy cs simStop w0 :
  boot nLegacy cs simStop = Some w0 ->
  monitor_only_he nLegacy (w_conns w0)
  /\ legacy_unclassified nLegacy (w_stats w0)
  /\ length (w_stats w0) = length cs
  /\ length (w_apps w0) = length cs.
Proof.
  intros (_ & Happs & Hstats & Hm)%boot_inv. split_and!; [done| | |].
  - rewrite Hstats. intros i st _ (-> & _)%lookup_replicate. by repeat split.
  - by rewrite Hstats, length_replicate.
  - by rewrite Happs, length_imap.
Qed.

End TableFacts.

(** C10. At every point of every run, hence at its end, the record of a
    Legacy-class station (index below [nLegacy]) has its scheduled-access
    and single-user frame counts and byte totals at 0: the counters start
    at 0 and the classification handler is connected for the other
    stations only. *)
Theorem legacy_stations_unclassified
        (draw : nat -> nat -> Time) (probe : Device -> Time -> option Z)
        (nLegacy : Z) (cs : list AppConfig) (simStop : Time)
        (ls : list Label) (w0 w : World) (i : nat) :
  boot nLegacy cs simStop = Some w0 ->
  run draw probe ls w0 = Some w ->
  Z.of_nat i < nLegacy -> (i < length cs)%nat ->
  exists st,
    w_stats w !! i = Some st
    /\ heTbTxMpdu st = 0 /\ heTbTxBytes st = 0
    /\ heSuTxMpdu st = 0 /\ heSuTxBytes st = 0.
Proof.
  intros Hboot Hrun Hi Hlen.
  destruct (boot_table _ _ _ _ Hboot) as (Hm & Hleg & Hlen0 & _).
  destruct (run_table draw probe nLegacy _ _ _ Hrun Hm Hleg) as (Hleg' & Hlen' & _).
  destruct (lookup_lt_is_Some_2 (w_stats w) i) as [st Hst]; [lia|].
  exists st. split; [done|].
  destruct (Hleg' i st Hi Hst) as (? & ? & ? & ?). by split_and!.
Qed.

Lemma legacy_stations_unclassified_witness :
  exists w st,
    (boot 1 [demo_station (Double.of_Z 100) 0; demo_station (Double.of_Z 100) 0]
          7%N
     ≫= run demo_draw demo_probe
            [LFire (LegacyDev 0) (MonitorSnifferTx (Some 1200) WIFI_PREAMBLE_HE_SU);
             LFire (HeDev 0) (MonitorSnifferTx (Some 1200) WIFI_PREAMBLE_HE_TB);
             LFire (LegacyDev 0) PhyTxDrop; LDispatch]) = Some w
    /\ w_stats w !! 1%nat = Some (mkStaStats 0 0 0 0 0 0 1 0 1200)
    /\ w_stats w !! 0%nat = Some st
    /\ heTbTxMpdu st = 0 /\ heTbTxBytes st = 0
    /\ heSuTxMpdu st = 0 /\ heSuTxBytes st = 0.
Proof.
  edestruct (legacy_stations_unclassified demo_draw demo_probe 1
               [demo_station (Double.of_Z 100) 0;
                demo_station (Double.of_Z 100) 0] 7%N
               [LFire (LegacyDev 0)
                      (MonitorSnifferTx (Some 1200) WIFI_PREAMBLE_HE_SU);
                LFire (HeDev 0)
                      (MonitorSnifferTx (Some 1200) WIFI_PREAMBLE_HE_TB);
                LFire (LegacyDev 0) PhyTxDrop; LDispatch])
    with (i := 0%nat)
    as (st & Hst & H); [vm_compute; reflexivity ..|lia|simpl; lia|].
  eexists _, st. split; [vm_compute; reflexivity|].
  split; [vm_compute; reflexivity|]. split; [exact Hst|exact H].
Defined.

(** ** The traffic source during a run *)

Section SourceFacts.

Variable draw : nat -> nat -> Time.
Variable probe : Device -> Time -> option Z.

(** Every application of a run is the one installed for its station. *)
Lemma reachable_app nLegacy cs simStop w0 ls w i app :
  boot nLegacy cs simStop = Some w0 ->
  run draw probe ls w0 = Some w ->
  w_apps w !! i = Some app ->
  exists c, cs !! i = Some c
            /\ m_lambda app = ac_lambda c
            /\ m_pktSize app = ac_pktSize c
            /\ m_maxPackets app = ac_maxPackets c
            /\ is_u64 (m_sent app).
Proof.
  intros Hboot Hrun Hi.
  destruct (boot_table nLegacy cs simStop w0 Hboot) as (Hm & Hleg & _ & Hlen0).
  destruct (run_table draw probe nLegacy _ _ _ Hrun Hm Hleg) as (_ & _ & Hlen).
  destruct (lookup_lt_is_Some_2 cs i) as [c Hc].
  { apply lookup_lt_Some in Hi. lia. }
  destruct (reachable_inv draw probe _ _ _ _ _ _ Hboot Hrun) as [_ Hcfg].
  destruct (Hcfg i c Hc) as (app' & Hi' & Hfields).
  assert (app' = app) as -> by congruence. by exists c.
Qed.

Lemma dispatch_SendOnce w e q i app :
  sim_stopped (w_sim w) = false ->
  sim_events (w_sim w) = e :: q ->
  ev_cancelled e = false -> ev_act e = ActSendOnce i ->
  w_apps w !! i = Some app ->
  dispatch draw probe w
  = match SendOnce draw i app (w_sim (popped w e q)) with
    | Some (app', sim') =>
        Some (mkWorld sim' (<[i := app']> (w_apps w)) (w_stats w) (w_conns w))
    | None => None
    end.
Proof.
  intros Hst Hq Hc Ha Hi. unfold dispatch. rewrite Hst, Hq, Hc, Ha.
  unfold exec. cbn [popped w_apps w_sim w_stats w_conns]. rewrite Hi.
  reflexivity.
Qed.

End SourceFacts.

(** C2. Whenever the simulator invokes [SendOnce] for a source, the source
    is running, and: if its send cap is set (non-zero) and reached, the
    invocation only consumes the event, changing no application, no counter
    and scheduling nothing; otherwise it passes one packet of [m_pktSize]
    bytes to the socket, makes the sent-count [m_sent + 1] (a 64-bit
    unsigned increment) and schedules the next [SendOnce] of the source one
    drawn delay later, which [m_sendEvent] then refers to. *)
Theorem send_once_behaviour
        (draw : nat -> nat -> Time) (probe : Device -> Time -> option Z)
        (nLegacy : Z) (cs : list AppConfig) (simStop : Time)
        (ls : list Label) (w0 w : World) (i : nat) (app : PoissonUdpApp) :
  boot nLegacy cs simStop = Some w0 ->
  run draw probe ls w0 = Some w ->
  next_action w = Some (ActSendOnce i) ->
  w_apps w !! i = Some app ->
  m_running app = true
  /\ is_u64 (m_sent app)
  /\ (m_sent app + 1 < 2 ^ 64 -> wrap64 (m_sent app + 1) = m_sent app + 1)
  /\ exists e q,
      sim_events (w_sim w) = e :: q
      /\ if cap_reached app
         then dispatch draw probe w = Some (popped w e q)
         else exists sock rng,
             m_socket app = Some sock /\ m_rng app = Some rng
             /\ dispatch draw probe w
                = Some (mkWorld
                          (mkSimulator
                             (ev_ts e) (S (sim_uid (w_sim w)))
                             (insert_event
                                (mkEvent
                                   (ev_ts e
                                    + draw (rv_stream rng) (rv_drawn rng))%N
                                   (sim_uid (w_sim w)) (ActSendOnce i) false)
                                q)
                             false)
                          (<[i := mkApp
                                    (Some (Socket_Send (m_pktSize app) sock))
                                    (m_peer app) (m_pktSize app) (m_lambda app)
                                    (m_maxPackets app)
                                    (wrap64 (m_sent app + 1)) true
                                    (Some (sim_uid (w_sim w)))
                                    (Some (mkRng (rv_mean rng) (rv_stream rng)
                                                 (S (rv_drawn rng))))]>
                             (w_apps w))
                          (w_stats w) (w_conns w)).
Proof.
  intros Hboot Hrun Hnext Hi.
  destruct (reachable_inv draw probe _ _ _ _ _ _ Hboot Hrun) as [Hinv _].
  destruct (reachable_app draw probe _ _ _ _ _ _ _ _ Hboot Hrun Hi)
    as (c & _ & _ & _ & _ & Hu).
  destruct Hinv as [Hwf Happs].
  apply next_action_head in Hnext as (Hst & e & q & Hq & Hc & Ha).
  pose proof (Happs i app Hi) as Hinv.
  assert (Hin : e ∈ sim_events (w_sim w)) by (rewrite Hq; left).
  destruct (ai_send _ _ _ Hinv e Hin Ha Hc)
    as (Htrack & Hon & Hrate & [sock Hsock]).
  destruct (ai_rng _ _ _ Hinv) as [rng Hrng].
  split; [done|]. split; [done|]. split.
  { intros Hlt. apply wrap64_small. unfold is_u64 in *. lia. }
  exists e, q. split; [done|].
  rewrite (dispatch_SendOnce draw probe w e q i app Hst Hq Hc Ha Hi).
  unfold SendOnce, cap_reached. rewrite Hon. simpl.
  destruct (negb (m_maxPackets app =? 0) && (m_maxPackets app <=? m_sent app)).
  - unfold popped. by rewrite list_insert_id.
  - exists sock, rng. split; [done|]. split; [done|].
    rewrite Hsock. simpl.
    rewrite (ScheduleNext_active draw _ _ _ rng); [|done|done|done].
    unfold set_sendEvent, set_sent, set_socket. simpl. rewrite Hon.
    reflexivity.
Qed.

Lemma send_once_behaviour_witness :
  exists w app w',
    (boot 1 [demo_station (Double.of_Z 100) 0] 7%N
     ≫= run demo_draw demo_probe [LDispatch]) = Some w
    /\ next_action w = Some (ActSendOnce 0)
    /\ w_apps w !! 0%nat = Some app
    /\ m_running app = true /\ cap_reached app = false
    /\ dispatch demo_draw demo_probe w = Some w'
    /\ (m_sent <$> w_apps w' !! 0%nat) = Some (m_sent app + 1)
    /\ (m_socket <$> w_apps w' !! 0%nat)
       = Some (Socket_Send 1200 <$> m_socket app)
    /\ send_pending 0 (sim_events (w_sim w')) = true.
Proof.
  edestruct (send_once_behaviour demo_draw demo_probe 1
               [demo_station (Double.of_Z 100) 0] 7%N [LDispatch])
    with (i := 0%nat)
    as (Hr & Hu & Hw & e & q & Hq & H);
    [vm_compute; reflexivity ..|].
  eexists _, _, _. split; [vm_compute; reflexivity|].
  split; [vm_compute; reflexivity|]. split; [vm_compute; reflexivity|].
  split; [exact Hr|]. split; [vm_compute; reflexivity|].
  split; [vm_compute; reflexivity|].
  split; [vm_compute; reflexivity|].
  split; [vm_compute; reflexivity|]. vm_compute; reflexivity.
Defined.

(** The capped case on a concrete source: with a cap of 1, the second
    [SendOnce] sends nothing and schedules nothing. *)
Example send_cap_example :
  exists w w' app,
    (boot 1 [demo_station_late (Double.of_Z 100) 1] 11%N
     ≫= run demo_draw demo_probe [LDispatch; LDispatch]) = Some w
    /\ next_action w = Some (ActSendOnce 0)
    /\ w_apps w !! 0%nat = Some app /\ cap_reached app = true
    /\ dispatch demo_draw demo_probe w = Some w'
    /\ w_apps w' = w_apps w
    /\ send_pending 0 (sim_events (w_sim w')) = false.
Proof.
  eexists _, _, _. split; [vm_compute; reflexivity|].
  repeat (split; [vm_compute; reflexivity|]). vm_compute; reflexivity.
Qed.

(** C3. A source whose rate is not positive ([m_lambda <= 0.0]):
    [ScheduleNext] returns without scheduling anything, whatever the state
    of the simulator; and at every point of every run, whatever its length,
    the source has no send pending, is never handed a [SendOnce], and its
    sent-count is 0. *)
Theorem nonpositive_rate_idle
        (draw : nat -> nat -> Time) (probe : Device -> Time -> option Z)
        (nLegacy : Z) (cs : list AppConfig) (simStop : Time)
        (ls : list Label) (w0 w : World) (i : nat) (c : AppConfig) :
  boot nLegacy cs simStop = Some w0 ->
  run draw probe ls w0 = Some w ->
  cs !! i = Some c ->
  Double.leb (ac_lambda c) Double.zero = true ->
  exists app,
    w_apps w !! i = Some app
    /\ m_lambda app = ac_lambda c
    /\ (forall sim, ScheduleNext draw i app sim = Some (app, sim))
    /\ m_sent app = 0
    /\ send_pending i (sim_events (w_sim w)) = false
    /\ next_action w <> Some (ActSendOnce i).
Proof.
  intros Hboot Hrun Hc Hrate.
  destruct (reachable_inv draw probe _ _ _ _ _ _ Hboot Hrun) as [Hinv Hcfg].
  destruct (Hcfg i c Hc) as (app & Hi & Hl & _).
  rewrite <- Hl in Hrate.
  destruct Hinv as [Hwf Happs]. pose proof (Happs i app Hi) as Hinv.
  assert (Hnone : forall e, e ∈ sim_events (w_sim w) ->
                            ev_act e = ActSendOnce i ->
                            ev_cancelled e = true).
  { intros e He Ha. destruct (ev_cancelled e) eqn:Hcn; [done|].
    destruct (ai_send _ _ _ Hinv e He Ha Hcn) as (_ & _ & Hpos & _).
    congruence. }
  exists app. split_and!; try done.
  - intros sim. apply ScheduleNext_idle. by right.
  - by apply (ai_idle _ _ _ Hinv).
  - by apply send_pending_false.
  - intros (_ & e & q & Hq & Hcn & Ha)%next_action_head.
    rewrite (Hnone e) in Hcn; [done| |done]. rewrite Hq. left.
Qed.

Lemma nonpositive_rate_idle_witness :
  exists w app,
    (boot 1 [demo_station (Double.of_Z (-3)) 0] 7%N
     ≫= run demo_draw demo_probe [LDispatch]) = Some w
    /\ w_apps w !! 0%nat = Some app
    /\ m_running app = true
    /\ m_sent app = 0
    /\ send_pending 0 (sim_events (w_sim w)) = false.
Proof.
  edestruct (nonpositive_rate_idle demo_draw demo_probe 1
               [demo_station (Double.of_Z (-3)) 0] 7%N [LDispatch])
    with (i := 0%nat)
    as (app & Hi & _ & _ & Hs & Hp & _);
    [vm_compute; reflexivity ..|].
  eexists _, app. split; [vm_compute; reflexivity|].
  split; [exact Hi|]. split; [|by split].
  vm_compute in Hi. injection Hi as <-. reflexivity.
Defined.

(** ** Doubles: conversion of a positive integer *)

Lemma shr_1_pos p r s :
  1 < Zpos (digits2_pos p) ->
  exists p' r' s',
    shr_1 (Build_shr_record (Zpos p) r s) = Build_shr_record (Zpos p') r' s'
    /\ Zpos (digits2_pos p') = Zpos (digits2_pos p) - 1.
Proof.
  intros H. destruct p as [p|p|]; cbn [digits2_pos] in *;
    rewrite ?Pos2Z.inj_succ in *.
  - exists p, true, (orb r s). split; [reflexivity|lia].
  - exists p, false, (orb r s). split; [reflexivity|lia].
  - lia.
Qed.

Lemma shr_iter_pos k :
  forall p r s,
    Zpos k < Zpos (digits2_pos p) ->
    exists p' r' s',
      SpecFloat.iter_pos shr_1 k (Build_shr_record (Zpos p) r s)
      = Build_shr_record (Zpos p') r' s'
      /\ Zpos (digits2_pos p') = Zpos (digits2_pos p) - Zpos k.
Proof.
  induction k as [k IH|k IH|]; intros p r s Hk; cbn [SpecFloat.iter_pos].
  - destruct (shr_1_pos p r s) as (p1 & r1 & s1 & -> & H1); [lia|].
    destruct (IH p1 r1 s1) as (p2 & r2 & s2 & -> & H2); [lia|].
    destruct (IH p2 r2 s2) as (p3 & r3 & s3 & -> & H3); [lia|].
    exists p3, r3, s3. split; [reflexivity|lia].
  - destruct (IH p r s) as (p2 & r2 & s2 & -> & H2); [lia|].
    destruct (IH p2 r2 s2) as (p3 & r3 & s3 & -> & H3); [lia|].
    exists p3, r3, s3. split; [reflexivity|lia].
  - destruct (shr_1_pos p r s) as (p1 & r1 & s1 & -> & H1); [lia|].
    exists p1, r1, s1. split; [reflexivity|lia].
Qed.

Lemma digits2_pos_succ q :
  Zpos (digits2_pos q) <= Zpos (digits2_pos (Pos.succ q))
  <= Zpos (digits2_pos q) + 1.
Proof.
  induction q as [q IH|q IH|].
  - change (Pos.succ q~1) with ((Pos.succ q)~0)%positive.
    cbn [digits2_pos]. rewrite !Pos2Z.inj_succ. lia.
  - change (Pos.succ q~0) with (q~1)%positive.
    cbn [digits2_pos]. rewrite !Pos2Z.inj_succ. lia.
  - change (Pos.succ 1) with 2%positive. cbn [digits2_pos].
    rewrite !Pos2Z.inj_succ. lia.
Qed.

Lemma round_nearest_even_pos q l :
  exists q', round_nearest_even (Zpos q) l = Zpos q'
             /\ Zpos (digits2_pos q) <= Zpos (digits2_pos q')
                <= Zpos (digits2_pos q) + 1.
Proof.
  assert (Hs : Z.add (Zpos q) 1 = Zpos (Pos.succ q)) by (simpl; f_equal; lia).
  pose proof (digits2_pos_succ q).
  unfold round_nearest_even.
  destruct l as [|[| |]]; try (exists q; split; [reflexivity|lia]).
  - destruct (Z.even (Zpos q)); [exists q; split; [reflexivity|lia]|].
    rewrite Hs. exists (Pos.succ q). split; [reflexivity|lia].
  - rewrite Hs. exists (Pos.succ q). split; [reflexivity|lia].
Qed.

(** Shifting a mantissa of at least 53 bits down to 53 bits. *)
Lemma shr_fexp_pos m e l :
  53 <= Zpos (digits2_pos m) -> -1074 <= e ->
  exists m' r' s',
    shr_fexp Double.prec Double.emax (Zpos m) e l
    = (Build_shr_record (Zpos m') r' s', e + (Zpos (digits2_pos m) - 53))
    /\ Zpos (digits2_pos m') = 53.
Proof.
  intros Hd He. unfold shr_fexp, shr, fexp, emin, Double.prec, Double.emax. simpl Zdigits2.
  replace (Z.max (Zpos (digits2_pos m) + e - 53) (3 - 1024 - 53) - e)
    with (Zpos (digits2_pos m) - 53) by lia.
  destruct (Zpos (digits2_pos m) - 53) as [|k|k] eqn:Hk; [|  |lia].
  - destruct l as [|[| |]]; simpl; eexists _, _, _;
      (split; [rewrite Z.add_0_r; reflexivity|lia]).
  - destruct (shr_iter_pos k m (shr_r (shr_record_of_loc (Zpos m) l))
                (shr_s (shr_record_of_loc (Zpos m) l)))
      as (m' & r' & s' & Hit & Hdig); [lia|].
    exists m', r', s'. split; [|lia].
    replace (shr_record_of_loc (Zpos m) l)
      with (Build_shr_record (Zpos m)
              (shr_r (shr_record_of_loc (Zpos m) l))
              (shr_s (shr_record_of_loc (Zpos m) l)))
      by (destruct l as [|[| |]]; reflexivity).
    rewrite Hit. reflexivity.
Qed.

Lemma binary_round_aux_pos m e l :
  53 <= Zpos (digits2_pos m) -> -1074 <= e ->
  e + Zpos (digits2_pos m) <= 1023 ->
  exists m' e', binary_round_aux Double.prec Double.emax false (Zpos m) e l
                = S754_finite false m' e'.
Proof.
  intros Hd He Hmax. unfold binary_round_aux.
  destruct (shr_fexp_pos m e l Hd He) as (m1 & r1 & s1 & -> & H1).
  cbn [shr_m].
  destruct (round_nearest_even_pos m1
              (loc_of_shr_record (Build_shr_record (Zpos m1) r1 s1)))
    as (m2 & -> & H2).
  destruct (shr_fexp_pos m2 (e + (Zpos (digits2_pos m) - 53)) loc_Exact)
    as (m3 & r3 & s3 & -> & H3); [lia|lia|].
  cbn [shr_m]. exists m3. eexists.
  replace (_ <=? _) with true; [reflexivity|].
  symmetry. apply Z.leb_le. unfold Double.emax, Double.prec. lia.
Qed.

Lemma digits2_pos_iter_xO k p :
  Zpos (digits2_pos (Pos.iter xO p k)) = Zpos (digits2_pos p) + Zpos k.
Proof.
  induction k as [|k IH] using Pos.peano_ind.
  - cbn [Pos.iter digits2_pos]. lia.
  - rewrite Pos.iter_succ. cbn [digits2_pos]. lia.
Qed.

Lemma digits2_pos_size p : digits2_pos p = Pos.size p.
Proof. induction p as [p IH|p IH|]; cbn [digits2_pos Pos.size]; congruence. Qed.

Lemma digits2_pos_bound p k :
  0 <= k -> Zpos p < 2 ^ k -> Zpos (digits2_pos p) <= k.
Proof.
  intros Hk Hp. rewrite digits2_pos_size.
  pose proof (Pos.size_le p) as Hle.
  apply Pos2Z.pos_le_pos in Hle. rewrite Pos2Z.inj_pow in Hle.
  change (Zpos p~0) with (2 * Zpos p) in Hle.
  destruct (Z.le_gt_cases (Zpos (Pos.size p)) k) as [|Hgt]; [assumption|].
  exfalso.
  assert (2 ^ (k + 1) <= 2 ^ Zpos (Pos.size p))
    by (apply Z.pow_le_mono_r; lia).
  rewrite Z.pow_add_r in * by lia. lia.
Qed.

(** The conversion of a positive 64-bit integer is a positive finite
    number: never a zero, an infinity or a NaN. *)
Lemma of_Z_pos n :
  0 < n < 2 ^ 64 -> exists m e, Double.of_Z n = S754_finite false m e.
Proof.
  intros [Hpos Hlt]. destruct n as [|p|p]; [lia| |lia].
  pose proof (digits2_pos_bound p 64 ltac:(lia) Hlt) as Hd.
  unfold Double.of_Z, binary_normalize, binary_round, shl_align, fexp, emin,
    Double.prec, Double.emax.
  replace (Z.max (Zpos (digits2_pos p) + 0 - 53) (3 - 1024 - 53) - 0)
    with (Zpos (digits2_pos p) - 53) by lia.
  replace (Z.max (Zpos (digits2_pos p) + 0 - 53) (3 - 1024 - 53))
    with (Zpos (digits2_pos p) - 53) by lia.
  destruct (Zpos (digits2_pos p) - 53) as [|k|k] eqn:Hk.
  - apply binary_round_aux_pos; lia.
  - apply binary_round_aux_pos; lia.
  - pose proof (digits2_pos_iter_xO k p).
    apply binary_round_aux_pos; lia.
Qed.

(** ** The report *)

Lemma avgQ_no_sample st : qSamples st = 0 -> avgQ st = Double.zero.
Proof. unfold avgQ. by intros ->. Qed.

Lemma avgQ_samples st :
  0 < qSamples st ->
  avgQ st = Double.div (Double.of_Z (qBytesSum st)) (Double.of_Z (qSamples st)).
Proof.
  unfold avgQ. intros H. by replace (0 <? qSamples st) with true by lia.
Qed.

(** C8. For every station the report gives the throughput
    [rxBytes * 8 / (interval * 1e6)] and the average queue occupancy
    [qBytesSum / qSamples], both in [double] arithmetic as the source
    computes them; the occupancy is exactly [+0.0] when there is no sample,
    and when the division is performed its divisor is a positive finite
    number, never zero. *)
Theorem results_reduction
        (nLegacy nTotal : Z) (interval : double) (sinksRx : list Z)
        (lambdas : list double) (stats : list StaStats) :
  length sinksRx = Z.to_nat nTotal ->
  length lambdas = Z.to_nat nTotal ->
  length stats = Z.to_nat nTotal ->
  (forall st, st ∈ stats -> is_u64 (qSamples st)) ->
  exists out,
    results_loop nLegacy nTotal interval sinksRx lambdas stats = Some out
    /\ length out = Z.to_nat nTotal
    /\ forall i, (i < Z.to_nat nTotal)%nat ->
         exists line rxBytes st,
           out !! i = Some line /\ sinksRx !! i = Some rxBytes
           /\ stats !! i = Some st
           /\ rl_index line = i /\ rl_stats line = st
           /\ rl_thrMbps line
              = Double.div (Double.mul (Double.of_Z rxBytes) (Double.of_Z 8))
                           (Double.mul interval (Double.of_Z 1000000))
           /\ (qSamples st = 0 -> rl_avgQ line = Double.zero)
           /\ (0 < qSamples st ->
               rl_avgQ line = Double.div (Double.of_Z (qBytesSum st))
                                         (Double.of_Z (qSamples st))
               /\ Double.is_finite_pos (Double.of_Z (qSamples st)) = true).
Proof.
  intros Hrx Hlam Hst Hu. unfold results_loop.
  edestruct (for_range_inv
    (fun k (out : list ResultLine) =>
       length out = k
       /\ forall i, (i < k)%nat ->
            exists line rxBytes st,
              out !! i = Some line /\ sinksRx !! i = Some rxBytes
              /\ stats !! i = Some st
              /\ rl_index line = i /\ rl_stats line = st
              /\ rl_thrMbps line
                 = Double.div (Double.mul (Double.of_Z rxBytes) (Double.of_Z 8))
                              (Double.mul interval (Double.of_Z 1000000))
              /\ (qSamples st = 0 -> rl_avgQ line = Double.zero)
              /\ (0 < qSamples st ->
                  rl_avgQ line = Double.div (Double.of_Z (qBytesSum st))
                                            (Double.of_Z (qSamples st))
                  /\ Double.is_finite_pos (Double.of_Z (qSamples st)) = true)))
    as (out & Hout & Hlen & Hlines); [| |exists out; split; [exact Hout|]].
  - split; [done|]. intros i Hi. lia.
  - intros k out Hk [Hlen Hlines].
    destruct (lookup_lt_is_Some_2 sinksRx k) as [rx Hrxk]; [lia|].
    destruct (lookup_lt_is_Some_2 stats k) as [st Hstk]; [lia|].
    destruct (lookup_lt_is_Some_2 lambdas k) as [lam Hlamk]; [lia|].
    unfold vec_get. rewrite Hrxk, Hstk, Hlamk. simpl.
    eexists. split; [reflexivity|].
    split; [rewrite length_app; simpl; lia|].
    intros i Hi. destruct (decide (i = k)) as [->|Hne].
    + eexists _, rx, st. split.
      { rewrite lookup_app_r by lia. rewrite Hlen, Nat.sub_diag. reflexivity. }
      simpl. split_and!; try done.
      * apply avgQ_no_sample.
      * intros Hpos. split; [by apply avgQ_samples|].
        assert (is_u64 (qSamples st)) as [_ Hlt].
        { apply Hu. by eapply list_elem_of_lookup_2. }
        destruct (of_Z_pos (qSamples st)) as (m & e & ->); [lia|done].
    + destruct (Hlines i) as (line & rxi & sti & Hl & Hrest); [lia|].
      exists line, rxi, sti. split; [|done].
      rewrite lookup_app_l by lia. done.
  - split; [done|]. exact Hlines.
Qed.

Lemma results_reduction_witness :
  exists out,
    results_loop 1 1 (Double.of_Z 10) [1200000] [Double.of_Z 100]
                 [mkStaStats 0 0 0 3000 2 0 0 0 0]
    = Some out
    /\ (rl_thrMbps <$> out !! 0%nat) = Some (Double.of_decimal 96 (-2))
    /\ (rl_avgQ <$> out !! 0%nat) = Some (Double.of_Z 1500).
Proof.
  destruct (results_reduction 1 1 (Double.of_Z 10) [1200000] [Double.of_Z 100]
                              [mkStaStats 0 0 0 3000 2 0 0 0 0])
    as (out & Hout & _ & _); try reflexivity.
  { intros st ->%list_elem_of_singleton. unfold is_u64. simpl. lia. }
  exists out. split; [exact Hout|].
  vm_compute in Hout. injection Hout as <-. split; reflexivity.
Defined.

(** The end-to-end figures of the spec: 1,200,000 bytes received in 10 s
    is the [double] nearest to 0.96 Mbps; with no queue sample the average
    is [+0.0]. *)
Example report_values :
  thrMbps 1200000 (Double.of_Z 10) = Double.of_decimal 96 (-2)
  /\ avgQ StaStats_default = Double.zero
  /\ avgQ (mkStaStats 0 0 0 3000 2 0 0 0 0) = Double.of_Z 1500.
Proof. repeat split. Qed.


(** * Further properties *)

(** ** The rate-list parser *)

Lemma string_app_cons c s t : String c s +:+ t = String c (s +:+ t).
Proof. reflexivity. Qed.

Lemma string_app_nil_l t : EmptyString +:+ t = t.
Proof. reflexivity. Qed.

Lemma string_app_nil_r s : s +:+ EmptyString = s.
Proof.
  induction s as [|c s IH]; [done|]. by rewrite string_app_cons, IH.
Qed.

Lemma string_app_assoc a b c : (a +:+ b) +:+ c = a +:+ (b +:+ c).
Proof.
  induction a as [|x a IH]; [done|]. by rewrite !string_app_cons, IH.
Qed.

Lemma has_comma_app a b : has_comma (a +:+ b) = has_comma a || has_comma b.
Proof.
  induction a as [|x a IH]; [done|].
  rewrite string_app_cons. cbn [has_comma]. rewrite IH. by rewrite orb_assoc.
Qed.

Lemma getline_items_no_comma s :
  forall item0 item,
    has_comma item0 = false ->
    item ∈ getline_items s item0 -> has_comma item = false.
Proof.
  induction s as [|c s IH]; intros item0 item H0 Hin; simpl in Hin.
  - destruct item0; [by apply elem_of_nil in Hin|].
    by apply list_elem_of_singleton in Hin as ->.
  - destruct (Ascii.eqb c ",") eqn:Hc.
    + apply elem_of_cons in Hin as [->|Hin]; [done|].
      apply (IH EmptyString item); [reflexivity|exact Hin].
    + apply (IH _ item) in Hin; [done|]. rewrite has_comma_app, H0.
      cbn [has_comma orb]. by rewrite Hc.
Qed.

Lemma getline_items_nonempty c s item0 : getline_items (String c s) item0 <> [].
Proof.
  revert c item0. induction s as [|d s IH]; intros c item0; simpl.
  - destruct (Ascii.eqb c ","); [done|].
    by destruct item0.
  - destruct (Ascii.eqb c ","); [done|]. apply IH.
Qed.

Lemma join_comma_cons item rest :
  rest <> [] -> join_comma (item :: rest) = item +:+ String "," (join_comma rest).
Proof. by destruct rest. Qed.

Lemma getline_items_join s :
  forall item0,
    join_comma (getline_items s item0)
    +:+ (if ends_with_comma s then "," else EmptyString)
    = item0 +:+ s.
Proof.
  induction s as [|c s IH]; intros item0.
  - destruct item0 as [|x item0]; [done|].
    cbn [getline_items join_comma ends_with_comma].
    by rewrite !string_app_nil_r.
  - cbn [getline_items]. destruct (Ascii.eqb c ",") eqn:Hc.
    + apply Ascii.eqb_eq in Hc as ->. destruct s as [|d s].
      * cbn [getline_items join_comma ends_with_comma]. done.
      * rewrite join_comma_cons by apply getline_items_nonempty.
        rewrite string_app_assoc, string_app_cons.
        change (ends_with_comma (String "," (String d s)))
          with (ends_with_comma (String d s)).
        by rewrite (IH EmptyString), string_app_nil_l.
    + replace (ends_with_comma (String c s)) with (ends_with_comma s).
      * rewrite IH. rewrite string_app_assoc. done.
      * destruct s; cbn [ends_with_comma]; [by rewrite Hc|done].
Qed.

(** X1. Splitting at the commas loses nothing but one trailing comma: no
    entry contains a comma, and the entries written back with commas
    between them, plus the trailing comma if the text had one, are the
    text. *)
Theorem entries_round_trip (s : string) :
  (forall item, item ∈ entries s -> has_comma item = false)
  /\ join_comma (entries s)
     +:+ (if ends_with_comma s then "," else EmptyString) = s.
Proof.
  split.
  - intros item. by apply getline_items_no_comma.
  - apply (getline_items_join s EmptyString).
Qed.

Lemma parse_items_ok items :
  forall acc out,
    parse_items items acc = inr out <->
    exists vs, out = acc ++ vs
               /\ Forall2 (fun item x => Stod.stod item = inr x)
                          (filter (fun item => item <> EmptyString) items) vs.
Proof.
  induction items as [|item items IH]; intros acc out; simpl.
  - split.
    + intros [= <-]. exists []. rewrite app_nil_r. split; [done|constructor].
    + intros (vs & -> & Hvs). apply Forall2_nil_inv_l in Hvs as ->.
      by rewrite app_nil_r.
  - destruct item as [|c r].
    + rewrite filter_cons_False by (intros H; by apply H). apply IH.
    + rewrite filter_cons_True by done.
      destruct (Stod.stod (String c r)) as [e|x] eqn:Hx.
      * split; [done|]. intros (vs & _ & Hvs).
        apply Forall2_cons_inv_l in Hvs as (y & vs' & Hy & _ & _). congruence.
      * rewrite IH. split.
        -- intros (vs & -> & Hvs). exists (x :: vs).
           split; [by rewrite <- app_assoc|]. by constructor.
        -- intros (vs & -> & Hvs).
           apply Forall2_cons_inv_l in Hvs as (y & vs' & Hy & Hvs' & ->).
           assert (y = x) as -> by congruence.
           exists vs'. split; [by rewrite <- app_assoc|done].
Qed.

(** X2. [ParseCsvDoubles] succeeds exactly when [std::stod] converts every
    non-empty entry, and its result then holds the values of the non-empty
    entries, in order: the empty entries leave no trace. *)
Theorem ParseCsvDoubles_values (s : string) (out : list double) :
  ParseCsvDoubles s = inr out <->
  Forall2 (fun item x => Stod.stod item = inr x) (nonempty_entries s) out.
Proof.
  unfold ParseCsvDoubles, nonempty_entries, entries.
  destruct s as [|c r].
  - simpl. rewrite filter_nil. split.
    + intros [= <-]. constructor.
    + by intros ->%Forall2_nil_inv_l.
  - rewrite parse_items_ok. split.
    + by intros (vs & -> & Hvs).
    + intros H. by exists out.
Qed.

Lemma parse_items_error items :
  forall acc e,
    parse_items items acc = inl e <->
    exists before item after,
      filter (fun item => item <> EmptyString) items = before ++ item :: after
      /\ Forall (fun it => exists x, Stod.stod it = inr x) before
      /\ Stod.stod item = inl e.
Proof.
  induction items as [|item items IH]; intros acc e; simpl.
  - split; [done|]. intros (b & it & a & H & _). rewrite filter_nil in H.
    by destruct b.
  - destruct item as [|c r].
    + rewrite filter_cons_False by (intros H; by apply H). apply IH.
    + rewrite filter_cons_True by done.
      destruct (Stod.stod (String c r)) as [e'|x] eqn:Hx.
      * split.
        -- intros [= <-]. eexists [], (String c r), _. split; [done|].
           split; [constructor|done].
        -- intros ([|b0 b] & it & a & H & Hb & He); simpl in H.
           ++ injection H as <- _. congruence.
           ++ injection H as <- _. apply Forall_cons in Hb as [[y Hy] _].
              congruence.
      * rewrite IH. split.
        -- intros (b & it & a & H & Hb & He).
           exists (String c r :: b), it, a. rewrite H. split; [done|].
           split; [|done]. constructor; [by exists x|done].
        -- intros ([|b0 b] & it & a & H & Hb & He); simpl in H.
           ++ injection H as <- _. congruence.
           ++ injection H as <- H. apply Forall_cons in Hb as [_ Hb].
              by exists b, it, a.
Qed.

(** X3. When [ParseCsvDoubles] fails, the exception is the one of the first
    non-empty entry [std::stod] rejects: the entries before it convert, the
    entries after it are not looked at. *)
Theorem ParseCsvDoubles_first_error (s : string) (e : Stod.error) :
  ParseCsvDoubles s = inl e <->
  exists before item after,
    nonempty_entries s = before ++ item :: after
    /\ Forall (fun it => exists x, Stod.stod it = inr x) before
    /\ Stod.stod item = inl e.
Proof.
  unfold ParseCsvDoubles, nonempty_entries, entries.
  destruct s as [|c r]; [|apply parse_items_error].
  simpl. rewrite filter_nil. split; [done|].
  intros (b & it & a & H & _). by destruct b.
Qed.

(** ** Lambda assignment: long lists and overflowing counts *)

Lemma for_range_vec_set_overrun {A} (x : nat -> A) :
  forall n lo (l : list A),
    (lo <= length l < lo + n)%nat ->
    for_range lo n (fun i l => vec_set l i (x i)) l = None.
Proof.
  induction n as [|n IH]; intros lo l Hl; [lia|]. cbn [for_range].
  unfold vec_set at 1. case_decide as Hlo; [|done].
  apply IH. rewrite length_insert. lia.
Qed.

(** X4. With an explicit list at least as long as the number of stations,
    the rate vector is the first [N] entries of the list: the surplus
    entries are ignored, and so are both default rates. *)
Theorem long_list_truncated
        (nLegacy mHe : Z) (parsed : list double)
        (lambdaLegacy lambdaHe : double) :
  parsed <> [] ->
  (Z.to_nat (nTotal nLegacy mHe) <= length parsed)%nat ->
  LambdaAssignment nLegacy mHe parsed lambdaLegacy lambdaHe
  = Some (take (Z.to_nat (nTotal nLegacy mHe)) parsed).
Proof.
  intros Hne Hlen.
  destruct (LambdaAssignment_list nLegacy mHe lambdaLegacy lambdaHe parsed Hne)
    as (l & -> & Hl & Hval).
  f_equal. apply list_eq. intros i.
  destruct (decide (i < Z.to_nat (nTotal nLegacy mHe))%nat) as [Hi|Hi].
  - rewrite Hval by done. rewrite lookup_take_lt by done.
    unfold list_rate. by rewrite decide_True by lia.
  - rewrite lookup_take_ge by lia. apply lookup_ge_None. lia.
Qed.

Lemma long_list_truncated_witness :
  LambdaAssignment 1 1 [Double.of_Z 5; Double.of_Z 6; Double.of_Z 7]
                   Double.zero Double.zero
  = Some [Double.of_Z 5; Double.of_Z 6].
Proof.
  rewrite (long_list_truncated 1 1 [Double.of_Z 5; Double.of_Z 6; Double.of_Z 7]);
    [reflexivity|discriminate|vm_compute; lia].
Defined.

(** X5. Without a list, station counts whose sum does not fit 32 bits make
    the first default-rate loop write past the end of the vector, which was
    sized with the wrapped sum: the behaviour of [main] is undefined. *)
Theorem default_rates_overflow
        (nLegacy mHe : Z) (lambdaLegacy lambdaHe : double) :
  is_u32 nLegacy -> is_u32 mHe -> 2 ^ 32 <= nLegacy + mHe ->
  LambdaAssignment nLegacy mHe [] lambdaLegacy lambdaHe = None.
Proof.
  unfold is_u32. intros HL HH Hsum. unfold LambdaAssignment.
  rewrite bool_decide_true by done. cbn [negb].
  assert (HN : nTotal nLegacy mHe = nLegacy + mHe - 2 ^ 32).
  { unfold nTotal, wrap32.
    rewrite <- (Z.mod_add _ (-1)) by lia.
    rewrite Z.mod_small by lia. lia. }
  rewrite (for_range_vec_set_overrun (fun _ => lambdaLegacy)); [done|].
  rewrite length_replicate, HN. lia.
Qed.

Lemma default_rates_overflow_witness :
  LambdaAssignment (2 ^ 32 - 1) 1 [] Double.zero Double.zero = None.
Proof.
  apply (default_rates_overflow (2 ^ 32 - 1) 1 Double.zero Double.zero);
    unfold is_u32; lia.
Defined.

(** ** The counter table: order of the notifications *)

Lemma update_sta_alter stats i f :
  update_sta stats i f
  = if decide (i < length stats)%nat then Some (alter f i stats) else None.
Proof.
  destruct (decide (i < length stats)%nat) as [Hi|Hi].
  - destruct (lookup_lt_is_Some_2 stats i Hi) as [st Hst].
    rewrite (update_sta_Some _ _ _ _ Hst). f_equal. apply list_eq. intros j.
    destruct (decide (j = i)) as [->|Hne].
    + rewrite list_lookup_insert_eq by done.
      by rewrite list_lookup_alter_eq, Hst.
    + by rewrite list_lookup_insert_ne, list_lookup_alter_ne.
  - unfold update_sta, vec_get. rewrite lookup_ge_None_2 by lia. done.
Qed.

Lemma invoke_effect cb n stats :
  invoke cb n stats = apply_effect (effect cb n) stats.
Proof.
  destruct cb as [i|i|i|i], n as [| | |p pre]; try reflexivity;
    cbn [invoke effect apply_effect]; try apply update_sta_alter.
  unfold OnHePhyTxMonitor.
  destruct pre; try reflexivity; cbn [apply_effect];
    rewrite update_sta_alter;
    (destruct (decide (i < length stats)%nat) as [Hi|Hi]; [|reflexivity]);
    cbn [mbind option_bind];
    rewrite update_sta_alter, length_alter, decide_True by done;
    by rewrite list_alter_alter_eq.
Qed.

Lemma wrap64_add_swap x a b :
  wrap64 (wrap64 (x + a) + b) = wrap64 (wrap64 (x + b) + a).
Proof.
  unfold wrap64. rewrite !Zplus_mod_idemp_l. f_equal. lia.
Qed.

Lemma effect_commute cb1 n1 cb2 n2 i f j g st :
  effect cb1 n1 = Some (i, f) -> effect cb2 n2 = Some (j, g) ->
  f (g st) = g (f st).
Proof.
  intros H1 H2.
  destruct cb1 as [?|?|?|?], n1 as [| | |p1 pre1]; try discriminate;
    try (destruct pre1; try discriminate); injection H1 as <- <-;
    (destruct cb2 as [?|?|?|?], n2 as [| | |p2 pre2]; try discriminate;
     try (destruct pre2; try discriminate); injection H2 as <- <-);
    destruct st; unfold set_collisionsLike, set_finalFailures, set_phyTxDrops,
      set_heTbTxBytes, set_heTbTxMpdu, set_heSuTxBytes, set_heSuTxMpdu; simpl;
    f_equal; apply wrap64_add_swap.
Qed.

Lemma apply_effect_commute cb1 n1 cb2 n2 stats :
  apply_effect (effect cb1 n1) stats ≫= apply_effect (effect cb2 n2)
  = apply_effect (effect cb2 n2) stats ≫= apply_effect (effect cb1 n1).
Proof.
  destruct (effect cb1 n1) as [[i f]|] eqn:H1,
           (effect cb2 n2) as [[j g]|] eqn:H2; simpl.
  2-4: by repeat case_decide.
  repeat case_decide; simpl; rewrite ?length_alter;
    repeat case_decide; try done; try lia.
  f_equal. destruct (decide (i = j)) as [->|Hne].
  - rewrite !list_alter_alter_eq. apply list_alter_ext; [|done].
    intros st _. simpl. symmetry. by eapply effect_commute.
  - by rewrite list_alter_alter_ne.
Qed.

Lemma invoke_commute cb1 n1 cb2 n2 stats :
  invoke cb1 n1 stats ≫= invoke cb2 n2
  = invoke cb2 n2 stats ≫= invoke cb1 n1.
Proof.
  pose proof (apply_effect_commute cb1 n1 cb2 n2 stats) as H.
  rewrite !invoke_effect.
  destruct (apply_effect (effect cb1 n1) stats) as [s1|],
           (apply_effect (effect cb2 n2) stats) as [s2|]; simpl in *;
    rewrite ?invoke_effect; done.
Qed.

Lemma invoke_fire_commute cb n conns d2 n2 :
  forall stats,
    invoke cb n stats ≫= fire conns d2 n2
    = fire conns d2 n2 stats ≫= invoke cb n.
Proof.
  induction conns as [|c conns IH]; intros stats; cbn [fire].
  - simpl. by destruct (invoke cb n stats).
  - destruct (device_eqb (cn_dev c) d2); [|apply IH].
    pose proof (invoke_commute cb n (cn_cb c) n2 stats) as H.
    destruct (invoke (cn_cb c) n2 stats) as [s2|] eqn:E2; simpl in *.
    + rewrite <- IH.
      destruct (invoke cb n stats) as [s1|]; simpl in *;
        [by rewrite H|by rewrite <- H].
    + destruct (invoke cb n stats) as [s1|]; simpl in *; by rewrite ?H.
Qed.

Lemma fire_commute conns d1 n1 conns' d2 n2 :
  forall stats,
    fire conns d1 n1 stats ≫= fire conns' d2 n2
    = fire conns' d2 n2 stats ≫= fire conns d1 n1.
Proof.
  induction conns as [|c conns IH]; intros stats; cbn [fire].
  - simpl. by destruct (fire conns' d2 n2 stats).
  - destruct (device_eqb (cn_dev c) d1); [|apply IH].
    pose proof (invoke_fire_commute (cn_cb c) n1 conns' d2 n2 stats) as H.
    destruct (invoke (cn_cb c) n1 stats) as [s1|] eqn:E1; simpl in *.
    + rewrite IH.
      destruct (fire conns' d2 n2 stats) as [t|]; simpl in *; by rewrite H.
    + destruct (fire conns' d2 n2 stats) as [t|]; simpl in *;
        by rewrite <- ?H.
Qed.

(** X6. The counter table does not depend on the order in which two
    notifications are delivered: firing them in either order gives the same
    system, and fails (an index outside the table) in one order exactly when
    it does in the other. *)
Theorem notifications_commute
        (draw : nat -> nat -> Time) (probe : Device -> Time -> option Z)
        (w : World) (d1 d2 : Device) (n1 n2 : Notification) :
  run draw probe [LFire d1 n1; LFire d2 n2] w
  = run draw probe [LFire d2 n2; LFire d1 n1] w.
Proof.
  cbn [run step].
  pose proof (fire_commute (w_conns w) d1 n1 (w_conns w) d2 n2 (w_stats w)) as H.
  destruct (fire (w_conns w) d1 n1 (w_stats w)) as [s1|],
           (fire (w_conns w) d2 n2 (w_stats w)) as [s2|]; simpl in *.
  - by rewrite H.
  - by rewrite H.
  - by rewrite <- H.
  - done.
Qed.

(** ** The queue probe *)

(** X7. [SampleQueue] for a station of the table never fails: it adds the
    bytes the device reports (0 when the device has no [Txop] or no queue)
    to [qBytesSum] and 1 to [qSamples] of that station, changes nothing
    else in the table, and queues itself again, for the same device and
    station, exactly 1 ms later. *)
Theorem sample_queue_behaviour
        (probe : Device -> Time -> option Z) (dev : Device) (i : nat)
        (stats : list StaStats) (sim : Simulator) :
  (i < length stats)%nat ->
  exists stats',
    SampleQueue probe dev i stats sim
    = Some (stats',
            mkSimulator
              (sim_now sim) (S (sim_uid sim))
              (insert_event
                 (mkEvent (sim_now sim + 1000000)%N (sim_uid sim)
                          (ActSampleQueue dev i) false)
                 (sim_events sim))
              (sim_stopped sim))
    /\ counters_added
         [(FqBytesSum, match probe dev (sim_now sim) with
                       | Some n => n
                       | None => 0
                       end);
          (FqSamples, 1)] i stats stats'.
Proof.
  intros Hi. destruct (lookup_lt_is_Some_2 stats i Hi) as [st Hst].
  unfold SampleQueue, SampleQueue_stats.
  rewrite (update_sta_Some _ _ _ _ Hst). simpl.
  erewrite update_sta_Some
    by (apply list_lookup_insert_eq; by eapply lookup_lt_Some).
  simpl. eexists. split; [reflexivity|]. rewrite list_insert_insert_eq.
  unfold counters_added. split; [by rewrite length_insert|].
  split; [intros j Hj; by rewrite list_lookup_insert_ne|].
  eexists _, _. split; [done|].
  split; [apply list_lookup_insert_eq; by eapply lookup_lt_Some|].
  frame_fields.
Qed.

Lemma sample_queue_behaviour_witness :
  exists stats' sim',
    SampleQueue demo_probe (LegacyDev 0) 0 [StaStats_default] Simulator_init
    = Some (stats', sim')
    /\ stats' = [mkStaStats 0 0 0 0 1 0 0 0 0]
    /\ sim_events sim'
       = [mkEvent 1000000%N 0 (ActSampleQueue (LegacyDev 0) 0) false].
Proof.
  destruct (sample_queue_behaviour demo_probe (LegacyDev 0) 0
              [StaStats_default] Simulator_init) as (stats' & Hs & _);
    [simpl; lia|].
  eexists _, _. split; [exact Hs|].
  vm_compute in Hs. injection Hs as <-. split; reflexivity.
Defined.

(** ** Pending sends *)

Lemma NoDup_fmap_eq {A B} (f : A -> B) (l : list A) x y :
  NoDup (f <$> l) -> x ∈ l -> y ∈ l -> f x = f y -> x = y.
Proof.
  induction l as [|a l IH]; intros Hnd Hx Hy Hf; [by apply elem_of_nil in Hx|].
  rewrite fmap_cons in Hnd. apply NoDup_cons in Hnd as [Hnin Hnd].
  apply elem_of_cons in Hx as [->|Hx], Hy as [->|Hy]; try done.
  - destruct Hnin. rewrite Hf. apply list_elem_of_fmap. by exists y.
  - destruct Hnin. rewrite <- Hf. apply list_elem_of_fmap. by exists x.
  - by apply IH.
Qed.

(** X8. A source has at most one send outstanding: at every point of every
    run, two queued [SendOnce] events of the same station that are not
    cancelled are the same event, the one [m_sendEvent] refers to. *)
Theorem one_outstanding_send
        (draw : nat -> nat -> Time) (probe : Device -> Time -> option Z)
        (nLegacy : Z) (cs : list AppConfig) (simStop : Time)
        (ls : list Label) (w0 w : World) (i : nat) (app : PoissonUdpApp)
        (e1 e2 : Event) :
  boot nLegacy cs simStop = Some w0 ->
  run draw probe ls w0 = Some w ->
  w_apps w !! i = Some app ->
  e1 ∈ sim_events (w_sim w) -> e2 ∈ sim_events (w_sim w) ->
  ev_act e1 = ActSendOnce i -> ev_cancelled e1 = false ->
  ev_act e2 = ActSendOnce i -> ev_cancelled e2 = false ->
  e1 = e2 /\ m_sendEvent app = Some (ev_uid e1).
Proof.
  intros Hboot Hrun Hi H1 H2 Ha1 Hc1 Ha2 Hc2.
  destruct (reachable_inv draw probe _ _ _ _ _ _ Hboot Hrun)
    as [[[Hnd _] Happs] _].
  pose proof (Happs i app Hi) as Hinv.
  destruct (ai_send _ _ _ Hinv e1 H1 Ha1 Hc1) as (Ht1 & _).
  destruct (ai_send _ _ _ Hinv e2 H2 Ha2 Hc2) as (Ht2 & _).
  split; [|done]. eapply (NoDup_fmap_eq ev_uid); eauto. congruence.
Qed.

Lemma one_outstanding_send_witness :
  exists w app,
    (boot 1 [demo_station (Double.of_Z 100) 0] 7%N
     ≫= run demo_draw demo_probe [LDispatch]) = Some w
    /\ w_apps w !! 0%nat = Some app
    /\ m_sendEvent app = Some 4%nat.
Proof.
  edestruct (one_outstanding_send demo_draw demo_probe 1
               [demo_station (Double.of_Z 100) 0] 7%N [LDispatch])
    with (i := 0%nat) (e1 := mkEvent 3%N 4 (ActSendOnce 0) false)
         (e2 := mkEvent 3%N 4 (ActSendOnce 0) false)
    as [_ Ht];
    [vm_compute; reflexivity ..| | | | | | |].
  1-2: apply list_elem_of_In; vm_compute; auto.
  1-4: reflexivity.
  eexists _, _. split; [vm_compute; reflexivity|]. split; [|exact Ht].
  vm_compute; reflexivity.
Defined.

(** X9. While a source is not running, before its start as well as after
    its stop, no send of it is pending and the simulator is not about to
    invoke its [SendOnce]. *)
Theorem idle_source_has_no_send
        (draw : nat -> nat -> Time) (probe : Device -> Time -> option Z)
        (nLegacy : Z) (cs : list AppConfig) (simStop : Time)
        (ls : list Label) (w0 w : World) (i : nat) (app : PoissonUdpApp) :
  boot nLegacy cs simStop = Some w0 ->
  run draw probe ls w0 = Some w ->
  w_apps w !! i = Some app ->
  m_running app = false ->
  send_pending i (sim_events (w_sim w)) = false
  /\ next_action w <> Some (ActSendOnce i).
Proof.
  intros Hboot Hrun Hi Hr.
  destruct (reachable_inv draw probe _ _ _ _ _ _ Hboot Hrun) as [Hinv _].
  by eapply not_running_no_send.
Qed.

Lemma idle_source_has_no_send_witness :
  exists w app,
    boot 1 [demo_station (Double.of_Z 100) 0] 7%N = Some w
    /\ w_apps w !! 0%nat = Some app
    /\ m_running app = false
    /\ send_pending 0 (sim_events (w_sim w)) = false.
Proof.
  eexists _, _. split; [vm_compute; reflexivity|].
  split; [vm_compute; reflexivity|]. split; [reflexivity|].
  eapply (idle_source_has_no_send demo_draw demo_probe 1
            [demo_station (Double.of_Z 100) 0] 7%N []);
    vm_compute; reflexivity.
Defined.

(** ** Properties every member function keeps *)

Section AppPredicates.

Variable draw : nat -> nat -> Time.
Variable probe : Device -> Time -> option Z.

(** A property of one application that its member functions keep holds
    throughout a run. *)
Variable P : PoissonUdpApp -> Prop.
Hypothesis P_Start : forall this app sim app' sim',
    StartApplication draw this app sim = Some (app', sim') -> P app -> P app'.
Hypothesis P_Stop : forall app sim app' sim',
    StopApplication app sim = (app', sim') -> P app -> P app'.
Hypothesis P_SendOnce : forall this app sim app' sim',
    SendOnce draw this app sim = Some (app', sim') -> P app -> P app'.

Lemma exec_app_pred a w w' j appj :
  exec draw probe a w = Some w' ->
  w_apps w !! j = Some appj -> P appj ->
  exists appj', w_apps w' !! j = Some appj' /\ P appj'.
Proof.
  intros Hexec Hj HP.
  assert (Hlen : (j < length (w_apps w))%nat) by by eapply lookup_lt_Some.
  destruct a as [i|i|i|dev i|]; simpl_calls_in Hexec.
  - destruct (w_apps w !! i) as [app|] eqn:Happ; simpl_calls_in Hexec; [|done].
    destruct (StartApplication draw i app _) as [[app' sim']|] eqn:HS;
      simpl_calls_in Hexec; [|done].
    injection Hexec as <-. simpl.
    destruct (decide (j = i)) as [->|Hne];
      [|rewrite list_lookup_insert_ne by done; eauto].
    rewrite list_lookup_insert_eq by done.
    assert (app = appj) as -> by congruence. eauto.
  - destruct (w_apps w !! i) as [app|] eqn:Happ; simpl_calls_in Hexec; [|done].
    destruct (StopApplication app _) as [app' sim'] eqn:HS.
    injection Hexec as <-. simpl.
    destruct (decide (j = i)) as [->|Hne];
      [|rewrite list_lookup_insert_ne by done; eauto].
    rewrite list_lookup_insert_eq by done.
    assert (app = appj) as -> by congruence. eauto.
  - destruct (w_apps w !! i) as [app|] eqn:Happ; simpl_calls_in Hexec; [|done].
    destruct (SendOnce draw i app _) as [[app' sim']|] eqn:HS;
      simpl_calls_in Hexec; [|done].
    injection Hexec as <-. simpl.
    destruct (decide (j = i)) as [->|Hne];
      [|rewrite list_lookup_insert_ne by done; eauto].
    rewrite list_lookup_insert_eq by done.
    assert (app = appj) as -> by congruence. eauto.
  - destruct (SampleQueue probe dev i _ _) as [[stats' sim']|];
      simpl_calls_in Hexec; [|done].
    injection Hexec as <-. eauto.
  - injection Hexec as <-. eauto.
Qed.

Lemma run_app_pred ls :
  forall w w' j appj,
    run draw probe ls w = Some w' ->
    w_apps w !! j = Some appj -> P appj ->
    exists appj', w_apps w' !! j = Some appj' /\ P appj'.
Proof.
  induction ls as [|l ls IH]; intros w w' j appj Hrun Hj HP; simpl in Hrun.
  - injection Hrun as <-. eauto.
  - destruct (step draw probe l w) as [w1|] eqn:Hstep; [|done].
    assert (exists app1, w_apps w1 !! j = Some app1 /\ P app1)
      as (app1 & Hj1 & HP1).
    { destruct l as [|dev n]; simpl in Hstep.
      - unfold dispatch in Hstep.
        destruct (sim_stopped (w_sim w)); [done|].
        destruct (sim_events (w_sim w)) as [|e q]; [done|].
        destruct (ev_cancelled e).
        + injection Hstep as <-. eauto.
        + by eapply exec_app_pred.
      - destruct (fire _ _ _ _) as [stats'|]; simpl in Hstep; [|done].
        injection Hstep as <-. eauto. }
    by eapply IH.
Qed.

End AppPredicates.

(** ** Send cap and socket *)

Lemma SendOnce_under_cap draw cap this app sim app' sim' :
  SendOnce draw this app sim = Some (app', sim') ->
  (m_maxPackets app = cap /\ 0 <= m_sent app <= cap) ->
  cap <> 0 -> cap < 2 ^ 64 ->
  m_maxPackets app' = cap /\ 0 <= m_sent app' <= cap.
Proof.
  unfold SendOnce. intros H [Hc Hs] Hnz Hu.
  destruct (m_running app); simpl in H; [|by injection H as <- <-].
  destruct (negb (m_maxPackets app =? 0) && (m_maxPackets app <=? m_sent app))
    eqn:Hcap; [by injection H as <- <-|].
  destruct (m_socket app) as [sock|]; simpl in H; [|done].
  apply ScheduleNext_fields in H as ((_ & _ & Hm & _) & Hsent & _).
  simpl in *. rewrite Hm, Hsent. split; [done|].
  apply andb_false_iff in Hcap as [Hz|Hle].
  - apply negb_false_iff in Hz. lia.
  - rewrite wrap64_small by (unfold is_u64; lia). lia.
Qed.

(** X10. A source with a send cap never sends more than the cap: at every
    point of every run its sent-count is at most [maxPackets]. *)
Theorem cap_never_exceeded
        (draw : nat -> nat -> Time) (probe : Device -> Time -> option Z)
        (nLegacy : Z) (cs : list AppConfig) (simStop : Time)
        (ls : list Label) (w0 w : World) (i : nat) (c : AppConfig) :
  boot nLegacy cs simStop = Some w0 ->
  run draw probe ls w0 = Some w ->
  cs !! i = Some c ->
  ac_maxPackets c <> 0 -> is_u64 (ac_maxPackets c) ->
  exists app, w_apps w !! i = Some app
              /\ 0 <= m_sent app <= ac_maxPackets c.
Proof.
  intros Hboot Hrun Hc Hnz [Hlo Hhi].
  destruct (boot_inv _ _ _ _ Hboot) as (_ & Happs & _).
  assert (H0 : w_apps w0 !! i = Some (install_app i c)).
  { rewrite Happs, list_lookup_imap, Hc. done. }
  destruct (install_app_fresh i c) as (_ & Hs & _ & _ & _ & _ & Hm & _).
  destruct (run_app_pred draw probe
    (fun app => m_maxPackets app = ac_maxPackets c
                /\ 0 <= m_sent app <= ac_maxPackets c))
    with (ls := ls) (w := w0) (w' := w) (j := i) (appj := install_app i c)
    as (app & Hi & _ & Hle).
  - intros this app sim app' sim' HS [Hcap Hsent].
    apply StartApplication_fields in HS as ((_ & _ & Hm' & _) & Hs' & _).
    rewrite Hm', Hs'. done.
  - intros app sim app' sim' HS [Hcap Hsent].
    apply StopApplication_fields in HS as ((_ & _ & Hm' & _) & Hs' & _).
    rewrite Hm', Hs'. done.
  - intros this app sim app' sim' HS HP.
    by eapply SendOnce_under_cap.
  - done.
  - done.
  - rewrite Hm, Hs. lia.
  - by exists app.
Qed.

Lemma cap_never_exceeded_witness :
  exists w app,
    (boot 1 [demo_station_late (Double.of_Z 100) 1] 11%N
     ≫= run demo_draw demo_probe [LDispatch; LDispatch; LDispatch]) = Some w
    /\ w_apps w !! 0%nat = Some app
    /\ 0 <= m_sent app <= 1.
Proof.
  edestruct (cap_never_exceeded demo_draw demo_probe 1
               [demo_station_late (Double.of_Z 100) 1] 11%N
               [LDispatch; LDispatch; LDispatch])
    with (i := 0%nat) as (app & Hi & Hle);
    [vm_compute; reflexivity ..|done|unfold is_u64; simpl; lia|].
  eexists _, app. split; [vm_compute; reflexivity|]. split; [exact Hi|exact Hle].
Defined.

Lemma ScheduleNext_socket_log draw this app sim app' sim' :
  ScheduleNext draw this app sim = Some (app', sim') ->
  socket_log_ok app -> socket_log_ok app'.
Proof.
  intros H (sock & Hsock & Hall & Hn).
  apply ScheduleNext_fields in H as ((_ & Hp & _) & Hs & _ & Hk & _).
  exists sock. by rewrite Hk, Hp, Hs.
Qed.

(** X11. Every packet a source hands to its socket has the configured
    payload size, and the sent-count is the number of packets handed over
    (as a 64-bit unsigned count), at every point of every run, when the
    socket starts with nothing sent. *)
Theorem sends_match_sent_count
        (draw : nat -> nat -> Time) (probe : Device -> Time -> option Z)
        (nLegacy : Z) (cs : list AppConfig) (simStop : Time)
        (ls : list Label) (w0 w : World) (i : nat) (c : AppConfig)
        (sock0 : Socket) :
  boot nLegacy cs simStop = Some w0 ->
  run draw probe ls w0 = Some w ->
  cs !! i = Some c ->
  ac_socket c = Some sock0 -> sk_sent sock0 = [] ->
  exists app sock,
    w_apps w !! i = Some app /\ m_socket app = Some sock
    /\ Forall (fun size => size = ac_pktSize c) (sk_sent sock)
    /\ m_sent app = wrap64 (Z.of_nat (length (sk_sent sock))).
Proof.
  intros Hboot Hrun Hc Hsock0 Hempty.
  destruct (boot_inv _ _ _ _ Hboot) as (_ & Happs & _).
  assert (H0 : w_apps w0 !! i = Some (install_app i c)).
  { rewrite Happs, list_lookup_imap, Hc. done. }
  destruct (install_app_fresh i c) as (_ & Hs & _ & _ & _ & Hp & _ & Hk).
  destruct (run_app_pred draw probe
    (fun app => m_pktSize app = ac_pktSize c /\ socket_log_ok app))
    with (ls := ls) (w := w0) (w' := w) (j := i) (appj := install_app i c)
    as (app & Hi & Hpk & sock & Hsock & Hall & Hn).
  - intros this app sim app' sim' HS [Hpk Hlog].
    pose proof HS as HS'.
    apply StartApplication_fields in HS' as ((_ & Hp' & _) & _).
    split; [congruence|]. unfold StartApplication in HS.
    destruct Hlog as (sock & Hsock & Hall & Hn). simpl in HS.
    rewrite Hsock in HS. simpl in HS.
    eapply ScheduleNext_socket_log; [exact HS|].
    eexists. simpl. split; [reflexivity|]. simpl. done.
  - intros app sim app' sim' HS [Hpk Hlog].
    pose proof HS as HS'.
    apply StopApplication_fields in HS' as ((_ & Hp' & _) & _).
    split; [congruence|]. unfold StopApplication in HS.
    destruct Hlog as (sock & Hsock & Hall & Hn). simpl in HS.
    rewrite Hsock in HS. injection HS as <- _.
    eexists. simpl. split; [reflexivity|]. simpl. done.
  - intros this app sim app' sim' HS [Hpk Hlog].
    pose proof HS as HS'.
    apply SendOnce_fields in HS' as ((_ & Hp' & _) & _).
    split; [congruence|]. unfold SendOnce in HS.
    destruct (m_running app); simpl in HS; [|by injection HS as <- <-].
    destruct (negb (m_maxPackets app =? 0) && (m_maxPackets app <=? m_sent app));
      [by injection HS as <- <-|].
    destruct Hlog as (sock & Hsock & Hall & Hn).
    rewrite Hsock in HS. simpl in HS.
    eapply ScheduleNext_socket_log; [exact HS|].
    eexists. simpl. split; [reflexivity|]. simpl. split.
    + apply Forall_app. split; [done|]. by constructor.
    + rewrite length_app, Hn. simpl. unfold wrap64.
      rewrite Zplus_mod_idemp_l. f_equal. lia.
  - done.
  - done.
  - split; [done|]. exists sock0. rewrite Hk, Hs, Hempty. split; [done|].
    split; [constructor|done].
  - exists app, sock. rewrite <- Hpk. done.
Qed.

Lemma sends_match_sent_count_witness :
  exists w app sock,
    (boot 1 [demo_station (Double.of_Z 100) 0] 7%N
     ≫= run demo_draw demo_probe [LDispatch; LDispatch]) = Some w
    /\ w_apps w !! 0%nat = Some app /\ m_socket app = Some sock
    /\ sk_sent sock = [1200] /\ m_sent app = 1.
Proof.
  edestruct (sends_match_sent_count demo_draw demo_probe 1
               [demo_station (Double.of_Z 100) 0] 7%N
               [LDispatch; LDispatch])
    with (i := 0%nat) as (app & sock & Hi & Hs & _ & _);
    [vm_compute; reflexivity ..|].
  eexists _, app, sock. split; [vm_compute; reflexivity|].
  split; [exact Hi|]. split; [exact Hs|].
  vm_compute in Hi. injection Hi as <-. injection Hs as <-. by split.
Defined.

(** ** Stopping twice *)

Lemma IsPending_after_Cancel id sim :
  EventId_IsPending id (Simulator_Cancel id sim) = false.
Proof.
  destruct id as [u|]; [|done]. cbn [Simulator_Cancel EventId_IsPending sim_events].
  induction (sim_events sim) as [|e q IH]; [done|].
  rewrite fmap_cons. cbn [existsb]. rewrite IH, orb_false_r.
  rewrite cancel_event_uid. unfold cancel_event.
  destruct (decide (ev_uid e = u)) as [Hu|Hu].
  - rewrite !bool_decide_true by done. done.
  - rewrite !bool_decide_false by done. done.
Qed.

(** X12. [StopApplication] is idempotent: stopping a source that was just
    stopped changes neither the source nor the event queue. *)
Theorem stop_twice (app : PoissonUdpApp) (sim : Simulator) :
  StopApplication (StopApplication app sim).1 (StopApplication app sim).2
  = StopApplication app sim.
Proof.
  destruct app as [sk pe ps la mp se ru ev rn].
  unfold StopApplication, set_socket, set_running. simpl.
  destruct (EventId_IsPending ev sim) eqn:Hp.
  - destruct sk as [sock|]; simpl; by rewrite IsPending_after_Cancel.
  - destruct sk as [sock|]; simpl; by rewrite Hp.
Qed.

(** ** What [m_sendEvent] refers to *)

Lemma tracked_ok_schedule_other d a sim j app :
  tracked_ok sim j app -> tracked_ok (Simulator_Schedule d a sim).2 j app.
Proof.
  intros H u Hu. destruct (H u Hu) as [Hlt He]. simpl. split; [lia|].
  intros e [->|Hin]%elem_of_insert_event Huid; simpl in *; [lia|by apply He].
Qed.

Lemma tracked_ok_schedule_own d sim i app :
  sim_wf sim -> m_sendEvent app = Some (sim_uid sim) ->
  tracked_ok (Simulator_Schedule d (ActSendOnce i) sim).2 i app.
Proof.
  intros [_ Hlt] Ht u Hu. assert (u = sim_uid sim) as -> by congruence.
  simpl. split; [lia|].
  intros e [->|Hin]%elem_of_insert_event Huid; [done|].
  apply Hlt in Hin. lia.
Qed.

Lemma tracked_ok_cancel id sim j app :
  tracked_ok sim j app -> tracked_ok (Simulator_Cancel id sim) j app.
Proof.
  intros H u Hu. destruct (H u Hu) as [Hlt He].
  destruct id as [v|]; [|done]. simpl. split; [done|].
  intros e' (e & -> & Hin)%list_elem_of_fmap Huid.
  rewrite cancel_event_uid in Huid. rewrite cancel_event_act. by apply He.
Qed.

Lemma tracked_ok_subset sim sim' j app :
  sim_uid sim' = sim_uid sim ->
  (forall e, e ∈ sim_events sim' -> e ∈ sim_events sim) ->
  tracked_ok sim j app -> tracked_ok sim' j app.
Proof.
  intros Huid Hsub H u Hu. destruct (H u Hu) as [Hlt He].
  rewrite Huid. split; [done|]. intros e Hin. apply He. by apply Hsub.
Qed.

Lemma tracked_ok_same_event sim j app app' :
  m_sendEvent app' = m_sendEvent app ->
  tracked_ok sim j app -> tracked_ok sim j app'.
Proof. intros Heq H u Hu. apply H. congruence. Qed.

Lemma ScheduleNext_track draw this app sim app' sim' :
  ScheduleNext draw this app sim = Some (app', sim') ->
  (m_sendEvent app' = m_sendEvent app /\ sim' = sim)
  \/ (m_sendEvent app' = Some (sim_uid sim)
      /\ exists d, sim' = (Simulator_Schedule d (ActSendOnce this) sim).2).
Proof.
  unfold ScheduleNext. intros H.
  destruct (m_running app); simpl in H; [|injection H as <- <-; by left].
  destruct (Double.leb (m_lambda app) Double.zero);
    [injection H as <- <-; by left|].
  destruct (m_rng app) as [rng|]; simpl in H; [|done].
  injection H as <- <-. right. split; [done|]. by eexists.
Qed.

(** The part of [track_inv] and of the queue that [ScheduleNext] settles,
    for the application it is called on and for the others. *)
Lemma ScheduleNext_tracked draw this app0 app sim app' sim' :
  ScheduleNext draw this app sim = Some (app', sim') ->
  sim_wf sim -> m_sendEvent app = m_sendEvent app0 ->
  tracked_ok sim this app0 ->
  tracked_ok sim' this app'
  /\ (forall j appj, tracked_ok sim j appj -> tracked_ok sim' j appj)
  /\ (forall e, e ∈ sim_events sim -> e ∈ sim_events sim').
Proof.
  intros H Hwf Hev Ht.
  apply ScheduleNext_track in H as [[He ->]|[He [d ->]]].
  - split_and!; [|done|done]. eapply tracked_ok_same_event; [|done]. congruence.
  - split_and!.
    + by apply tracked_ok_schedule_own.
    + intros j appj Hj. by apply tracked_ok_schedule_other.
    + intros e Hin. simpl. apply elem_of_insert_event. by right.
Qed.

Lemma StopApplication_keeps_event app sim app' sim' i e :
  StopApplication app sim = (app', sim') ->
  tracked_ok sim i app ->
  e ∈ sim_events sim -> ev_act e <> ActSendOnce i ->
  e ∈ sim_events sim'.
Proof.
  unfold StopApplication. intros H Ht Hin Hact. injection H as _ <-.
  simpl. destruct (EventId_IsPending _ _); [|done].
  destruct (m_sendEvent app) as [u|] eqn:Hu; [|done]. simpl.
  apply list_elem_of_fmap. exists e. split; [|done].
  unfold cancel_event. case_bool_decide as Huid; [|done].
  destruct (Ht u Hu) as [_ He]. destruct Hact. by apply He.
Qed.

Section TrackFacts.

Variable draw : nat -> nat -> Time.
Variable probe : Device -> Time -> option Z.

Lemma track_inv_update sim apps stats conns i app' :
  (i < length apps)%nat ->
  tracked_ok sim i app' ->
  (forall j appj, j <> i -> apps !! j = Some appj -> tracked_ok sim j appj) ->
  track_inv (mkWorld sim (<[i := app']> apps) stats conns).
Proof.
  intros Hi Hnew Hold j appj Hj. simpl in *.
  destruct (decide (j = i)) as [->|Hne].
  - rewrite list_lookup_insert_eq in Hj by done. by injection Hj as <-.
  - rewrite list_lookup_insert_ne in Hj by done. by apply Hold.
Qed.

(** One handler: [track_inv] is kept, and every queued event that is not
    a send of the stopped application is still queued, unchanged. *)
Lemma exec_track a w w' :
  sim_wf (w_sim w) -> track_inv w ->
  exec draw probe a w = Some w' ->
  track_inv w'
  /\ forall e, e ∈ sim_events (w_sim w) ->
               (forall k, ev_act e <> ActSendOnce k) ->
               e ∈ sim_events (w_sim w').
Proof.
  intros Hwf Ht Hexec.
  destruct a as [i|i|i|dev i|]; simpl_calls_in Hexec.
  - destruct (w_apps w !! i) as [app|] eqn:Happ; simpl_calls_in Hexec; [|done].
    destruct (StartApplication draw i app _) as [[app' sim']|] eqn:HS;
      simpl_calls_in Hexec; [|done].
    injection Hexec as <-. unfold StartApplication in HS. simpl in HS.
    destruct (m_socket app) as [sock|]; simpl in HS; [|done].
    eapply (ScheduleNext_tracked _ _ app) in HS as (Hown & Hothers & Hsup);
      [|done|done|by apply Ht].
    split; [|simpl; eauto].
    apply track_inv_update; eauto using lookup_lt_Some.
  - destruct (w_apps w !! i) as [app|] eqn:Happ; simpl_calls_in Hexec; [|done].
    destruct (StopApplication app _) as [app' sim'] eqn:HS.
    injection Hexec as <-. split.
    + pose proof HS as HS'. unfold StopApplication in HS'.
      injection HS' as <- <-.
      apply track_inv_update; [by eapply lookup_lt_Some| |].
      * eapply (tracked_ok_same_event _ _ app);
          [by destruct (m_socket app)|].
        destruct (EventId_IsPending _ _);
          [apply tracked_ok_cancel|]; by apply Ht.
      * intros j appj _ Hj.
        destruct (EventId_IsPending _ _);
          [apply tracked_ok_cancel|]; by apply Ht.
    + simpl. intros e Hin Hns.
      eapply StopApplication_keeps_event; [exact HS|by apply Ht|done|done].
  - destruct (w_apps w !! i) as [app|] eqn:Happ; simpl_calls_in Hexec; [|done].
    destruct (SendOnce draw i app _) as [[app' sim']|] eqn:HS;
      simpl_calls_in Hexec; [|done].
    injection Hexec as <-. unfold SendOnce in HS.
    assert (Hsame : track_inv (mkWorld (w_sim w) (<[i := app]> (w_apps w))
                                       (w_stats w) (w_conns w))).
    { rewrite list_insert_id by done. by destruct w. }
    destruct (m_running app); simpl in HS;
      [|injection HS as <- <-; by split].
    destruct (negb (m_maxPackets app =? 0) && (m_maxPackets app <=? m_sent app));
      [injection HS as <- <-; by split|].
    destruct (m_socket app) as [sock|]; simpl in HS; [|done].
    eapply (ScheduleNext_tracked _ _ app) in HS as (Hown & Hothers & Hsup);
      [|done|done|by apply Ht].
    split; [|simpl; eauto].
    apply track_inv_update; eauto using lookup_lt_Some.
  - destruct (SampleQueue probe dev i _ _) as [[stats' sim']|] eqn:HS;
      simpl_calls_in Hexec; [|done].
    injection Hexec as <-. unfold SampleQueue in HS.
    destruct (SampleQueue_stats i _ _); simpl in HS; [|done].
    injection HS as <- <-. split.
    + intros j appj Hj. simpl in *.
      apply (tracked_ok_schedule_other (MilliSeconds 1)
                                       (ActSampleQueue dev i)).
      by apply Ht.
    + simpl. intros e Hin _. apply elem_of_insert_event. by right.
  - injection Hexec as <-. split; [|done].
    intros j appj Hj u Hu. simpl in *. by apply (Ht j appj Hj u Hu).
Qed.

Lemma popped_track w e q :
  sim_wf (w_sim w) -> track_inv w -> sim_events (w_sim w) = e :: q ->
  sim_wf (w_sim (popped w e q)) /\ track_inv (popped w e q).
Proof.
  intros Hwf Ht Hq. destruct w as [[now uid evs st] apps stats conns].
  simpl in *. subst evs.
  destruct (sim_wf_pop now (ev_ts e) uid e q st false Hwf) as [Hwf' _].
  split; [done|]. intros j appj Hj. simpl in *.
  eapply tracked_ok_subset; [| |by apply Ht]; simpl; [done|].
  intros e' He'. by right.
Qed.

Lemma step_track l w w' :
  world_inv w -> track_inv w -> step draw probe l w = Some w' -> track_inv w'.
Proof.
  intros [Hwf _] Ht Hstep. destruct l as [|dev n]; simpl in Hstep.
  - unfold dispatch in Hstep.
    destruct (sim_stopped (w_sim w)); [done|].
    destruct (sim_events (w_sim w)) as [|e q] eqn:Hq; [done|].
    destruct (popped_track w e q Hwf Ht Hq) as [Hwf' Ht'].
    destruct (ev_cancelled e); [by injection Hstep as <-|].
    by destruct (exec_track _ _ _ Hwf' Ht' Hstep).
  - destruct (fire _ _ _ _) as [stats'|]; simpl in Hstep; [|done].
    injection Hstep as <-. exact Ht.
Qed.

Lemma reachable_track nLegacy cs simStop w0 ls w :
  boot nLegacy cs simStop = Some w0 ->
  run draw probe ls w0 = Some w ->
  world_inv w /\ track_inv w.
Proof.
  intros Hboot Hrun.
  destruct (boot_inv _ _ _ _ Hboot) as (Hinv0 & Happs & _).
  assert (Ht0 : track_inv w0).
  { intros i app Hi u Hu. rewrite Happs, list_lookup_imap in Hi.
    destruct (cs !! i) as [c|]; simpl in Hi; [|done]. injection Hi as <-.
    by destruct (install_app_fresh i c) as (_ & _ & Hnone & _); congruence. }
  clear Hboot Happs. revert w0 Hinv0 Ht0 Hrun.
  induction ls as [|l ls IH]; intros w0 Hinv0 Ht0 Hrun; simpl in Hrun.
  - by injection Hrun as <-.
  - destruct (step draw probe l w0) as [w1|] eqn:Hstep; [|done].
    eapply IH; [| |done]; [by eapply step_inv|by eapply step_track].
Qed.

End TrackFacts.

(** X13. [StopApplication] cancels nothing but a send of its own source:
    when the simulator delivers the stop of a source, every other queued
    event (the probes, the starts and stops, the end of the run, the sends
    of the other sources) stays in the queue exactly as it was, and the
    queue keeps its length. *)
Theorem stop_cancels_only_own_send
        (draw : nat -> nat -> Time) (probe : Device -> Time -> option Z)
        (nLegacy : Z) (cs : list AppConfig) (simStop : Time)
        (ls : list Label) (w0 w w' : World) (i : nat)
        (e0 : Event) (q : list Event) :
  boot nLegacy cs simStop = Some w0 ->
  run draw probe ls w0 = Some w ->
  sim_events (w_sim w) = e0 :: q ->
  next_action w = Some (ActStop i) ->
  dispatch draw probe w = Some w' ->
  length (sim_events (w_sim w')) = length q
  /\ forall e, e ∈ q -> ev_act e <> ActSendOnce i ->
               e ∈ sim_events (w_sim w').
Proof.
  intros Hboot Hrun Hq Hnext Hd.
  destruct (reachable_track draw probe _ _ _ _ _ _ Hboot Hrun) as [[Hwf _] Ht].
  destruct (popped_track w e0 q Hwf Ht Hq) as [_ Ht'].
  apply next_action_head in Hnext as (Hst & e & q' & Hq' & Hc & Ha).
  rewrite Hq in Hq'. injection Hq' as <- <-.
  unfold dispatch in Hd. rewrite Hst, Hq, Hc, Ha in Hd.
  simpl_calls_in Hd.
  destruct (w_apps w !! i) as [app|] eqn:Happ; simpl_calls_in Hd; [|done].
  destruct (StopApplication app _) as [app' sim'] eqn:HS.
  injection Hd as <-. simpl. split.
  - unfold StopApplication in HS. injection HS as _ <-. simpl.
    destruct (EventId_IsPending _ _); [|done].
    destruct (m_sendEvent app); [|done]. simpl. by rewrite length_fmap.
  - intros e Hin Hact.
    eapply StopApplication_keeps_event; [exact HS| |done|done].
    by apply (Ht' i app).
Qed.

Lemma stop_cancels_only_own_send_witness :
  exists w w',
    (boot 1 [demo_station (Double.of_Z 100) 0] 7%N
     ≫= run demo_draw demo_probe [LDispatch; LDispatch]) = Some w
    /\ dispatch demo_draw demo_probe w = Some w'
    /\ mkEvent 7%N 1 ActSimStop false ∈ sim_events (w_sim w')
    /\ mkEvent 5%N 5 (ActSendOnce 0) true ∈ sim_events (w_sim w').
Proof.
  edestruct (stop_cancels_only_own_send demo_draw demo_probe 1
               [demo_station (Double.of_Z 100) 0] 7%N [LDispatch; LDispatch])
    with (i := 0%nat) as [_ Hkeep];
    [vm_compute; reflexivity ..|].
  eexists _, _. split; [vm_compute; reflexivity|].
  split; [vm_compute; reflexivity|]. split.
  - apply Hkeep; [|done]. apply list_elem_of_In. vm_compute. auto.
  - apply list_elem_of_In. vm_compute. auto.
Defined.

(** ** The probes stay queued *)

Lemma probes_queued_mono nLegacy n q q' :
  (forall e, e ∈ q -> e ∈ q') ->
  probes_queued nLegacy n q -> probes_queued nLegacy n q'.
Proof.
  intros Hsub H i Hi. destruct (H i Hi) as (e & He & Ha & Hc).
  exists e. split; [by apply Hsub|done].
Qed.

Lemma schedule_apps_keeps cs :
  forall n sim e,
    e ∈ sim_events sim -> e ∈ sim_events (schedule_apps n cs sim).
Proof.
  induction cs as [|c cs IH]; intros n sim e He; cbn [schedule_apps]; [done|].
  apply IH. destruct (ac_stop c =? 0)%N; simpl;
    repeat (apply elem_of_insert_event; right); done.
Qed.

Lemma wire_probes nLegacy n sim conns sim' :
  wire nLegacy n sim = Some (conns, sim') ->
  probes_queued nLegacy (Z.to_nat n) (sim_events sim').
Proof.
  intros Hwire. unfold wire in Hwire.
  destruct (for_range_inv
    (fun (k : nat) (s : list Connection * Simulator) =>
       probes_queued nLegacy k (sim_events s.2))
    (wire_station nLegacy) (Z.to_nat n) 0%nat ([], sim))
    as (s' & Hs' & HP).
  - intros i Hi. lia.
  - intros k [cn sm] _ Hq. unfold wire_station. cbn [fst snd] in *.
    eexists. split; [reflexivity|]. cbn [fst snd]. simpl.
    intros i Hi. destruct (decide (i = k)) as [->|Hne].
    + eexists. split; [apply elem_of_insert_event; by left|]. by split.
    + destruct (Hq i) as (e & He & Ha & Hc); [lia|].
      exists e. split; [apply elem_of_insert_event; by right|done].
  - rewrite Hwire in Hs'. injection Hs' as <-. exact HP.
Qed.

Section ProbeFacts.

Variable draw : nat -> nat -> Time.
Variable probe : Device -> Time -> option Z.

Lemma exec_SampleQueue_requeues dev i w w' :
  exec draw probe (ActSampleQueue dev i) w = Some w' ->
  exists e, e ∈ sim_events (w_sim w')
            /\ ev_act e = ActSampleQueue dev i /\ ev_cancelled e = false.
Proof.
  intros Hexec. simpl_calls_in Hexec.
  destruct (SampleQueue probe dev i _ _) as [[stats' sim']|] eqn:HS;
    simpl_calls_in Hexec; [|done].
  injection Hexec as <-. unfold SampleQueue in HS.
  destruct (SampleQueue_stats i _ _); simpl in HS; [|done].
  injection HS as <- <-. simpl.
  eexists. split; [apply elem_of_insert_event; by left|]. by split.
Qed.

Lemma step_probes nLegacy n l w w' :
  world_inv w -> track_inv w ->
  probes_queued nLegacy n (sim_events (w_sim w)) ->
  step draw probe l w = Some w' ->
  probes_queued nLegacy n (sim_events (w_sim w')).
Proof.
  intros [Hwf _] Ht Hp Hstep. destruct l as [|dev nt]; simpl in Hstep.
  - unfold dispatch in Hstep.
    destruct (sim_stopped (w_sim w)); [done|].
    destruct (sim_events (w_sim w)) as [|e0 q] eqn:Hq; [done|].
    destruct (popped_track w e0 q Hwf Ht Hq) as [Hwf' Ht'].
    intros i Hi. destruct (Hp i Hi) as (e & He & Ha & Hc).
    destruct (ev_cancelled e0) eqn:Hc0.
    + injection Hstep as <-. simpl.
      apply elem_of_cons in He as [->|He]; [congruence|]. by exists e.
    + apply elem_of_cons in He as [->|He].
      * rewrite Ha in Hstep. by eapply exec_SampleQueue_requeues.
      * destruct (exec_track draw probe _ _ _ Hwf' Ht' Hstep) as [_ Hkeep].
        exists e. split; [|done]. apply Hkeep; [done|].
        intros k. by rewrite Ha.
  - destruct (fire _ _ _ _) as [stats'|]; simpl in Hstep; [|done].
    by injection Hstep as <-.
Qed.

End ProbeFacts.

(** X14. The queue probe of a station never ends: at every point of every
    run, also after the end of the run has been delivered, a [SampleQueue]
    event of every station, on the device of that station, is queued and
    not cancelled. *)
Theorem probes_stay_queued
        (draw : nat -> nat -> Time) (probe : Device -> Time -> option Z)
        (nLegacy : Z) (cs : list AppConfig) (simStop : Time)
        (ls : list Label) (w0 w : World) (i : nat) :
  boot nLegacy cs simStop = Some w0 ->
  run draw probe ls w0 = Some w ->
  (i < length cs)%nat ->
  exists e, e ∈ sim_events (w_sim w)
            /\ ev_act e = ActSampleQueue (station_device nLegacy i) i
            /\ ev_cancelled e = false.
Proof.
  intros Hboot Hrun Hi.
  assert (H0 : probes_queued nLegacy (length cs) (sim_events (w_sim w0))).
  { unfold boot in Hboot.
    destruct (wire nLegacy _ Simulator_init) as [[conns sim]|] eqn:Hwire;
      simpl in Hboot; [|done].
    injection Hboot as <-. simpl. apply wire_probes in Hwire.
    rewrite Nat2Z.id in Hwire.
    eapply probes_queued_mono; [|exact Hwire].
    intros e He. apply schedule_apps_keeps. simpl.
    apply elem_of_insert_event. by right. }
  destruct (boot_inv _ _ _ _ Hboot) as (Hinv0 & Happs & _).
  assert (Ht0 : track_inv w0)
    by (by destruct (reachable_track draw probe _ _ _ _ [] _ Hboot eq_refl)).
  clear Hboot Happs. revert w0 Hinv0 Ht0 H0 Hrun.
  induction ls as [|l ls IH]; intros w0 Hinv0 Ht0 H0 Hrun; simpl in Hrun.
  - injection Hrun as <-. by apply H0.
  - destruct (step draw probe l w0) as [w1|] eqn:Hstep; [|done].
    eapply IH; [| | |done].
    + by eapply step_inv.
    + by eapply step_track.
    + by eapply step_probes.
Qed.

Lemma probes_stay_queued_witness :
  exists w e,
    (boot 1 [demo_station (Double.of_Z 100) 0] 7%N
     ≫= run demo_draw demo_probe
            [LDispatch; LDispatch; LDispatch; LDispatch; LDispatch]) = Some w
    /\ sim_stopped (w_sim w) = true
    /\ e ∈ sim_events (w_sim w)
    /\ ev_act e = ActSampleQueue (LegacyDev 0) 0
    /\ ev_cancelled e = false.
Proof.
  edestruct (probes_stay_queued demo_draw demo_probe 1
               [demo_station (Double.of_Z 100) 0] 7%N
               [LDispatch; LDispatch; LDispatch; LDispatch; LDispatch])
    with (i := 0%nat) as (e & He & Ha & Hc);
    [vm_compute; reflexivity ..|simpl; lia|].
  eexists _, e. split; [vm_compute; reflexivity|].
  split; [vm_compute; reflexivity|]. by split.
Defined.

(** ** The wiring, end to end *)

Lemma fire_app c1 c2 dev n stats :
  fire (c1 ++ c2) dev n stats = fire c1 dev n stats ≫= fire c2 dev n.
Proof.
  revert stats. induction c1 as [|c c1 IH]; intros stats; [done|].
  cbn [app fire]. destruct (device_eqb (cn_dev c) dev); [|apply IH].
  destruct (invoke (cn_cb c) n stats) as [s1|]; simpl; [apply IH|done].
Qed.

Lemma device_eqb_refl d : device_eqb d d = true.
Proof. destruct d; simpl; by rewrite bool_decide_true. Qed.

Lemma station_device_inj nLegacy i j :
  0 <= nLegacy -> Z.of_nat i < 2 ^ 32 -> Z.of_nat j < 2 ^ 32 -> i <> j ->
  device_eqb (station_device nLegacy j) (station_device nLegacy i) = false.
Proof.
  intros Hn Hi Hj Hne. unfold station_device.
  do 2 case_bool_decide; simpl; try done.
  - by rewrite bool_decide_false.
  - rewrite bool_decide_false; [done|].
    rewrite !wrap32_small by (unfold is_u32; lia). lia.
Qed.

Lemma fire_own_station nLegacy i n stats :
  fire (station_conns nLegacy i) (station_device nLegacy i) n stats
  = station_handler nLegacy i n stats.
Proof.
  unfold station_conns, station_handler.
  case_bool_decide; cbn [app fire cn_dev cn_cb];
    rewrite !device_eqb_refl; destruct n; simpl;
    repeat match goal with
           | |- context [?h ?i ?s] =>
               lazymatch h with
               | OnMacTxDataFailed => destruct (h i s); simpl
               | OnMacTxFinalDataFailed => destruct (h i s); simpl
               | OnPhyTxDrop => destruct (h i s); simpl
               end
           end; try done.
  by destruct (OnHePhyTxMonitor i stats p pre).
Qed.

Lemma fire_other_station nLegacy i j n stats :
  0 <= nLegacy -> Z.of_nat i < 2 ^ 32 -> Z.of_nat j < 2 ^ 32 -> i <> j ->
  fire (station_conns nLegacy j) (station_device nLegacy i) n stats
  = Some stats.
Proof.
  intros Hn Hi Hj Hne. unfold station_conns.
  pose proof (station_device_inj nLegacy i j Hn Hi Hj Hne) as Hd.
  case_bool_decide; cbn [app fire cn_dev]; by rewrite !Hd.
Qed.

Lemma fire_stations nLegacy i n (l : list nat) :
  0 <= nLegacy -> Z.of_nat i < 2 ^ 32 ->
  (forall j, j ∈ l -> Z.of_nat j < 2 ^ 32) -> NoDup l ->
  forall stats,
    fire (l ≫= station_conns nLegacy) (station_device nLegacy i) n stats
    = if bool_decide (i ∈ l) then station_handler nLegacy i n stats
      else Some stats.
Proof.
  intros Hn Hi Hl Hnd. induction l as [|j l IH]; intros stats.
  - by rewrite bool_decide_false by apply not_elem_of_nil.
  - apply NoDup_cons in Hnd as [Hnin Hnd].
    assert (Hl' : forall k, k ∈ l -> Z.of_nat k < 2 ^ 32)
      by (intros k Hk; apply Hl; by right).
    rewrite bind_cons, fire_app. destruct (decide (j = i)) as [->|Hne].
    + rewrite fire_own_station.
      rewrite (bool_decide_true (i ∈ i :: l)) by left.
      destruct (station_handler nLegacy i n stats) as [s1|]; simpl; [|done].
      rewrite IH by done. by rewrite bool_decide_false.
    + rewrite fire_other_station by (try done; apply Hl; left). simpl.
      rewrite IH by done.
      rewrite (bool_decide_ext (i ∈ j :: l) (i ∈ l)); [done|].
      rewrite elem_of_cons. split; [intros [->|Hin]; done|by right].
Qed.

Lemma wire_conns nLegacy n sim conns sim' :
  wire nLegacy n sim = Some (conns, sim') ->
  conns = seq 0 (Z.to_nat n) ≫= station_conns nLegacy.
Proof.
  intros Hwire. unfold wire in Hwire.
  destruct (for_range_inv
    (fun (k : nat) (s : list Connection * Simulator) =>
       s.1 = seq 0 k ≫= station_conns nLegacy)
    (wire_station nLegacy) (Z.to_nat n) 0%nat ([], sim))
    as (s' & Hs' & HP).
  - done.
  - intros k [cn sm] _ Hq. unfold wire_station. cbn [fst snd] in *.
    eexists. split; [reflexivity|]. cbn [fst snd].
    rewrite seq_S, bind_app. simpl. rewrite app_nil_r. rewrite <- Hq.
    unfold station_conns, station_device.
    case_bool_decide; [by rewrite <- app_assoc|done].
  - rewrite Hwire in Hs'. injection Hs' as <-. exact HP.
Qed.

Lemma run_conns draw probe nLegacy ls :
  forall w w',
    run draw probe ls w = Some w' ->
    monitor_only_he nLegacy (w_conns w) ->
    legacy_unclassified nLegacy (w_stats w) ->
    w_conns w' = w_conns w.
Proof.
  induction ls as [|l ls IH]; intros w w' Hrun Hm Hleg; simpl in Hrun.
  - by injection Hrun as <-.
  - destruct (step draw probe l w) as [w1|] eqn:Hstep; [|done].
    destruct (step_table draw probe nLegacy _ _ _ Hstep Hm Hleg)
      as (Hc1 & Hleg1 & _).
    rewrite <- Hc1. apply IH; [done|by rewrite Hc1|done].
Qed.

(** X15. The wiring delivers each notification to the handler of the
    station whose device fired it, once, and to no other: throughout a run,
    a trace fired by the device of station [i] has the effect of one call
    of the matching handler with index [i] (for the frame monitor: only if
    the station is of the Scheduled class, otherwise none). *)
Theorem notification_reaches_own_station
        (draw : nat -> nat -> Time) (probe : Device -> Time -> option Z)
        (nLegacy : Z) (cs : list AppConfig) (simStop : Time)
        (ls : list Label) (w0 w : World) (i : nat)
        (n : Notification) (stats : list StaStats) :
  boot nLegacy cs simStop = Some w0 ->
  run draw probe ls w0 = Some w ->
  0 <= nLegacy -> Z.of_nat (length cs) <= 2 ^ 32 ->
  (i < length cs)%nat ->
  fire (w_conns w) (station_device nLegacy i) n stats
  = station_handler nLegacy i n stats.
Proof.
  intros Hboot Hrun Hn Hlen Hi.
  destruct (boot_table nLegacy cs simStop w0 Hboot) as (Hm & Hleg & _).
  rewrite (run_conns draw probe nLegacy _ _ _ Hrun Hm Hleg).
  unfold boot in Hboot.
  destruct (wire nLegacy _ Simulator_init) as [[conns sim]|] eqn:Hwire;
    simpl in Hboot; [|done].
  injection Hboot as <-. simpl.
  rewrite (wire_conns _ _ _ _ _ Hwire), Nat2Z.id.
  rewrite fire_stations; [|done|lia| |apply NoDup_seq].
  - rewrite bool_decide_true; [done|]. apply elem_of_seq. lia.
  - intros j Hj%elem_of_seq. lia.
Qed.

Lemma notification_reaches_own_station_witness :
  exists w,
    (boot 1 [demo_station (Double.of_Z 100) 0; demo_station (Double.of_Z 100) 0]
          7%N
     ≫= run demo_draw demo_probe [LDispatch]) = Some w
    /\ fire (w_conns w) (HeDev 0)
            (MonitorSnifferTx (Some 1200) WIFI_PREAMBLE_HE_TB)
            [StaStats_default; StaStats_default]
       = Some [StaStats_default; mkStaStats 0 0 0 0 0 0 1 0 1200].
Proof.
  eexists. split; [vm_compute; reflexivity|].
  change (HeDev 0) with (station_device 1 1).
  erewrite (notification_reaches_own_station demo_draw demo_probe 1
              [demo_station (Double.of_Z 100) 0;
               demo_station (Double.of_Z 100) 0] 7%N [LDispatch]);
    [reflexivity|vm_compute; reflexivity ..|lia|simpl; lia|simpl; lia].
Defined.

(** ** The rate list and [main] *)

(** X16. [ParseCsvDoubles] returns the empty vector, which makes [main]
    fall back on the per-class default rates, exactly when the text has no
    non-empty entry: the empty text, but also a text made of commas only. *)
Theorem no_entry_no_list (s : string) :
  ParseCsvDoubles s = inr [] <-> forall item, item ∈ entries s -> item = "".
Proof.
  rewrite ParseCsvDoubles_values. unfold nonempty_entries. split.
  - intros H%Forall2_nil_inv_r item Hin.
    destruct (decide (item = "")) as [|Hne]; [done|].
    assert (Hf : item ∈ filter (fun item => item <> "") (entries s))
      by (by apply list_elem_of_filter).
    rewrite H in Hf. by apply elem_of_nil in Hf.
  - intros H.
    destruct (filter (fun item => item <> "") (entries s)) as [|x l] eqn:Hf;
      [constructor|].
    assert (Hx : x ∈ filter (fun item => item <> "") (entries s))
      by (rewrite Hf; left).
    apply list_elem_of_filter in Hx as [Hne Hin]. by destruct Hne; apply H.
Qed.

(** X17. What [main] sets up from the command line: every application of
    a run has the payload size of the command line, the rate the lambda
    assignment gave its station, and no send cap, so that no [SendOnce] of
    a run of [main] is ever suppressed by the cap. *)
Theorem main_sources
        (draw : nat -> nat -> Time) (probe : Device -> Time -> option Z)
        (Seconds : double -> Time) (cfg : Config)
        (ls : list Label) (w0 w : World) (i : nat) (app : PoissonUdpApp) :
  main_boot Seconds cfg = Running w0 ->
  run draw probe ls w0 = Some w ->
  w_apps w !! i = Some app ->
  exists parsed lambdas,
    ParseCsvDoubles (cfg_lambdaList cfg) = inr parsed
    /\ LambdaAssignment (cfg_nLegacy cfg) (cfg_mHe cfg) parsed
                        (cfg_lambdaLegacy cfg) (cfg_lambdaHe cfg)
       = Some lambdas
    /\ lambdas !! i = Some (m_lambda app)
    /\ m_pktSize app = cfg_payloadSize cfg
    /\ m_maxPackets app = 0
    /\ cap_reached app = false.
Proof.
  unfold main_boot. intros Hmain Hrun Hi.
  destruct (ParseCsvDoubles (cfg_lambdaList cfg)) as [e|parsed]; [done|].
  destruct (LambdaAssignment _ _ _ _ _) as [lambdas|] eqn:Hassign; [|done].
  destruct (boot _ _ _) as [w0'|] eqn:Hboot; [|done].
  injection Hmain as ->.
  destruct (reachable_app draw probe _ _ _ _ _ _ _ _ Hboot Hrun Hi)
    as (c & Hc & Hl & Hp & Hm & _).
  unfold main_apps in Hc. rewrite list_lookup_imap in Hc.
  destruct (lambdas !! i) as [lam|] eqn:Hlam; simpl in Hc; [|done].
  injection Hc as <-. simpl in *.
  exists parsed, lambdas.
  split; [done|]. split; [done|]. split; [by rewrite Hl|].
  split; [done|]. split; [done|]. unfold cap_reached. by rewrite Hm.
Qed.

Lemma main_sources_witness :
  exists w0 w app,
    main_boot (fun _ => 3%N)
              (mkConfig 1 1 (Double.of_Z 10) 1200 "50,80"
                        (Double.of_Z 100) (Double.of_Z 100)) = Running w0
    /\ run demo_draw demo_probe [LDispatch] w0 = Some w
    /\ w_apps w !! 1%nat = Some app
    /\ m_lambda app = Double.of_Z 80
    /\ m_pktSize app = 1200 /\ m_maxPackets app = 0.
Proof.
  edestruct (main_sources demo_draw demo_probe (fun _ => 3%N)
               (mkConfig 1 1 (Double.of_Z 10) 1200 "50,80"
                         (Double.of_Z 100) (Double.of_Z 100)) [LDispatch])
    with (i := 1%nat)
    as (parsed & lambdas & Hp & Hl & Hi & Hs & Hm & _);
    [vm_compute; reflexivity ..|].
  eexists _, _, _. split; [vm_compute; reflexivity|].
  split; [vm_compute; reflexivity|]. split; [vm_compute; reflexivity|].
  by split_and!.
Defined.

(** X18. The two rate guards of the application. [Setup] sets the mean of
    the generator only for [lambda > 0], [ScheduleNext] gives up only for
    [lambda <= 0]. Started after [Setup] with a socket, the application
    schedules no send when the rate is zero or negative, and [m_sendEvent]
    is then still the one it had before [Setup]; it schedules its
    first send, with mean [1 / lambda], when the rate is positive; and for
    a NaN rate, which passes both guards, it schedules its first send with
    the mean the generator was created with. Every rate is one of the
    three. *)
Theorem rate_guards
        (draw : nat -> nat -> Time) (this : nat) (sock : Socket)
        (peer : Address) (pktSize : Z) (lam : double) (maxPackets : Z)
        (rng : ExponentialRandomVariable) (app0 : PoissonUdpApp)
        (sim : Simulator) :
  exists app' sim',
    StartApplication draw this
      (Setup (Some sock) peer pktSize lam maxPackets rng app0) sim
    = Some (app', sim')
    /\ m_running app' = true
    /\ (Double.leb lam Double.zero = true ->
        sim' = sim /\ m_sendEvent app' = m_sendEvent app0)
    /\ (Double.ltb Double.zero lam = true ->
        sim' = snd (Simulator_Schedule (draw (rv_stream rng) (rv_drawn rng))
                                       (ActSendOnce this) sim)
        /\ m_sendEvent app' = Some (sim_uid sim)
        /\ rv_mean <$> m_rng app' = Some (Double.div (Double.of_Z 1) lam))
    /\ (lam = Double.nan ->
        sim' = snd (Simulator_Schedule (draw (rv_stream rng) (rv_drawn rng))
                                       (ActSendOnce this) sim)
        /\ m_sendEvent app' = Some (sim_uid sim)
        /\ rv_mean <$> m_rng app' = Some (rv_mean rng))
    /\ (Double.leb lam Double.zero = true
        \/ Double.ltb Double.zero lam = true
        \/ lam = Double.nan).
Proof.
  unfold StartApplication, ScheduleNext, Setup, Rng_GetValue,
    Simulator_Schedule, set_running, set_socket, set_sendEvent.
  destruct lam as [[|]|[|]| |[|] m e]; cbn; eexists _, _;
    (split; [reflexivity|]); cbn; split_and!; try done; auto.
Qed.

(** ** Doubles: signs and magnitudes through rounding *)

Lemma shr_1_nonneg mrs : 0 <= shr_m mrs -> 0 <= shr_m (shr_1 mrs).
Proof. destruct mrs as [[|[p|p|]|[p|p|]] r s]; cbn; lia. Qed.

Lemma shr_iter_nonneg k :
  forall mrs, 0 <= shr_m mrs -> 0 <= shr_m (SpecFloat.iter_pos shr_1 k mrs).
Proof.
  induction k as [k IH|k IH|]; intros mrs H; cbn [SpecFloat.iter_pos];
    auto using shr_1_nonneg.
Qed.

Lemma shr_fexp_nonneg m e l :
  0 <= m -> 0 <= shr_m (fst (shr_fexp Double.prec Double.emax m e l)).
Proof.
  intros H. unfold shr_fexp, shr.
  assert (0 <= shr_m (shr_record_of_loc m l))
    by (destruct l as [|[| |]]; exact H).
  destruct (_ - _); cbn [fst]; auto using shr_iter_nonneg.
Qed.

Lemma round_nearest_even_nonneg m l : 0 <= m -> 0 <= round_nearest_even m l.
Proof.
  unfold round_nearest_even.
  destruct l as [|[| |]]; try destruct (Z.even m); lia.
Qed.

(** Rounding a non-negative mantissa gives a zero, a finite number or an
    infinity of the sign asked for. *)
Lemma binary_round_aux_nonneg sx m e l :
  0 <= m ->
  is_nan (binary_round_aux Double.prec Double.emax sx m e l) = false
  /\ sign_bit (binary_round_aux Double.prec Double.emax sx m e l) = sx.
Proof.
  intros H. unfold binary_round_aux.
  pose proof (shr_fexp_nonneg m e l H) as H1.
  destruct (shr_fexp _ _ m e l) as [mrs1 e1]. cbn [fst] in H1.
  pose proof (shr_fexp_nonneg _ e1 loc_Exact
                (round_nearest_even_nonneg _ (loc_of_shr_record mrs1) H1))
    as H2.
  destruct (shr_fexp _ _ _ e1 loc_Exact) as [mrs2 e2]. cbn [fst] in H2.
  destruct (shr_m mrs2); [done| |lia]. by destruct (_ <=? _).
Qed.

Lemma digits2_pos_lower p k :
  0 <= k -> 2 ^ k <= Zpos p -> k < Zpos (digits2_pos p).
Proof.
  intros Hk Hp. rewrite digits2_pos_size.
  pose proof (Pos.size_gt p) as Hgt.
  apply Pos2Z.pos_lt_pos in Hgt. rewrite Pos2Z.inj_pow in Hgt.
  destruct (Z.lt_ge_cases k (Zpos (Pos.size p))) as [|Hge]; [assumption|].
  exfalso.
  assert (2 ^ Zpos (Pos.size p) <= 2 ^ k) by (apply Z.pow_le_mono_r; lia).
  lia.
Qed.

Lemma digits2_pos_range p :
  2 ^ (Zpos (digits2_pos p) - 1) <= Zpos p < 2 ^ Zpos (digits2_pos p).
Proof.
  rewrite digits2_pos_size. split.
  - pose proof (Pos.size_le p) as Hle.
    apply Pos2Z.pos_le_pos in Hle. rewrite Pos2Z.inj_pow in Hle.
    change (Zpos p~0) with (2 * Zpos p) in Hle.
    replace (Zpos (Pos.size p)) with (Z.succ (Zpos (Pos.size p) - 1)) in Hle
      by lia.
    rewrite Z.pow_succ_r in Hle by lia. lia.
  - pose proof (Pos.size_gt p) as Hgt.
    apply Pos2Z.pos_lt_pos in Hgt. by rewrite Pos2Z.inj_pow in Hgt.
Qed.

Lemma digits2_pos_mul a b :
  Zpos (digits2_pos a) + Zpos (digits2_pos b) - 1
  <= Zpos (digits2_pos (a * b))
  <= Zpos (digits2_pos a) + Zpos (digits2_pos b).
Proof.
  destruct (digits2_pos_range a) as [Ha1 Ha2].
  destruct (digits2_pos_range b) as [Hb1 Hb2].
  set (da := Zpos (digits2_pos a)) in *.
  set (db := Zpos (digits2_pos b)) in *.
  assert (0 < 2 ^ (da - 1)) by (apply Z.pow_pos_nonneg; lia).
  assert (0 < 2 ^ (db - 1)) by (apply Z.pow_pos_nonneg; lia).
  split.
  - assert (da + db - 2 < Zpos (digits2_pos (a * b))); [|lia].
    apply digits2_pos_lower; [lia|].
    replace (da + db - 2) with ((da - 1) + (db - 1)) by lia.
    rewrite Z.pow_add_r by lia. rewrite Pos2Z.inj_mul.
    apply Z.mul_le_mono_nonneg; lia.
  - apply digits2_pos_bound; [lia|].
    rewrite Z.pow_add_r by lia. rewrite Pos2Z.inj_mul.
    apply Z.mul_lt_mono_nonneg; lia.
Qed.

(** Shifting a mantissa by fewer bits than it has leaves a mantissa. *)
Lemma shr_fexp_shift m e l :
  fexp Double.prec Double.emax (Zpos (digits2_pos m) + e) - e
  < Zpos (digits2_pos m) ->
  exists m' r' s',
    shr_fexp Double.prec Double.emax (Zpos m) e l
    = (Build_shr_record (Zpos m') r' s',
       e + Z.max 0 (fexp Double.prec Double.emax (Zpos (digits2_pos m) + e)
                    - e))
    /\ Zpos (digits2_pos m')
       = Zpos (digits2_pos m)
         - Z.max 0 (fexp Double.prec Double.emax (Zpos (digits2_pos m) + e)
                    - e).
Proof.
  intros Hk. unfold shr_fexp, shr. cbn [Zdigits2].
  replace (shr_record_of_loc (Zpos m) l)
    with (Build_shr_record (Zpos m)
            (shr_r (shr_record_of_loc (Zpos m) l))
            (shr_s (shr_record_of_loc (Zpos m) l)))
    by (destruct l as [|[| |]]; reflexivity).
  destruct (fexp _ _ _ - e) as [|k|k] eqn:Hd.
  - eexists _, _, _. split; [by rewrite Z.add_0_r|lia].
  - destruct (shr_iter_pos k m (shr_r (shr_record_of_loc (Zpos m) l))
                (shr_s (shr_record_of_loc (Zpos m) l)))
      as (m' & r' & s' & -> & Hdig); [lia|].
    exists m', r', s'. split; [f_equal; lia|lia].
  - eexists _, _, _. split; [f_equal; lia|lia].
Qed.

(** A mantissa that keeps at least one bit does not round to zero. *)
Lemma binary_round_aux_nonzero sx m e l :
  fexp Double.prec Double.emax (Zpos (digits2_pos m) + e) - e
  < Zpos (digits2_pos m) ->
  (exists m' e', binary_round_aux Double.prec Double.emax sx (Zpos m) e l
                 = S754_finite sx m' e')
  \/ binary_round_aux Double.prec Double.emax sx (Zpos m) e l
     = S754_infinity sx.
Proof.
  intros Hk. unfold binary_round_aux.
  destruct (shr_fexp_shift m e l Hk) as (m1 & r1 & s1 & -> & H1).
  cbn [shr_m].
  destruct (round_nearest_even_pos m1
              (loc_of_shr_record (Build_shr_record (Zpos m1) r1 s1)))
    as (m2 & -> & H2).
  edestruct (shr_fexp_shift m2) as (m3 & r3 & s3 & -> & H3).
  { revert Hk H1 H2. unfold fexp, emin, Double.prec, Double.emax.
    pose proof (Pos2Z.is_pos (digits2_pos m1)). lia. }
  cbn [shr_m]. destruct (_ <=? _); [left; by eexists _, _|by right].
Qed.

Lemma binary_round_aux_pos_bounds m e l :
  53 <= Zpos (digits2_pos m) -> -1074 <= e ->
  e + Zpos (digits2_pos m) <= 1023 ->
  exists m' e', binary_round_aux Double.prec Double.emax false (Zpos m) e l
                = S754_finite false m' e'
                /\ Zpos (digits2_pos m') = 53
                /\ e + Zpos (digits2_pos m) - 53 <= e'
                   <= e + Zpos (digits2_pos m) - 52.
Proof.
  intros Hd He Hmax. unfold binary_round_aux.
  destruct (shr_fexp_pos m e l Hd He) as (m1 & r1 & s1 & -> & H1).
  cbn [shr_m].
  destruct (round_nearest_even_pos m1
              (loc_of_shr_record (Build_shr_record (Zpos m1) r1 s1)))
    as (m2 & -> & H2).
  destruct (shr_fexp_pos m2 (e + (Zpos (digits2_pos m) - 53)) loc_Exact)
    as (m3 & r3 & s3 & -> & H3); [lia|lia|].
  cbn [shr_m]. exists m3. eexists.
  replace (_ <=? _) with true; [split; [reflexivity|split; [done|lia]]|].
  symmetry. apply Z.leb_le. unfold Double.emax, Double.prec. lia.
Qed.

(** The conversion of a positive 64-bit integer is a normal number
    between 1 and [2^64]. *)
Lemma of_Z_pos_bounds n :
  0 < n < 2 ^ 64 ->
  exists m e, Double.of_Z n = S754_finite false m e
              /\ Zpos (digits2_pos m) = 53 /\ -52 <= e <= 12.
Proof.
  intros [Hpos Hlt]. destruct n as [|p|p]; [lia| |lia].
  pose proof (digits2_pos_bound p 64 ltac:(lia) Hlt) as Hd.
  pose proof (Pos2Z.is_pos (digits2_pos p)) as Hd0.
  unfold Double.of_Z, binary_normalize, binary_round, shl_align, fexp, emin,
    Double.prec, Double.emax.
  replace (Z.max (Zpos (digits2_pos p) + 0 - 53) (3 - 1024 - 53) - 0)
    with (Zpos (digits2_pos p) - 53) by lia.
  replace (Z.max (Zpos (digits2_pos p) + 0 - 53) (3 - 1024 - 53))
    with (Zpos (digits2_pos p) - 53) by lia.
  destruct (Zpos (digits2_pos p) - 53) as [|k|k] eqn:Hk.
  - destruct (binary_round_aux_pos_bounds p 0 loc_Exact)
      as (m' & e' & Heq & Hm & He); [lia..|].
    exists m', e'. split; [exact Heq|]. split; [done|lia].
  - destruct (binary_round_aux_pos_bounds p 0 loc_Exact)
      as (m' & e' & Heq & Hm & He); [lia..|].
    exists m', e'. split; [exact Heq|]. split; [done|lia].
  - pose proof (digits2_pos_iter_xO k p).
    destruct (binary_round_aux_pos_bounds (Pos.iter xO p k) (Zneg k) loc_Exact)
      as (m' & e' & Heq & Hm & He); [lia..|].
    exists m', e'. split; [exact Heq|]. split; [done|lia].
Qed.

Lemma of_Z_8 : Double.of_Z 8 = S754_finite false 4503599627370496 (-49).
Proof. vm_compute. reflexivity. Qed.

Lemma of_Z_1e6 :
  Double.of_Z 1000000 = S754_finite false 8589934592000000 (-33).
Proof. vm_compute. reflexivity. Qed.

(** [rxBytes * 8.0] is [+0.0] for no byte and a positive finite number
    otherwise: the product of a 64-bit count by 8 does not overflow. *)
Lemma bytes_to_bits rx :
  0 <= rx < 2 ^ 64 ->
  (rx = 0
   /\ Double.mul (Double.of_Z rx) (Double.of_Z 8) = S754_zero false)
  \/ (0 < rx
      /\ exists m e, Double.mul (Double.of_Z rx) (Double.of_Z 8)
                     = S754_finite false m e).
Proof.
  intros [H0 H1]. destruct (decide (rx = 0)) as [->|Hne].
  { left. split; [done|]. vm_compute. reflexivity. }
  right. split; [lia|].
  destruct (of_Z_pos_bounds rx) as (m & e & -> & Hm & He); [lia|].
  rewrite of_Z_8. unfold Double.mul, SFmul. cbn [xorb].
  pose proof (digits2_pos_mul m 4503599627370496) as Hd.
  change (Zpos (digits2_pos 4503599627370496)) with 53 in Hd.
  apply binary_round_aux_pos; lia.
Qed.

(** [measuredInterval * 1e6] of a finite non-zero interval is finite or
    infinite, of the sign of the interval: it does not underflow to zero. *)
Lemma interval_to_micro s m e :
  bounded Double.prec Double.emax m e = true ->
  (exists m' e', Double.mul (S754_finite s m e) (Double.of_Z 1000000)
                 = S754_finite s m' e')
  \/ Double.mul (S754_finite s m e) (Double.of_Z 1000000) = S754_infinity s.
Proof.
  intros Hb. rewrite of_Z_1e6. unfold Double.mul, SFmul.
  rewrite xorb_false_r. apply binary_round_aux_nonzero.
  unfold bounded, canonical_mantissa in Hb.
  apply andb_prop in Hb as [Hc _]. apply Z.eqb_eq in Hc.
  pose proof (digits2_pos_mul m 8589934592000000) as Hd.
  change (Zpos (digits2_pos 8589934592000000)) with 53 in Hd.
  pose proof (Pos2Z.is_pos (digits2_pos m)).
  revert Hc. unfold fexp, emin, Double.prec, Double.emax. lia.
Qed.

(** The quotient of two finite non-zero numbers is a number, with the
    sign of the quotient. *)
Lemma div_finite_sign sx mx ex sy my ey :
  is_nan (Double.div (S754_finite sx mx ex) (S754_finite sy my ey)) = false
  /\ sign_bit (Double.div (S754_finite sx mx ex) (S754_finite sy my ey))
     = xorb sx sy.
Proof.
  unfold Double.div, SFdiv, SFdiv_core_binary. cbv zeta.
  match goal with
  | |- context [Z.div_eucl ?a ?b] =>
      assert (Ha : 0 <= a);
      [|pose proof (Z.div_pos a b Ha ltac:(lia)) as Hq; unfold Z.div in Hq;
        destruct (Z.div_eucl a b) as [q r]]
  end.
  { destruct (_ - _ - _); [lia|apply Z.shiftl_nonneg; lia|lia]. }
  by apply binary_round_aux_nonneg.
Qed.

Ltac thr_case :=
  cbn; split_and!; try done; try lia; auto;
  try (intros [?|[? ?]]; (done || lia)).

(** X19. The throughput the report prints, for a received byte count of 64
    bits and any interval a [double] can hold: it is a NaN exactly when
    the interval is a NaN, or the interval is a zero and no byte was
    received; otherwise it has the sign of the interval; and a zero
    interval with received bytes gives an infinity. *)
Theorem throughput_sign (rxBytes : Z) (interval : double) :
  0 <= rxBytes < 2 ^ 64 ->
  valid_binary Double.prec Double.emax interval = true ->
  (is_nan (thrMbps rxBytes interval) = true
   <-> is_nan interval = true
       \/ (Double.is_zero interval = true /\ rxBytes = 0))
  /\ (is_nan (thrMbps rxBytes interval) = false ->
      sign_bit (thrMbps rxBytes interval) = sign_bit interval)
  /\ (Double.is_zero interval = true -> 0 < rxBytes ->
      thrMbps rxBytes interval = Double.infinity (sign_bit interval)).
Proof.
  intros Hrx Hv. unfold thrMbps.
  destruct (bytes_to_bits rxBytes Hrx)
    as [[-> ->]|[Hpos (mn & en & ->)]].
  - destruct interval as [s|s| |s m e].
    + rewrite of_Z_1e6. destruct s; thr_case.
    + rewrite of_Z_1e6. destruct s; thr_case.
    + thr_case.
    + destruct (interval_to_micro s m e Hv) as [(m' & e' & ->)| ->];
        destruct s; thr_case.
  - destruct interval as [s|s| |s m e].
    + rewrite of_Z_1e6. destruct s; thr_case.
    + rewrite of_Z_1e6. destruct s; thr_case.
    + thr_case.
    + destruct (interval_to_micro s m e Hv) as [(m' & e' & ->)| ->].
      * destruct (div_finite_sign false mn en s m' e') as [Hn Hs].
        rewrite Hn, Hs. thr_case.
      * destruct s; thr_case.
Qed.

Lemma throughput_sign_witness :
  is_nan (thrMbps 1500000 (Double.of_Z 10)) = false
  /\ sign_bit (thrMbps 1500000 (Double.of_Z 10)) = false.
Proof.
  destruct (throughput_sign 1500000 (Double.of_Z 10)) as (_ & Hs & _);
    [lia|vm_compute; reflexivity|].
  split; [vm_compute; reflexivity|]. apply Hs. vm_compute. reflexivity.
Defined.
